(** * OpenPIV (pyprocess_gpu): a shallow embedding of the cross-correlation core

    The development follows [src/openpiv/pyprocess_gpu.py] function by
    function.  Conventions of the embedding:

    - NumPy/CuPy floating point values are exact rationals ([Qc], canonical
      fractions, so that Leibniz equality is numeric equality) extended with
      the IEEE special values [+inf], [-inf] and [NaN].  Rounding and signed
      zeros are not modelled there.  The intensity normalizer, which casts
      to [np.float32], is the exception: it is written over binary32
      numbers ([spec_float] with precision 24), rounding included.
    - An [ndarray] is its shape together with its row-major buffer, as the
      code has it: a 2-D correlation map is [map2], a batch of maps is
      [batch].
    - Python integers are [Z]; NumPy [int64] arithmetic writes its wrap-around
      out ([wrap64]).
    - Exceptions are constructors of [error]; a function that can raise
      returns a [result].
    - Library functions that have no closed form over the rationals
      ([numpy.log], the FFT twiddle factors) are section variables. *)

From Stdlib Require Import String ZArith QArith Qcanon List Bool Lia Lqa SpecFloat.
Import ListNotations.

Set Implicit Arguments.
Close Scope Qc_scope.
Close Scope Q_scope.

(* ================================================================== *)
(** ** Exceptions *)

Inductive error : Type :=
| ValueError (msg : string)
| NotImplementedError (msg : string)
| UnboundLocalError (msg : string)
| ZeroDivisionError
| OverflowError
| IndexError
| TypeError (msg : string).

Inductive result (A : Type) : Type :=
| Ok (a : A)
| Raise (e : error).

Arguments Ok {A} a.
Arguments Raise {A} e.

Definition rbind {A B : Type} (m : result A) (k : A -> result B) : result B :=
  match m with
  | Ok a => k a
  | Raise e => Raise e
  end.

Declare Scope result_scope.
Delimit Scope result_scope with result.
Notation "x <- m ;; k" := (rbind m (fun x => k))
  (at level 61, m at next level, right associativity) : result_scope.

(* ================================================================== *)
(** ** Floating point values: exact rationals with the IEEE specials *)

Inductive num : Type :=
| Fin (q : Qc)
| PInf
| NInf
| NaN.

Definition qc (n : Z) (d : positive) : Qc := Q2Qc (n # d).
Definition of_Z (z : Z) : num := Fin (qc z 1).
Definition zero : num := of_Z 0.

Definition Qc_ltb (a b : Qc) : bool :=
  match (a ?= b)%Qc with Lt => true | _ => false end.
Definition Qc_leb (a b : Qc) : bool :=
  match (a ?= b)%Qc with Gt => false | _ => true end.
Definition Qc_eqb (a b : Qc) : bool :=
  match (a ?= b)%Qc with Eq => true | _ => false end.

Definition isnan (x : num) : bool :=
  match x with NaN => true | _ => false end.

(** [-1], [0] or [1]; only used on values that are not NaN. *)
Definition sign (x : num) : Z :=
  match x with
  | Fin q => match (q ?= qc 0 1)%Qc with Lt => -1 | Eq => 0 | Gt => 1 end
  | PInf => 1
  | NInf => -1
  | NaN => 0
  end.

Definition of_sign (s : Z) : num :=
  if (s =? 0)%Z then NaN else if (0 <? s)%Z then PInf else NInf.

Definition neg (x : num) : num :=
  match x with
  | Fin q => Fin (- q)%Qc
  | PInf => NInf
  | NInf => PInf
  | NaN => NaN
  end.

Definition add (x y : num) : num :=
  match x, y with
  | NaN, _ | _, NaN => NaN
  | Fin a, Fin b => Fin (a + b)%Qc
  | PInf, NInf | NInf, PInf => NaN
  | PInf, _ | _, PInf => PInf
  | NInf, _ | _, NInf => NInf
  end.

Definition sub (x y : num) : num := add x (neg y).

Definition mul (x y : num) : num :=
  match x, y with
  | NaN, _ | _, NaN => NaN
  | Fin a, Fin b => Fin (a * b)%Qc
  | _, _ => of_sign (sign x * sign y)
  end.

(** Division as NumPy does it on arrays: no exception, [x/0] is an infinity
    of the sign of [x] and [0/0] is NaN. *)
Definition div (x y : num) : num :=
  match x, y with
  | NaN, _ | _, NaN => NaN
  | Fin a, Fin b =>
      if Qc_eqb b (qc 0 1) then of_sign (sign x) else Fin (a / b)%Qc
  | Fin _, _ => zero
  | _, Fin b => of_sign (sign x * (if Qc_ltb b (qc 0 1) then -1 else 1))
  | _, _ => NaN
  end.

Definition absn (x : num) : num :=
  match x with
  | Fin q => if Qc_ltb q (qc 0 1) then Fin (- q)%Qc else Fin q
  | PInf | NInf => PInf
  | NaN => NaN
  end.

(** Comparisons: false as soon as one side is NaN. *)
Definition ltb (x y : num) : bool :=
  match x, y with
  | NaN, _ | _, NaN => false
  | Fin a, Fin b => Qc_ltb a b
  | NInf, NInf | PInf, _ => false
  | NInf, _ | _, PInf => true
  | _, NInf => false
  end.

Definition leb (x y : num) : bool :=
  match x, y with
  | NaN, _ | _, NaN => false
  | Fin a, Fin b => Qc_leb a b
  | NInf, _ | _, PInf => true
  | PInf, _ | _, NInf => false
  end.

Definition eqb (x y : num) : bool :=
  match x, y with
  | Fin a, Fin b => Qc_eqb a b
  | PInf, PInf | NInf, NInf => true
  | _, _ => false
  end.

Definition gtb (x y : num) : bool := ltb y x.
Definition neb (x y : num) : bool := negb (eqb x y).

Declare Scope num_scope.
Delimit Scope num_scope with num.
Infix "+" := add : num_scope.
Infix "-" := sub : num_scope.
Infix "*" := mul : num_scope.
Infix "/" := div : num_scope.

(* ================================================================== *)
(** ** NumPy [int64] *)

Definition wrap64 (z : Z) : Z := ((z + 2 ^ 63) mod 2 ^ 64 - 2 ^ 63)%Z.

Definition int64_sub (a b : Z) : Z := wrap64 (a - b).
Definition int64_add (a b : Z) : Z := wrap64 (a + b).
(** [//] on integer arrays: floor division, [0] (and a warning) for a zero
    divisor. *)
Definition int64_floordiv (a b : Z) : Z := wrap64 (a / b).

(* ================================================================== *)
(** ** Grid geometry *)

(** [get_field_shape]: the tuples become [int64] arrays and the arithmetic
    is element-wise. *)
Definition get_field_shape (image_size search_area_size overlap : Z * Z) : Z * Z :=
  let axis (im sa ov : Z) :=
    int64_add (int64_floordiv (int64_sub im sa) (int64_sub sa ov)) 1 in
  (axis (fst image_size) (fst search_area_size) (fst overlap),
   axis (snd image_size) (snd search_area_size) (snd overlap)).

(* ================================================================== *)
(** ** Arrays *)

(** A 2-D [ndarray]: shape and row-major buffer.  Used for images,
    coordinate grids and single correlation maps. *)
Record arr2 (A : Type) : Type := mk_arr2 {
  nrow : nat;
  ncol : nat;
  buf : list A
}.

(** A 3-D [ndarray] of shape [(length wins, rows3, cols3)]: one row-major
    buffer per window (the view [a.reshape(a.shape[0], -1)]). *)
Record arr3 (A : Type) : Type := mk_arr3 {
  rows3 : nat;
  cols3 : nat;
  wins : list (list A)
}.

Definition image := arr2 num.
Definition map2 := arr2 num.
Definition batch := arr3 num.

Definition nwin {A} (b : arr3 A) : nat := length (wins b).

Definition win_ok {A} (r c : nat) (w : list A) : Prop := length w = (r * c)%nat.
Definition map2_ok {A} (m : arr2 A) : Prop := win_ok (nrow m) (ncol m) (buf m).
Definition batch_ok {A} (b : arr3 A) : Prop := Forall (win_ok (rows3 b) (cols3 b)) (wins b).

(** Integer-array indexing on a CuPy array: a negative index counts from the
    end and an index past the end wraps around (CuPy does no bounds check);
    both are the index modulo the axis length. *)
Definition wrap_index (i : Z) (len : nat) : nat := Z.to_nat (i mod Z.of_nat len).

Definition read2 {A} (d : A) (r c : nat) (w : list A) (i j : Z) : A :=
  nth (wrap_index i r * c + wrap_index j c) w d.

Definition arange (n : Z) : list Z := map Z.of_nat (seq 0 (Z.to_nat n)).

(** [np.meshgrid(x, y)] with the default ['xy'] indexing. *)
Definition meshgrid {A} (x y : list A) : arr2 A * arr2 A :=
  (mk_arr2 (length y) (length x) (concat (map (fun _ => x) y)),
   mk_arr2 (length y) (length x) (concat (map (fun v => repeat v (length x)) y))).

(** [a[0, :]] and [a[:, 0]]: IndexError when the indexed axis is empty. *)
Definition first_row {A} (a : arr2 A) : result (list A) :=
  match nrow a with
  | O => Raise IndexError
  | S _ => Ok (firstn (ncol a) (buf a))
  end.

Definition first_col {A} (d : A) (a : arr2 A) : result (list A) :=
  match ncol a with
  | O => Raise IndexError
  | S _ => Ok (map (fun r => nth (r * ncol a) (buf a) d) (seq 0 (nrow a)))
  end.

(** Python slicing [l[b0:b1]] with step 1. *)
Definition slice_bound (b : Z) (len : nat) : nat :=
  if (b <? 0)%Z then Z.to_nat (Z.max 0 (b + Z.of_nat len))
  else Nat.min (Z.to_nat b) len.

Definition slice {A} (b0 b1 : Z) (l : list A) : list A :=
  let lo := slice_bound b0 (length l) in
  let hi := slice_bound b1 (length l) in
  firstn (hi - lo) (skipn lo l).

(** [astype(int)] on a float: truncation toward zero (the specials give the
    most negative [int64]). *)
Definition trunc_int (x : num) : Z :=
  match x with
  | Fin q => wrap64 (Z.quot (Qnum q) (Zpos (Qden q)))
  | _ => (- 2 ^ 63)%Z
  end.

(** A window size or an overlap given as one [int] or as a pair. *)
Inductive int_or_pair : Type :=
| Int (n : Z)
| Pair (p : Z * Z).

Definition as_pair (v : int_or_pair) : Z * Z :=
  match v with
  | Int n => (n, n)
  | Pair p => p
  end.

(** [get_coordinates]: centres of the (square) windows. *)
Definition get_coordinates (image_size : Z * Z) (search_area_size overlap : Z)
    (center_on_field : bool) : arr2 num * arr2 num :=
  let field_shape :=
    get_field_shape image_size (search_area_size, search_area_size) (overlap, overlap) in
  let step := (search_area_size - overlap)%Z in
  let centres (n : Z) :=
    map (fun i => (of_Z (wrap64 (i * step)) + Fin (qc search_area_size 2))%num) (arange n) in
  let shift (im n : Z) :=
    of_Z (int64_floordiv
            (wrap64 (im - 1 - wrap64 (wrap64 (wrap64 (n - 1) * step) + (search_area_size - 1)))) 2) in
  let x := centres (snd field_shape) in
  let y := centres (fst field_shape) in
  let x := if center_on_field
           then map (fun v => (v + shift (snd image_size) (snd field_shape))%num) x else x in
  let y := if center_on_field
           then map (fun v => (v + shift (fst image_size) (fst field_shape))%num) y else y in
  meshgrid x y.

(** [get_rect_coordinates]: the rectangular grid, from two square ones. *)
Definition get_rect_coordinates (image_size : Z * Z) (window_size overlap : int_or_pair)
    (center_on_field : bool) : result (arr2 num * arr2 num) :=
  let window_size := as_pair window_size in
  let overlap := as_pair overlap in
  let y := snd (get_coordinates image_size (fst window_size) (fst overlap) center_on_field) in
  let x := fst (get_coordinates image_size (snd window_size) (snd overlap) center_on_field) in
  (x0 <- first_row x ;;
   y0 <- first_col NaN y ;;
   Ok (meshgrid x0 y0))%result.

(** [sliding_window_array]: the windows of an image, all of them or those of
    a block range; window [k] is [image[y_k + i, x_k + j]]. *)
Definition sliding_window_array (img : image) (window_size overlap : Z * Z)
    (block_range : option (Z * Z)) : result batch :=
  (xy <- get_rect_coordinates (Z.of_nat (nrow img), Z.of_nat (ncol img))
          (Pair window_size) (Pair overlap) false ;;
   let x := map (fun v => trunc_int (v - of_Z (snd window_size / 2))%num) (buf (fst xy)) in
   let y := map (fun v => trunc_int (v - of_Z (fst window_size / 2))%num) (buf (snd xy)) in
   let wr := Z.to_nat (fst window_size) in
   let wc := Z.to_nat (snd window_size) in
   let win_y := concat (map (fun i => repeat i wc) (arange (fst window_size))) in
   let win_x := concat (map (fun _ => arange (snd window_size)) (arange (fst window_size))) in
   let pick (s : list Z) :=
     match block_range with
     | None => s
     | Some (b0, b1) => slice b0 b1 s
     end in
   Ok (mk_arr3 wr wc
         (map (fun '(yk, xk) =>
                 map (fun '(i, j) =>
                        read2 NaN (nrow img) (ncol img) (buf img)
                              (wrap64 (i + yk)) (wrap64 (j + xk)))
                     (combine win_y win_x))
              (combine (pick y) (pick x)))))%result.

(* ================================================================== *)
(** ** In-place effects: a state-and-exception monad

    The state is the caller's correlation array.  [reads] evaluates an
    expression on it, [modify] is an in-place update. *)

Definition M (S A : Type) : Type := S -> result A * S.

Definition ret {S A : Type} (a : A) : M S A := fun s => (Ok a, s).
Definition raise {S A : Type} (e : error) : M S A := fun s => (Raise e, s).
Definition bind {S A B : Type} (m : M S A) (k : A -> M S B) : M S B :=
  fun s => match m s with
           | (Ok a, s') => k a s'
           | (Raise e, s') => (Raise e, s')
           end.
Definition reads {S A : Type} (f : S -> A) : M S A := fun s => (Ok (f s), s).
Definition lift {S A : Type} (f : S -> result A) : M S A := fun s => (f s, s).
Definition modify {S : Type} (f : S -> S) : M S unit := fun s => (Ok tt, f s).

Declare Scope m_scope.
Delimit Scope m_scope with M.
Notation "x <- m ;; k" := (bind m (fun x => k))
  (at level 61, m at next level, right associativity) : m_scope.
Notation "m ;;; k" := (bind m (fun _ => k))
  (at level 61, right associativity) : m_scope.

(** A loop with an accumulator: [for i in l: acc = body(acc, i)]. *)
Fixpoint foldM {S A : Type} (body : A -> nat -> M S A) (l : list nat) (acc : A) : M S A :=
  match l with
  | [] => ret acc
  | i :: t => (acc' <- body acc i ;; foldM body t acc')%M
  end.

(** The element [correlation[i]] handed to a callee is a view: what the
    callee does to it in place is done to window [i] of the batch. *)
Definition window (b : batch) (i : nat) : map2 :=
  mk_arr2 (rows3 b) (cols3 b) (nth i (wins b) []).

Fixpoint set_nth {A : Type} (i : nat) (v : A) (l : list A) : list A :=
  match l, i with
  | [], _ => []
  | _ :: t, O => v :: t
  | x :: t, S i' => x :: set_nth i' v t
  end.

Definition on_window {A : Type} (i : nat) (m : M map2 A) : M batch A :=
  fun b => let (r, w) := m (window b i) in
           (r, mk_arr3 (rows3 b) (cols3 b) (set_nth i (buf w) (wins b))).

(* ================================================================== *)
(** ** Peak finder *)

(** [argmax] over a flat buffer as NumPy computes it: the first maximum, and
    the first NaN if there is one. *)
Fixpoint argmax_from (best_i : nat) (best : num) (i : nat) (l : list num) : nat :=
  match l with
  | [] => best_i
  | x :: t =>
      if isnan best then best_i
      else if negb (leb x best) then argmax_from i x (S i) t
      else argmax_from best_i best (S i) t
  end.

Definition argmax (l : list num) : nat :=
  match l with
  | [] => 0%nat
  | x :: t => argmax_from 0 x 1 t
  end.

(** [a.max()]: NaN as soon as the buffer holds one. *)
Definition amax (l : list num) : num := nth (argmax l) l NaN.

(** [nanmax]: the maximum of the values that are not NaN (NaN if none). *)
Definition nanmax (l : list num) : num :=
  amax (filter (fun x => negb (isnan x)) l).

Definition unravel_index (k : nat) (c : nat) : Z * Z :=
  (Z.of_nat (k / c), Z.of_nat (k mod c)).

Definition empty_argmax : error :=
  ValueError "attempt to get argmax of an empty sequence".

(** [find_first_peak] on one map. *)
Definition find_first_peak_val (corr : map2) : result ((Z * Z) * num) :=
  match buf corr with
  | [] => Raise empty_argmax
  | _ => Ok (unravel_index (argmax (buf corr)) (ncol corr), amax (buf corr))
  end.

Definition find_first_peak : M map2 ((Z * Z) * num) := lift find_first_peak_val.

(** A [MaskedArray] view of the caller's array owns a mask and shares the
    data: it is represented by its mask, the data being read from the state. *)
Definition mask2 := list bool.

Definition view_masked (corr : map2) : mask2 := repeat false (length (buf corr)).

(** [tmp[i0:i1, j0:j1] = ma.masked] sets mask bits only. *)
Definition set_masked (r c : nat) (i0 i1 j0 j1 : Z) (m : mask2) : mask2 :=
  let ilo := slice_bound i0 r in let ihi := slice_bound i1 r in
  let jlo := slice_bound j0 c in let jhi := slice_bound j1 c in
  map (fun '(k, b) =>
         if ((ilo <=? k / c) && (k / c <? ihi) && (jlo <=? k mod c) && (k mod c <? jhi))%nat
         then true else b)
      (combine (seq 0 (length m)) m).

(** [filled(-inf)]: what [argmax] and [max] of a masked array look at. *)
Definition filled (data : list num) (m : mask2) : list num :=
  map (fun '(x, b) => if b : bool then NInf else x) (combine data m).

(** The masked maximum: the masked constant when every cell is masked; it
    reads as NaN in float arithmetic. *)
Definition masked_max (data : list num) (m : mask2) : num :=
  if forallb (fun b => b) m then NaN else amax (filled data m).

(** [find_first_peak(tmp)] for the masked view [tmp]. *)
Definition find_first_peak_masked (m : mask2) (corr : map2) : result ((Z * Z) * num) :=
  match buf corr with
  | [] => Raise empty_argmax
  | _ => Ok (unravel_index (argmax (filled (buf corr) m)) (ncol corr),
             masked_max (buf corr) m)
  end.

(** [find_second_peak]. *)
Definition find_second_peak (i j : option Z) (width : Z) : M map2 ((Z * Z) * num) :=
  (ij <- match i, j with
         | Some i, Some j => ret (i, j)
         | _, _ => (p <- find_first_peak ;; ret (fst p))
         end ;;
   tmp <- reads view_masked ;;
   shape <- reads (fun corr : map2 => (nrow corr, ncol corr)) ;;
   let iini := Z.max 0 (fst ij - width) in
   let ifin := Z.min (fst ij + width + 1) (Z.of_nat (fst shape)) in
   let jini := Z.max 0 (snd ij - width) in
   let jfin := Z.min (snd ij + width + 1) (Z.of_nat (snd shape)) in
   let tmp := set_masked (fst shape) (snd shape) iini ifin jini jfin tmp in
   lift (find_first_peak_masked tmp))%M.

Definition empty_reshape : error :=
  ValueError "cannot reshape array of size 0 into shape (0,newaxis)".

(** One row [(n, i, j)] of the peak table. *)
Definition peak_row (c : nat) (n : nat) (flat : list num) : Z * Z * Z :=
  let ij := unravel_index (argmax flat) c in (Z.of_nat n, fst ij, snd ij).

(** [find_all_first_peaks] on a plain batch. *)
Definition find_all_first_peaks_val (corr : batch) : result (list (Z * Z * Z) * list num) :=
  match wins corr with
  | [] => Raise empty_reshape
  | _ =>
      if (rows3 corr * cols3 corr =? 0)%nat then Raise empty_argmax
      else Ok (map (fun '(n, w) => peak_row (cols3 corr) n w)
                   (combine (seq 0 (nwin corr)) (wins corr)),
               map nanmax (wins corr))
  end.

Definition find_all_first_peaks : M batch (list (Z * Z * Z) * list num) :=
  lift find_all_first_peaks_val.

(** [find_all_first_peaks(tmp)] for a masked view of the batch. *)
Definition masked_nanmax (data : list num) (m : mask2) : num :=
  nanmax (map fst (filter (fun xb => negb (snd xb)) (combine data m))).

Definition find_all_first_peaks_masked (masks : list mask2) (corr : batch)
    : result (list (Z * Z * Z) * list num) :=
  match wins corr with
  | [] => Raise empty_reshape
  | _ =>
      if (rows3 corr * cols3 corr =? 0)%nat then Raise empty_argmax
      else Ok (map (fun '(n, (w, m)) => peak_row (cols3 corr) n (filled w m))
                   (combine (seq 0 (nwin corr)) (combine (wins corr) masks)),
               map (fun '(w, m) => masked_nanmax w m) (combine (wins corr) masks))
  end.

(** [find_all_second_peaks]: the clamped square around each first peak is
    masked, window by window, then the first-peak search runs again. *)
Definition find_all_second_peaks (width : Z) : M batch (list (Z * Z * Z) * list num) :=
  (first <- find_all_first_peaks ;;
   shape <- reads (fun corr : batch => (rows3 corr, cols3 corr)) ;;
   let clamp_lo (v : Z) := if (v <? 0)%Z then 0%Z else v in
   let clamp_hi (v : Z) (n : nat) := if (Z.of_nat n <? v)%Z then Z.of_nat n else v in
   tmp <- reads (fun corr : batch => map (fun w => repeat false (length w)) (wins corr)) ;;
   let tmp :=
     map (fun '(p, m) =>
            let '(_, x, y) := p in
            set_masked (fst shape) (snd shape)
              (clamp_lo (x - width)%Z) (clamp_hi (x + width + 1)%Z (fst shape))
              (clamp_lo (y - width)%Z) (clamp_hi (y + width + 1)%Z (snd shape)) m)
         (combine (fst first) tmp) in
   lift (find_all_first_peaks_masked tmp))%M.

(* ================================================================== *)
(** ** Sub-pixel estimator (one map) *)

Definition eps : num := Fin (qc 1 10000000).

Definition two : num := of_Z 2.
Definition four : num := of_Z 4.

Definition supported_subpixel (m : string) : bool :=
  (String.eqb m "gaussian" || String.eqb m "centroid" || String.eqb m "parabolic")%string.

Definition method_not_implemented (m : string) : error :=
  ValueError ("Method not implemented " ++ m)%string.

(** The three fits along one axis, as both estimators write them. *)
Definition centroid_pos (p : Z) (cl c cr : num) : num :=
  ((of_Z (p - 1) * cl + of_Z p * c + of_Z (p + 1) * cr) / (cl + c + cr))%num.

Definition parabolic_shift (cl c cr : num) : num :=
  ((cl - cr) / (two * cl - four * c + two * cr))%num.

(** [corr += eps]: the in-place addition. *)
Definition iadd2 (e : num) (corr : map2) : map2 :=
  mk_arr2 (nrow corr) (ncol corr) (map (fun x => (x + e)%num) (buf corr)).

Definition iadd3 (e : num) (corr : batch) : batch :=
  mk_arr3 (rows3 corr) (cols3 corr) (map (map (fun x => (x + e)%num)) (wins corr)).

Definition on_border (r c : nat) (i j : Z) : bool :=
  ((i =? 0) || (i =? Z.of_nat r - 1) || (j =? 0) || (j =? Z.of_nat c - 1))%Z.

Section Subpixel.

Variable log : num -> num.

Definition gaussian_nom (cl cr : num) : num := (log cl - log cr)%num.
Definition gaussian_den (cl c cr : num) : num :=
  (two * log cl - four * log c + two * log cr)%num.

(** [np.divide(nom, den, out=np.zeros(1), where=(den != 0.0))[0]]. *)
Definition guarded_div (nom den : num) : num :=
  if neb den zero then (nom / den)%num else zero.

Definition find_subpixel_peak_position (subpixel_method : string) : M map2 (num * num) :=
  if negb (supported_subpixel subpixel_method)
  then raise (method_not_implemented subpixel_method)
  else
    (p <- find_first_peak ;;
     let peak1_i := fst (fst p) in
     let peak1_j := snd (fst p) in
     shape <- reads (fun corr : map2 => (nrow corr, ncol corr)) ;;
     if on_border (fst shape) (snd shape) peak1_i peak1_j
     then ret (NaN, NaN)
     else
       (modify (iadd2 eps) ;;;
        st <- reads (fun corr : map2 =>
                let rd := read2 NaN (nrow corr) (ncol corr) (buf corr) in
                (rd peak1_i peak1_j,
                 rd (peak1_i - 1)%Z peak1_j, rd (peak1_i + 1)%Z peak1_j,
                 rd peak1_i (peak1_j - 1)%Z, rd peak1_i (peak1_j + 1)%Z)) ;;
        let '(c, cl, cr, cd, cu) := st in
        let subpixel_method :=
          if existsb (fun v => ltb v zero) [c; cl; cr; cd; cu]
             && String.eqb subpixel_method "gaussian"
          then "parabolic"%string else subpixel_method in
        if String.eqb subpixel_method "centroid" then
          ret (centroid_pos peak1_i cl c cr, centroid_pos peak1_j cd c cu)
        else if String.eqb subpixel_method "gaussian" then
          ret ((of_Z peak1_i
                + guarded_div (gaussian_nom cl cr) (gaussian_den cl c cr))%num,
               (of_Z peak1_j
                + guarded_div (gaussian_nom cd cu) (gaussian_den cd c cu))%num)
        else
          ret ((of_Z peak1_i + parabolic_shift cl c cr)%num,
               (of_Z peak1_j + parabolic_shift cd c cu)%num)))%M.

End Subpixel.

(* ================================================================== *)
(** ** Signal-to-noise evaluator *)

Definition snr_floor : num := Fin (qc 1 1000).
Definition one_half : num := Fin (qc 1 2).

Definition nsum (l : list num) : num := fold_left add l zero.

(** [a.mean()]: NaN for an empty array. *)
Definition mean (l : list num) : num := (nsum l / of_Z (Z.of_nat (length l)))%num.

(** [np.nanmean]: the mean of the values that are not NaN. *)
Definition nanmean (l : list num) : num := mean (filter (fun x => negb (isnan x)) l).

Definition nan_to_zero (l : list num) : list num :=
  map (fun x => if isnan x then zero else x) l.

(** [sig2noise_ratio]: the loop over the maps. *)
Definition sig2noise_ratio (sig2noise_method : string) (width : Z) : M batch (list num) :=
  (n <- reads (fun correlation : batch => nwin correlation) ;;
   shape <- reads (fun correlation : batch => (rows3 correlation, cols3 correlation)) ;;
   let sig2noise := repeat zero n in
   let corr_max1 := repeat zero n in
   if String.eqb sig2noise_method "peak2peak" then
     (sig2noise <-
        foldM (fun sig2noise i =>
                 on_window i
                   (p1 <- find_first_peak ;;
                    let peak1_i := fst (fst p1) in
                    let peak1_j := snd (fst p1) in
                    let corr_max1_i := snd p1 in
                    let condition :=
                      ltb corr_max1_i snr_floor
                      || on_border (fst shape) (snd shape) peak1_i peak1_j in
                    if condition then ret (set_nth i zero sig2noise)
                    else
                      (p2 <- find_second_peak (Some peak1_i) (Some peak1_j) width ;;
                       let corr_max2 := snd p2 in
                       let border_condition :=
                         on_border (fst shape) (snd shape) (fst (fst p2)) (snd (fst p2)) in
                       let condition :=
                         eqb corr_max2 zero
                         || (border_condition
                             && gtb corr_max2 (one_half * corr_max1_i)%num) in
                       let corr_max2 := if condition then NaN else corr_max2 in
                       ret (set_nth i (corr_max1_i / corr_max2)%num sig2noise))))
              (seq 0 n) sig2noise ;;
      ret (nan_to_zero sig2noise))
   else if String.eqb sig2noise_method "peak2mean" then
     (corr_max1 <-
        foldM (fun corr_max1 i =>
                 on_window i
                   (p1 <- find_first_peak ;;
                    let condition :=
                      ltb (snd p1) snr_floor
                      || on_border (fst shape) (snd shape) (fst (fst p1)) (snd (fst p1)) in
                    ret (set_nth i (if condition then zero else snd p1) corr_max1)))
              (seq 0 n) corr_max1 ;;
      corr_max2 <- reads (fun correlation : batch =>
                            map (fun w => absn (mean w)) (wins correlation)) ;;
      let corr_max2 := map (fun m => if eqb m zero then NaN else m) corr_max2 in
      ret (nan_to_zero (map (fun '(a, b) => (a / b)%num) (combine corr_max1 corr_max2))))
   else raise (ValueError "wrong sig2noise_method"))%M.

(** [x is True] for an array [x]: an identity test against the singleton
    [True], false for every array. *)
Definition is_True {A : Type} (x : list A) : bool := false.

(** [a[b] = v] for a scalar boolean [b]: every element when [b] is [True],
    none when it is [False]. *)
Definition assign_scalar_mask {A : Type} (b : bool) (v : A) (a : list A) : list A :=
  if b then map (fun _ => v) a else a.

(** [np.divide(a, b, out=np.zeros_like(a), where=(b > 0.0))]. *)
Definition divide_where_pos (a b : list num) : list num :=
  map (fun '(x, y) => if gtb y zero then (x / y)%num else zero) (combine a b).

Definition border_flags (shape : nat * nat) (peaks : list (Z * Z * Z)) : list bool :=
  map (fun '(_, i, j) => on_border (fst shape) (snd shape) i j) peaks.

(** [vectorized_sig2noise_ratio]. *)
Definition vectorized_sig2noise_ratio (sig2noise_method : string) (width : Z)
    : M batch (list num) :=
  (shape <- reads (fun correlation : batch => (rows3 correlation, cols3 correlation)) ;;
   if String.eqb sig2noise_method "peak2peak" then
     (first <- find_all_first_peaks ;;
      second <- find_all_second_peaks width ;;
      let peaks1 := snd first in
      let peaks2 := snd second in
      let flag :=
        map (fun '(a, (b, (c, d))) => a || b || c || d)
            (combine (map (fun v => ltb v snr_floor) peaks1)
               (combine (border_flags shape (fst first))
                  (combine (map (fun v => ltb v snr_floor) peaks2)
                     (border_flags shape (fst second))))) in
      let peak2peak := divide_where_pos peaks1 peaks2 in
      ret (assign_scalar_mask (is_True flag) zero peak2peak))
   else if String.eqb sig2noise_method "peak2mean" then
     (first <- find_all_first_peaks ;;
      let peaks1max := snd first in
      peaks2mean <- reads (fun correlation : batch =>
                             map (fun w => absn (nanmean w)) (wins correlation)) ;;
      let flag :=
        map (fun '(a, b) => a || b)
            (combine (map (fun v => ltb v snr_floor) peaks1max)
               (border_flags shape (fst first))) in
      let peak2mean := divide_where_pos peaks1max peaks2mean in
      ret (assign_scalar_mask (is_True flag) zero peak2mean))
   else raise (ValueError ("sig2noise_method not supported: " ++ sig2noise_method)%string))%M.

(* ================================================================== *)
(** ** Batched FFT correlator *)

Definition cplx : Type := (num * num)%type.

Definition cadd (a b : cplx) : cplx := ((fst a + fst b)%num, (snd a + snd b)%num).
Definition cmul (a b : cplx) : cplx :=
  ((fst a * fst b - snd a * snd b)%num, (fst a * snd b + snd a * fst b)%num).
Definition conj (a : cplx) : cplx := (fst a, neg (snd a)).
Definition cscale (s : num) (a : cplx) : cplx := ((s * fst a)%num, (s * snd a)%num).
Definition csum (l : list cplx) : cplx := fold_left cadd l (zero, zero).

(** Row [i] of a row-major buffer with [c] columns, and the list of rows. *)
Definition rows_of {A : Type} (r c : nat) (flat : list A) : list (list A) :=
  map (fun i => firstn c (skipn (i * c) flat)) (seq 0 r).

(** The [c] columns of a list of rows. *)
Definition transpose {A : Type} (d : A) (c : nat) (m : list (list A)) : list (list A) :=
  map (fun j => map (fun row => nth j row d) m) (seq 0 c).

(** [np.roll(l, len(l) // 2)], the shift of [fftshift] along one axis. *)
Definition half_roll {A : Type} (l : list A) : list A :=
  let n := length l in
  skipn (n - n / 2) l ++ firstn (n - n / 2) l.

Definition fftshift2 {A : Type} (m : list (list A)) : list (list A) :=
  half_roll (map (fun row => half_roll row) m).

Section Spectral.

(** [cis n k] stands for the twiddle factor [exp(-2 pi i k / n)]. *)
Variable cis : Z -> Z -> cplx.

Definition dft_term (sgn : Z) (x : list cplx) (k : nat) : cplx :=
  csum (map (fun '(j, xj) =>
               cmul xj (cis (Z.of_nat (length x)) (sgn * Z.of_nat k * Z.of_nat j)))
            (combine (seq 0 (length x)) x)).

(** The complex transform and its inverse along one axis. *)
Definition fft1 (x : list cplx) : list cplx :=
  map (dft_term 1 x) (seq 0 (length x)).

Definition ifft1 (x : list cplx) : list cplx :=
  map (fun k => cscale (of_Z 1 / of_Z (Z.of_nat (length x)))%num (dft_term (-1) x k))
      (seq 0 (length x)).

(** [rfft] of [n] real samples keeps the [n // 2 + 1] non-redundant bins. *)
Definition rfft1 (x : list num) : list cplx :=
  map (dft_term 1 (map (fun v => (v, zero)) x)) (seq 0 (length x / 2 + 1)).

(** [irfft] of [m] bins without an explicit length returns [2 (m - 1)] real
    samples; the imaginary parts of the first and last bin are ignored. *)
Definition irfft1 (X : list cplx) : list num :=
  let m := length X in
  let n := (2 * (m - 1))%nat in
  map (fun j =>
         let inner :=
           map (fun k =>
                  (two * fst (cmul (nth k X (zero, zero))
                                   (cis (Z.of_nat n) (- (Z.of_nat k * Z.of_nat j)))))%num)
               (seq 1 (m - 2)) in
         let last :=
           (fst (nth (m - 1) X (zero, zero))
            * fst (cis (Z.of_nat n) (- (Z.of_nat (m - 1) * Z.of_nat j))))%num in
         ((of_Z 1 / of_Z (Z.of_nat n))
          * (fold_left add inner (fst (nth 0 X (zero, zero))) + last))%num)
      (seq 0 n).

(** [rfft2] and [irfft2] over the last two axes of one window. *)
Definition rfft2_w (r c : nat) (w : list num) : list (list cplx) :=
  transpose (zero, zero) r
    (map fft1 (transpose (zero, zero) (c / 2 + 1) (map rfft1 (rows_of r c w)))).

Definition irfft2_w (r m : nat) (W : list (list cplx)) : list (list num) :=
  map irfft1 (transpose (zero, zero) r (map ifft1 (transpose (zero, zero) m W))).

(** The correlation of one pair of windows, as the circular branch writes
    it: [fftshift(irfft2(conj(rfft2(a)) * rfft2(b)).real, axes=(-2, -1))]. *)
Definition correlate_pair (r c : nat) (a b : list num) : list num :=
  let fa := map (map conj) (rfft2_w r c a) in
  let fb := rfft2_w r c b in
  let prod := map (fun '(ra, rb) => map (fun '(x, y) => cmul x y) (combine ra rb))
                  (combine fa fb) in
  concat (fftshift2 (irfft2_w r (c / 2 + 1) prod)).

Definition invalid_fft_points : error :=
  ValueError "Invalid number of FFT data points specified.".

Definition broadcast_error : error :=
  ValueError "operands could not be broadcast together".

(** [fft_correlate_images].  The transforms act on the last two axes, one
    window at a time; the two batches must have one shape (broadcasting of
    unit axes is not modelled). *)
Definition fft_correlate_images (image_a image_b : batch)
    (correlation_method : string) (normalized_correlation : bool) : result batch :=
  if normalized_correlation then Raise (NotImplementedError "normalized_correlation")
  else if String.eqb correlation_method "linear"
  then Raise (NotImplementedError "correlation_method == linear")
  else if String.eqb correlation_method "circular" then
    let r := rows3 image_a in
    let c := cols3 image_a in
    if ((r =? 0) || (c =? 0) || (rows3 image_b =? 0) || (cols3 image_b =? 0))%nat
    then Raise invalid_fft_points
    else if negb ((r =? rows3 image_b) && (c =? cols3 image_b)
                  && (nwin image_a =? nwin image_b))%nat
    then Raise broadcast_error
    else if (2 * (c / 2) =? 0)%nat then Raise invalid_fft_points
    else Ok (mk_arr3 r (2 * (c / 2))
               (map (fun '(a, b) => correlate_pair r c a b)
                    (combine (wins image_a) (wins image_b))))
  else
    (* only a message is printed, then [return corr] finds no binding *)
    Raise (UnboundLocalError "corr").

End Spectral.

(* ================================================================== *)
(** ** Intensity normalizer

    [normalize_intensity] casts its input to [np.float32] and computes in
    that type, so its values are binary32 numbers ([spec_float] with
    precision 24 and [emax = 128]); every operation rounds to nearest, ties
    to even.  The input is an array of integers (pixel intensities). *)

Definition f32 : Type := spec_float.

Definition f32_of_Z (z : Z) : f32 := binary_normalize 24 128 z 0 false.
Definition f32_add : f32 -> f32 -> f32 := SFadd 24 128.
Definition f32_sub : f32 -> f32 -> f32 := SFsub 24 128.
Definition f32_mul : f32 -> f32 -> f32 := SFmul 24 128.
Definition f32_div : f32 -> f32 -> f32 := SFdiv 24 128.
Definition f32_sqrt : f32 -> f32 := SFsqrt 24 128.

Definition f32_isnan (x : f32) : bool :=
  match x with S754_nan => true | _ => false end.

(** NumPy's pairwise summation of a contiguous run ([pairwise_sum] of the
    [add] loops): fewer than 8 elements are added in order, starting from
    [-0.0]; up to 128 elements go through 8 accumulators, accumulator [k]
    taking the elements [k], [8 + k], [16 + k], ..., which are then added
    as a tree and followed by the remaining [n mod 8] elements in order;
    a longer run is split in two at a multiple of 8. *)
Fixpoint add_lanes (chunks : nat) (r a : list f32) : list f32 :=
  match chunks with
  | O => r
  | S k =>
      add_lanes k (map (fun '(x, y) => f32_add x y) (combine r (firstn 8 a))) (skipn 8 a)
  end.

Definition sum_block (a : list f32) : f32 :=
  let n := length a in
  let m := (n - n mod 8)%nat in
  let r := add_lanes (m / 8 - 1) (firstn 8 a) (skipn 8 a) in
  let l k := nth k r S754_nan in
  let res := f32_add (f32_add (f32_add (l 0%nat) (l 1%nat)) (f32_add (l 2%nat) (l 3%nat)))
                     (f32_add (f32_add (l 4%nat) (l 5%nat)) (f32_add (l 6%nat) (l 7%nat))) in
  fold_left f32_add (skipn m a) res.

Fixpoint pairwise_sum (fuel : nat) (a : list f32) : f32 :=
  let n := length a in
  if (n <? 8)%nat then fold_left f32_add a (S754_zero true)
  else if (n <=? 128)%nat then sum_block a
  else
    match fuel with
    | O => S754_nan
    | S fuel =>
        let n2 := (n / 2 - (n / 2) mod 8)%nat in
        f32_add (pairwise_sum fuel (firstn n2 a)) (pairwise_sum fuel (skipn n2 a))
    end.

(** [a.sum(dtype=np.float32)] over one window: the reduction starts from
    the identity [0.0]. *)
Definition sum32 (a : list f32) : f32 :=
  f32_add (S754_zero false) (pairwise_sum (length a) a).

(** [a.mean(dtype=np.float32)]: the sum divided by the number of items. *)
Definition mean32 (a : list f32) : f32 :=
  f32_div (sum32 a) (f32_of_Z (Z.of_nat (length a))).

(** [a.std()]: [sqrt(mean((a - a.mean())**2))], in the type of [a]. *)
Definition std32 (a : list f32) : f32 :=
  let arrmean := mean32 a in
  let x := map (fun v => f32_sub v arrmean) a in
  let x := map (fun v => f32_mul v v) x in
  f32_sqrt (f32_div (sum32 x) (f32_of_Z (Z.of_nat (length a)))).

(** [window -= window.mean(axis=(-2, -1), keepdims=True, dtype=np.float32)]
    on one window. *)
Definition center (w : list f32) : list f32 :=
  let m := mean32 w in map (fun x => f32_sub x m) w.

(** [np.divide(window, tmp, out=np.zeros_like(window), where=(tmp != 0))]
    on one window. *)
Definition scale (w : list f32) : list f32 :=
  let tmp := std32 w in
  map (fun x => if negb (SFeqb tmp (S754_zero false)) then f32_div x tmp
                else S754_zero false) w.

(** [np.maximum]: a NaN on either side is returned. *)
Definition f32_max (a b : f32) : f32 :=
  if SFleb b a || f32_isnan a then a else b.

(** [np.clip(x, lo, hi)]: [minimum(maximum(x, lo), hi)], a NaN [x] is kept. *)
Definition clip (lo hi x : f32) : f32 :=
  let t := if f32_isnan x then x else if SFltb lo x then x else lo in
  if f32_isnan t then t else if SFltb t hi then t else hi.

Definition empty_max : error :=
  ValueError "zero-size array to reduction operation maximum which has no identity".

Definition normalize_intensity (window : arr3 Z) : result (arr3 f32) :=
  let window0 := map (map f32_of_Z) (wins window) in
  let window1 := map center window0 in
  let window2 := map scale window1 in
  match concat window2 with
  | [] => Raise empty_max
  | x :: t =>
      let window_max := fold_left f32_max t x in
      Ok (mk_arr3 (rows3 window) (cols3 window)
            (map (map (clip (S754_zero false) window_max)) window2))
  end.

(* ================================================================== *)
(** ** Displacement assembler *)

(** What [vectorized_correlation_to_displacements] returns: the early return
    is one [(N, 2)] array of NaN, the others are [(disp_vx, disp_vy,
    len(invalid))], flat or reshaped. *)
Inductive displacements : Type :=
| AllNaN (a : list (num * num))
| Flat (disp_vx disp_vy : list num) (n_invalid : nat)
| Grid (disp_vx disp_vy : arr2 num) (n_invalid : nat).

(** [list(where(p(a))[0])]: the indices that satisfy [p], in order. *)
Definition where_ {A : Type} (p : A -> bool) (a : list A) : list nat :=
  map fst (filter (fun ix => p (snd ix)) (combine (seq 0 (length a)) a)).

(** [a[idx] = v] and [a[idx] = src[idx]] for a list of indices. *)
Definition set_all {A : Type} (idx : list nat) (v : A) (a : list A) : list A :=
  fold_left (fun acc i => set_nth i v acc) idx a.

Definition copy_at {A : Type} (d : A) (idx : list nat) (src a : list A) : list A :=
  fold_left (fun acc i => set_nth i (nth i src d) acc) idx a.

Definition reshape_error : error := ValueError "cannot reshape array".

(** [a.reshape((n_rows, n_cols))], one dimension possibly [-1]. *)
Definition reshape2 {A : Type} (n_rows n_cols : Z) (a : list A) : result (arr2 A) :=
  let n := Z.of_nat (length a) in
  if ((0 <=? n_rows) && (0 <=? n_cols))%Z then
    if (n_rows * n_cols =? n)%Z
    then Ok (mk_arr2 (Z.to_nat n_rows) (Z.to_nat n_cols) a)
    else Raise reshape_error
  else if ((n_rows =? -1) && (0 <? n_cols) && (n mod n_cols =? 0))%Z
  then Ok (mk_arr2 (Z.to_nat (n / n_cols)) (Z.to_nat n_cols) a)
  else if ((n_cols =? -1) && (0 <? n_rows) && (n mod n_rows =? 0))%Z
  then Ok (mk_arr2 (Z.to_nat n_rows) (Z.to_nat (n / n_rows)) a)
  else Raise reshape_error.

(** The five samples around [(i, j)] in one map: centre, the rows above and
    below, the columns left and right. *)
Definition stencil (r c : nat) (w : list num) (i j : Z)
    : num * num * num * num * num :=
  let rd := read2 NaN r c w in
  (rd i j, rd (i - 1)%Z j, rd (i + 1)%Z j, rd i (j - 1)%Z, rd i (j + 1)%Z).

Definition map3 {A B C D : Type} (f : A -> B -> C -> D)
    (a : list A) (b : list B) (c : list C) : list D :=
  map (fun '(x, (y, z)) => f x y z) (combine a (combine b c)).

(** The windows whose integer peak is within [mask_width] of a border: the
    four [where] lists, concatenated (a corner peak is listed twice). *)
Definition invalid_peaks (R C mask_width : Z) (peaks1_i peaks1_j : list Z) : list nat :=
  where_ (fun i => i <? mask_width)%Z peaks1_i
  ++ where_ (fun i => R - mask_width - 1 <? i)%Z peaks1_i
  ++ where_ (fun j => j <? mask_width - 0)%Z peaks1_j
  ++ where_ (fun j => C - mask_width - 1 <? j)%Z peaks1_j.

Definition st_c (s : num * num * num * num * num) : num := let '(c, _, _, _, _) := s in c.
Definition st_cl (s : num * num * num * num * num) : num := let '(_, cl, _, _, _) := s in cl.
Definition st_cr (s : num * num * num * num * num) : num := let '(_, _, cr, _, _) := s in cr.
Definition st_cd (s : num * num * num * num * num) : num := let '(_, _, _, cd, _) := s in cd.
Definition st_cu (s : num * num * num * num * num) : num := let '(_, _, _, _, cu) := s in cu.

(** The displacement along one axis from the peak index and [shift]: the
    centroid branch returns a position, the other two an offset. *)
Definition displacement (subpixel_method : string) (size : Z)
    (peaks : list Z) (shift : list num) : list num :=
  if negb (String.eqb subpixel_method "centroid") then
    map (fun '(p, s) => (of_Z p + s - of_Z (size / 2))%num) (combine peaks shift)
  else map (fun s => (s - of_Z (size / 2))%num) shift.

Section Assembler.

Variable log : num -> num.

(** The indices that fall back from the gaussian to the parabolic fit. *)
Definition gaussian_fallback (st : list (num * num * num * num * num)) : list nat :=
  where_ (fun v => leb v zero) (map st_c st) ++ where_ (fun v => leb v zero) (map st_cl st)
  ++ where_ (fun v => leb v zero) (map st_cr st) ++ where_ (fun v => leb v zero) (map st_cu st)
  ++ where_ (fun v => leb v zero) (map st_cd st).

(** [(shift_i, shift_j)] for the three methods; the array expressions are
    element-wise over the five sample arrays. *)
Definition parabolic_i (s : num * num * num * num * num) : num :=
  parabolic_shift (st_cl s) (st_c s) (st_cr s).
Definition parabolic_j (s : num * num * num * num * num) : num :=
  parabolic_shift (st_cd s) (st_c s) (st_cu s).
Definition gaussian_i (s : num * num * num * num * num) : num :=
  (gaussian_nom log (st_cl s) (st_cr s) / gaussian_den log (st_cl s) (st_c s) (st_cr s))%num.
Definition gaussian_j (s : num * num * num * num * num) : num :=
  (gaussian_nom log (st_cd s) (st_cu s) / gaussian_den log (st_cd s) (st_c s) (st_cu s))%num.

Definition subpixel_shifts (subpixel_method : string) (peaks1_i peaks1_j : list Z)
    (st : list (num * num * num * num * num)) : list num * list num :=
  if String.eqb subpixel_method "centroid" then
    (map (fun '(p, s) => centroid_pos p (st_cl s) (st_c s) (st_cr s)) (combine peaks1_i st),
     map (fun '(p, s) => centroid_pos p (st_cd s) (st_c s) (st_cu s)) (combine peaks1_j st))
  else if String.eqb subpixel_method "gaussian" then
    let inv := gaussian_fallback st in
    let shift_i := map gaussian_i st in
    let shift_j := map gaussian_j st in
    if (1 <=? length inv)%nat then
      (copy_at NaN inv (map parabolic_i st) shift_i,
       copy_at NaN inv (map parabolic_j st) shift_j)
    else (shift_i, shift_j)
  else
    (map parabolic_i st, map parabolic_j st).

(** Everything after the peak search only reads the array. *)
Definition displacements_from_peaks (n_rows n_cols : option Z) (subpixel_method : string)
    (first : list (Z * Z * Z) * list num) (corr : batch) : result displacements :=
  let R := Z.of_nat (rows3 corr) in
  let C := Z.of_nat (cols3 corr) in
  let peaks1_i := map (fun p : Z * Z * Z => snd (fst p)) (fst first) in
  let peaks1_j := map (fun p : Z * Z * Z => snd p) (fst first) in
  let mask_width := 1%Z in
  let invalid := invalid_peaks R C mask_width peaks1_i peaks1_j in
  let peaks1_i := set_all invalid (R / 2)%Z peaks1_i in
  let peaks1_j := set_all invalid (C / 2)%Z peaks1_j in
  if (length invalid =? nwin corr)%nat then Ok (AllNaN (repeat (NaN, NaN) (nwin corr)))
  else
    let st := map3 (stencil (rows3 corr) (cols3 corr)) (wins corr) peaks1_i peaks1_j in
    let shifts := subpixel_shifts subpixel_method peaks1_i peaks1_j st in
    let disp_vy := displacement subpixel_method R peaks1_i (fst shifts) in
    let disp_vx := displacement subpixel_method C peaks1_j (snd shifts) in
    let disp_vx := set_all invalid NaN disp_vx in
    let disp_vy := set_all invalid NaN disp_vy in
    match n_rows, n_cols with
    | Some n_rows, Some n_cols =>
        (gx <- reshape2 n_rows n_cols disp_vx ;;
         gy <- reshape2 n_rows n_cols disp_vy ;;
         Ok (Grid gx gy (length invalid)))%result
    | _, _ => Ok (Flat disp_vx disp_vy (length invalid))
    end.

Definition vectorized_correlation_to_displacements
    (n_rows n_cols : option Z) (subpixel_method : string) (eps : num)
    : M batch displacements :=
  if negb (supported_subpixel subpixel_method)
  then raise (method_not_implemented subpixel_method)
  else
    (modify (iadd3 eps) ;;;
     first <- find_all_first_peaks ;;
     lift (displacements_from_peaks n_rows n_cols subpixel_method first))%M.

End Assembler.

(** [(disp_vx[k], disp_vy[k])] of a result. *)
Definition disp_at (d : displacements) (k : nat) : num * num :=
  match d with
  | AllNaN a => nth k a (zero, zero)
  | Flat vx vy _ => (nth k vx zero, nth k vy zero)
  | Grid gx gy _ => (nth k (buf gx) zero, nth k (buf gy) zero)
  end.

Definition n_invalid_of (d : displacements) : option nat :=
  match d with
  | AllNaN _ => None
  | Flat _ _ k | Grid _ _ k => Some k
  end.

(* ================================================================== *)
(** ** The pipeline: [extended_search_area_piv] *)

(** What the pipeline has done so far: windows extracted from a frame, a
    batch correlated, a correlation batch converted to displacements, and
    the summary line with the number of bad peaks printed. *)
Inductive event : Type :=
| Extracted (n_windows : nat)
| Correlated (n_windows : nat)
| Converted (n_windows : nat)
| BadPeaks (total_bad : nat).

Definition emit (e : event) : M (list event) unit := modify (fun l => l ++ [e]).
Definition of_result {A : Type} (r : result A) : M (list event) A := fun l => (r, l).

Record piv_args : Type := mk_piv_args {
  frame_a : image;
  frame_b : image;
  window_size : int_or_pair;
  overlap : int_or_pair;
  dt : num;
  search_area_size : option int_or_pair;
  correlation_method : string;
  subpixel_method : string;
  sig2noise_method : option string;
  width : Z;
  normalized_correlation : bool;
  max_array_size : option Z
}.

(** [a[b0:b1] = src]: the lengths have to agree. *)
Definition assign_slice {A : Type} (b0 b1 : Z) (src a : list A) : result (list A) :=
  let lo := slice_bound b0 (length a) in
  let hi := slice_bound b1 (length a) in
  if (length src =? hi - lo)%nat
  then Ok (firstn lo a ++ src ++ skipn (lo + (hi - lo)) a)
  else Raise (ValueError "could not broadcast input array").

(** Python tuple comparison [a > b]. *)
Definition pair_gtb (a b : Z * Z) : bool :=
  ((fst b <? fst a) || ((fst a =? fst b) && (snd b <? snd a)))%Z.

(** [int(np.ceil(a / b))] for an [int64] [a] and a Python [int] [b]. *)
Definition ceil_div (a b : Z) : result Z :=
  if (b =? 0)%Z
  then (if (a =? 0)%Z then Raise (ValueError "cannot convert float NaN to integer")
        else Raise OverflowError)
  else Ok (- ((- a) / b))%Z.

Section Pipeline.

Variable log : num -> num.
Variable cis : Z -> Z -> cplx.

(** Unpacking [u, v, invalid = ...] and what the callers do with it: the
    block loop assigns the flat arrays to slices, the whole-batch branch
    formats the count.  The early return of the assembler is one [(N, 2)]
    array: it unpacks into three names only when [N = 3], and then the next
    statement fails.  (The block loop never receives a [Grid] and the
    whole-batch branch never a [Flat].) *)
Definition unpack_flat (d : displacements) : result (list num * list num * nat) :=
  match d with
  | Flat vx vy k => Ok (vx, vy, k)
  | Grid gx gy k => Ok (buf gx, buf gy, k)
  | AllNaN a =>
      if (length a =? 3)%nat
      then Raise (ValueError "could not broadcast input array")
      else Raise (ValueError "wrong number of values to unpack")
  end.

Definition unpack_grid (d : displacements) : result (arr2 num * arr2 num * nat) :=
  match d with
  | Grid gx gy k => Ok (gx, gy, k)
  | Flat vx vy k => Ok (mk_arr2 1 (length vx) vx, mk_arr2 1 (length vy) vy, k)
  | AllNaN a =>
      if (length a =? 3)%nat
      then Raise (TypeError "unsupported format string passed to numpy.ndarray.__format__")
      else Raise (ValueError "wrong number of values to unpack")
  end.

(** One pass of the pipeline over the windows of [block_range]. *)
Definition correlate_block (args : piv_args) (search_area_size overlap : Z * Z)
    (block_range : option (Z * Z)) (n_rows n_cols : option Z)
    : M (list event) displacements :=
  (aa <- of_result (sliding_window_array (frame_a args) search_area_size overlap block_range) ;;
   emit (Extracted (nwin aa)) ;;;
   bb <- of_result (sliding_window_array (frame_b args) search_area_size overlap block_range) ;;
   emit (Extracted (nwin bb)) ;;;
   corr <- of_result (fft_correlate_images cis aa bb (correlation_method args)
                        (normalized_correlation args)) ;;
   emit (Correlated (nwin corr)) ;;;
   d <- of_result (fst (vectorized_correlation_to_displacements log n_rows n_cols
                          (subpixel_method args) eps corr)) ;;
   emit (Converted (nwin corr)) ;;;
   ret d)%M.

(** The body of the loop [for block_idx in range(num_blocks)]: the state of
    the loop is [(u, v, total_bad)]. *)
Definition block_body (args : piv_args) (search_area_size overlap : Z * Z)
    (areas_per_block : Z) (acc : list num * list num * nat) (block_idx : nat)
    : M (list event) (list num * list num * nat) :=
  let '(u, v, total_bad) := acc in
  let block_start := (Z.of_nat block_idx * areas_per_block)%Z in
  let block_end := ((Z.of_nat block_idx + 1) * areas_per_block)%Z in
  (d <- correlate_block args search_area_size overlap
          (Some (block_start, block_end)) None None ;;
   r <- of_result (unpack_flat d) ;;
   let '(bu, bv, invalid) := r in
   u <- of_result (assign_slice block_start block_end bu u) ;;
   v <- of_result (assign_slice block_start block_end bv v) ;;
   ret (u, v, (total_bad + invalid)%nat))%M.

Definition map_arr2 {A B : Type} (f : A -> B) (a : arr2 A) : arr2 B :=
  mk_arr2 (nrow a) (ncol a) (map f (buf a)).

Definition extended_search_area_piv (args : piv_args)
    : M (list event) (arr2 num * arr2 num * arr2 num) :=
  let window_size := as_pair (window_size args) in
  let overlap := as_pair (overlap args) in
  let search_area_size :=
    match search_area_size args with
    | None => window_size
    | Some s => as_pair s
    end in
  let shape := (Z.of_nat (nrow (frame_a args)), Z.of_nat (ncol (frame_a args))) in
  if ((fst window_size <=? fst overlap) || (snd window_size <=? snd overlap))%Z
  then raise (ValueError "Overlap has to be smaller than the window_size")
  else if ((fst search_area_size <? fst window_size)
           || (snd search_area_size <? snd window_size))%Z
  then raise (ValueError "Search size cannot be smaller than the window_size")
  else if ((fst shape <? snd window_size) || (snd shape <? fst window_size))%Z
  then raise (ValueError "window size cannot be larger than the image")
  else
    let field_shape := get_field_shape shape search_area_size overlap in
    let n_rows := fst field_shape in
    let n_cols := snd field_shape in
    let num_areas := wrap64 (n_rows * n_cols) in
    if pair_gtb search_area_size window_size
    then raise (NotImplementedError "search_area_size > window_size:")
    else
      (blocked <-
         match max_array_size args with
         | None => ret false
         | Some m =>
             if (fst window_size * snd window_size =? 0)%Z then raise ZeroDivisionError
             else ret (Qc_ltb (qc m 1 / qc (fst window_size * snd window_size) 1)%Qc
                              (qc num_areas 1))
         end ;;
       uv <-
         (if blocked : bool then
            let m := match max_array_size args with Some m => m | None => 0%Z end in
            if (num_areas <? 0)%Z
            then raise (ValueError "negative dimensions are not allowed")
            else
              let zeros := repeat zero (Z.to_nat num_areas) in
              let area_size := (fst search_area_size * snd search_area_size)%Z in
              if (area_size =? 0)%Z then raise ZeroDivisionError
              else
                let areas_per_block := (m / area_size)%Z in
                (num_blocks <- of_result (ceil_div num_areas areas_per_block) ;;
                 acc <-
                   foldM (block_body args search_area_size overlap areas_per_block)
                         (seq 0 (Z.to_nat num_blocks)) (zeros, zeros, 0%nat) ;;
                 let '(u, v, total_bad) := acc in
                 emit (BadPeaks total_bad) ;;;
                 u <- of_result (reshape2 n_rows n_cols u) ;;
                 v <- of_result (reshape2 n_rows n_cols v) ;;
                 ret (u, v, total_bad))
          else
            (d <- correlate_block args search_area_size overlap None
                    (Some n_rows) (Some n_cols) ;;
             r <- of_result (unpack_grid d) ;;
             emit (BadPeaks (snd r)) ;;;
             ret r)) ;;
       let '(u, v, total_bad) := uv in
       match sig2noise_method args with
       | Some _ => raise (NotImplementedError "sig2noise_method is not None")
       | None =>
           let sig2noise := map_arr2 (fun x => (x * NaN)%num) (map_arr2 (fun _ => zero) u) in
           sig2noise <- of_result (reshape2 n_rows n_cols (buf sig2noise)) ;;
           ret (map_arr2 (fun x => (x / dt args)%num) u,
                map_arr2 (fun x => (x / dt args)%num) v,
                sig2noise)
       end)%M.

End Pipeline.

(* ================================================================== *)
(** ** Instances of the library functions for concrete runs *)

(** The twiddle factors of the orders 1, 2 and 4 are Gaussian rationals;
    [cis_small] is exact on them (and [1] elsewhere), so that windows of 2
    or 4 pixels across are transformed exactly. *)
Definition cis_small (n k : Z) : cplx :=
  let one := of_Z 1 in
  let mone := of_Z (-1) in
  if (n =? 2)%Z then (if (k mod 2 =? 0)%Z then (one, zero) else (mone, zero))
  else if (n =? 4)%Z then
    match (k mod 4)%Z with
    | 0%Z => (one, zero)
    | 1%Z => (zero, mone)
    | 2%Z => (mone, zero)
    | _ => (zero, one)
    end
  else (one, zero).

(** A rational stand-in for [numpy.log]: exact at [0], [1] and the special
    values, increasing in between (the first term of the [atanh] series). *)
Definition log_rational (x : num) : num :=
  match x with
  | Fin q =>
      if Qc_ltb q (qc 0 1) then NaN
      else if Qc_eqb q (qc 0 1) then NInf
      else Fin (qc 2 1 * (q - qc 1 1) / (q + qc 1 1))%Qc
  | PInf => PInf
  | NInf | NaN => NaN
  end.

(* ================================================================== *)
(** ** Auxiliary predicates and example inputs *)

(** The first peak of a map exists and is not on a border row or column. *)
Definition has_interior_peak (corr : map2) : bool :=
  match find_first_peak_val corr with
  | Ok ((i, j), _) => negb (on_border (nrow corr) (ncol corr) i j)
  | Raise _ => false
  end.

(** The displacement of one window as the specification words it: the peak
    index plus the sub-pixel shift minus [floor(size / 2)] on each axis,
    column component first as the code returns it.  The centroid fit yields
    the refined position itself; the gaussian fit is replaced by the
    parabolic one when one of the five samples is not positive. *)
Definition axis_estimate (log : num -> num) (subpixel_method : string)
    (p : Z) (cl c cr : num) (fallback : bool) : num :=
  if String.eqb subpixel_method "centroid" then centroid_pos p cl c cr
  else if String.eqb subpixel_method "gaussian" then
    if fallback then (of_Z p + parabolic_shift cl c cr)%num
    else (of_Z p + gaussian_nom log cl cr / gaussian_den log cl c cr)%num
  else (of_Z p + parabolic_shift cl c cr)%num.

Definition window_displacement_spec (log : num -> num) (subpixel_method : string)
    (r c : nat) (w : list num) (i j : Z) : num * num :=
  let s := stencil r c w i j in
  let fallback :=
    existsb (fun v => leb v zero) [st_c s; st_cl s; st_cr s; st_cu s; st_cd s] in
  ((axis_estimate log subpixel_method j (st_cd s) (st_c s) (st_cu s) fallback
    - of_Z (Z.of_nat c / 2))%num,
   (axis_estimate log subpixel_method i (st_cl s) (st_c s) (st_cr s) fallback
    - of_Z (Z.of_nat r / 2))%num).

(** How many of the four border tests of the assembler a peak fails (a
    corner peak fails two), and the displacement of one window of an
    eps-shifted batch: NaN when a test fails, the formula otherwise. *)
Definition border_hits (r c : nat) (i j : Z) : nat :=
  ((if (i <? 1)%Z then 1 else 0) + (if (Z.of_nat r - 1 - 1 <? i)%Z then 1 else 0)
   + (if (j <? 1 - 0)%Z then 1 else 0) + (if (Z.of_nat c - 1 - 1 <? j)%Z then 1 else 0))%nat.

Definition window_hits (r c : nat) (w : list num) : nat :=
  let ij := unravel_index (argmax w) c in border_hits r c (fst ij) (snd ij).

Definition window_displacement (log : num -> num) (subpixel_method : string)
    (r c : nat) (w : list num) : num * num :=
  let ij := unravel_index (argmax w) c in
  if (border_hits r c (fst ij) (snd ij) =? 0)%nat
  then window_displacement_spec log subpixel_method r c w (fst ij) (snd ij)
  else (NaN, NaN).

(** The requested grid shape holds the [n] displacements. *)
Definition reshape_fits (n_rows n_cols : option Z) (n : nat) : Prop :=
  match n_rows, n_cols with
  | Some r, Some c => (0 <= r)%Z /\ (0 <= c)%Z /\ (r * c)%Z = Z.of_nat n
  | _, _ => True
  end.

Definition ints (l : list Z) : list num := map of_Z l.

(** A 3x3 map whose maximum is in the top-left corner, and one whose maximum
    is in the centre. *)
Definition corner_map : list num := ints [5; 1; 1;  1; 1; 1;  1; 1; 1]%Z.
Definition centre_map : list num := ints [1; 2; 1;  2; 5; 2;  1; 2; 1]%Z.

Definition corner_centre_batch : batch := mk_arr3 3 3 [corner_map; centre_map].
Definition centre_batch : batch := mk_arr3 3 3 [centre_map].
Definition mixed_batch : batch := mk_arr3 3 3 [centre_map; corner_map; centre_map].

(** A 3x3 map with its maximum in the centre and the sample above it equal
    to [-1e-7], which [corr += eps] turns into exactly zero. *)
Definition zero_sample_map : map2 :=
  mk_arr2 3 3
    [Fin (qc 1 2); Fin (qc (-1) 10000000); Fin (qc 1 2);
     Fin (qc 1 2); of_Z 1; Fin (qc 1 2);
     Fin (qc 1 2); Fin (qc 1 2); Fin (qc 1 2)].

(** Two 5x5 maps, zero but for two cells each: the first has its maximum [1]
    on the border cell [(0, 0)] and [1/2] at [(3, 3)]; the second has the
    maximum [5e-4] at [(1, 1)] and [2.5e-4] at [(4, 4)]. *)
Definition border_peak_map : list num :=
  map (fun k => if (k =? 0)%nat then of_Z 1
                else if (k =? 18)%nat then Fin (qc 1 2) else zero) (seq 0 25).
Definition faint_peak_map : list num :=
  map (fun k => if (k =? 6)%nat then Fin (qc 1 2000)
                else if (k =? 24)%nat then Fin (qc 1 4000) else zero) (seq 0 25).
Definition snr_batch : batch := mk_arr3 5 5 [border_peak_map; faint_peak_map].

(** A 4x4 window with one bright blob, and the frame that consists of it. *)
Definition window4 : list num :=
  ints [0; 0; 0; 0;  0; 1; 2; 0;  0; 3; 9; 1;  0; 0; 2; 0]%Z.
Definition window4_batch : batch := mk_arr3 4 4 [window4].
Definition frame4 : image := mk_arr2 4 4 window4.

(** Two windows of 1x3 integer pixels.  The binary32 sum of the first is
    [33554456] (the exact sum is [33554453]), so its binary32 mean,
    [11184819], is above every pixel of the window. *)
Definition bright_window : list Z := [11184817; 11184818; 11184818]%Z.
Definition dark_window : list Z := [0; 0; 3]%Z.

(** Two 4x8 frames, two windows of 4x4 each.  In the first frame both
    windows hold the blob; in the second frame the left window holds it
    unmoved and the right window holds it moved two columns (circularly),
    which puts the correlation peak of the right window on column 0. *)
Definition frame8_a : image :=
  mk_arr2 4 8
    (ints [0; 0; 0; 0;  0; 0; 0; 0;
           0; 1; 2; 0;  0; 1; 2; 0;
           0; 3; 9; 1;  0; 3; 9; 1;
           0; 0; 2; 0;  0; 0; 2; 0]%Z).
Definition frame8_b : image :=
  mk_arr2 4 8
    (ints [0; 0; 0; 0;  0; 0; 0; 0;
           0; 1; 2; 0;  2; 0; 0; 1;
           0; 3; 9; 1;  9; 1; 0; 3;
           0; 0; 2; 0;  2; 0; 0; 0]%Z).

(** The arguments of a call with 4x4 windows, no overlap, [dt = 1] and no
    signal-to-noise evaluation. *)
Definition piv_call (a b : image) (subpixel_method : string)
    (max_array_size : option Z) : piv_args :=
  mk_piv_args a b (Int 4) (Int 0) (of_Z 1) None "circular" subpixel_method None 2 false
    max_array_size.

(** The same call with a memory ceiling, the number printed in the summary
    line of a run, and the correlation batch of the unscheduled call. *)
Definition with_ceiling (args : piv_args) (m : Z) : piv_args :=
  mk_piv_args (frame_a args) (frame_b args) (window_size args) (overlap args) (dt args)
    (search_area_size args) (correlation_method args) (subpixel_method args)
    (sig2noise_method args) (width args) (normalized_correlation args) (Some m).

(** The windows [[b0, b1)] of a batch. *)
Definition block_of {A : Type} (b0 b1 : Z) (b : arr3 A) : arr3 A :=
  mk_arr3 (rows3 b) (cols3 b) (slice b0 b1 (wins b)).

Definition bad_peaks (done : list event) : list nat :=
  concat (map (fun e => match e with BadPeaks k => [k] | _ => [] end) done).

Definition whole_correlation (cis : Z -> Z -> cplx) (args : piv_args) : result batch :=
  let s := match search_area_size args with
           | None => as_pair (window_size args)
           | Some s => as_pair s
           end in
  (aa <- sliding_window_array (frame_a args) s (as_pair (overlap args)) None ;;
   bb <- sliding_window_array (frame_b args) s (as_pair (overlap args)) None ;;
   fft_correlate_images cis aa bb (correlation_method args)
     (normalized_correlation args))%result.

(* ================================================================== *)
(** ** The strided extractor: [moving_window_array] *)

Section Strided.

(** [as_strided] checks nothing: an element whose byte offset lies outside
    the buffer of the array is whatever the memory holds there.  [beyond]
    stands for that content, by flat index. *)
Variable beyond : Z -> num.

Definition strided_read (flat : list num) (k : Z) : num :=
  if ((0 <=? k) && (k <? Z.of_nat (length flat)))%Z
  then nth (Z.to_nat k) flat NaN else beyond k.

(** [int(a / b)] for two Python [int]s: the quotient truncated toward
    zero. *)
Definition int_div (a b : Z) : result Z :=
  if (b =? 0)%Z then Raise ZeroDivisionError else Ok (Z.quot a b).

(** [moving_window_array]: the view of shape [(n0, n1, w, w)] with the
    strides [(sz * C * step, sz * step, sz * C, sz)] over the row-major
    buffer, then [reshape(-1, w, w)] (a copy, in C order). *)
Definition moving_window_array (array : image) (window_size overlap : Z) : result batch :=
  let C := Z.of_nat (ncol array) in
  let step := (window_size - overlap)%Z in
  (q0 <- int_div (Z.of_nat (nrow array) - window_size) step ;;
   q1 <- int_div (C - window_size) step ;;
   let n0 := (q0 + 1)%Z in
   let n1 := (q1 + 1)%Z in
   if ((n0 <? 0) || (n1 <? 0) || (window_size <? 0))%Z
   then Raise (ValueError "negative dimensions are not allowed")
   else if (window_size =? 0)%Z
   then Raise (ValueError "cannot reshape array of size 0 into shape (0,0)")
   else
     Ok (mk_arr3 (Z.to_nat window_size) (Z.to_nat window_size)
           (map (fun '(a, b) =>
                   map (fun '(i, j) =>
                          strided_read (buf array)
                            (C * step * a + step * b + C * i + j)%Z)
                       (list_prod (arange window_size) (arange window_size)))
                (list_prod (arange n0) (arange n1)))))%result.

End Strided.

(** The same call with another [sig2noise_method]. *)
Definition with_sig2noise (args : piv_args) (sig2noise_method : option string) : piv_args :=
  mk_piv_args (frame_a args) (frame_b args) (window_size args) (overlap args) (dt args)
    (search_area_size args) (correlation_method args) (subpixel_method args)
    sig2noise_method (width args) (normalized_correlation args) (max_array_size args).


(* ================================================================== *)
(** ** [nextpower2] *)

(** [n = 1; while n < i: n *= 2; return n].  [fuel] bounds the number of
    passes of the loop; [None] when it runs out. *)
Fixpoint nextpower2_loop (fuel : nat) (n i : Z) : option Z :=
  if (n <? i)%Z then
    match fuel with
    | O => None
    | S fuel => nextpower2_loop fuel (n * 2)%Z i
    end
  else Some n.

Definition nextpower2 (fuel : nat) (i : Z) : option Z := nextpower2_loop fuel 1%Z i.

(* ================================================================== *)
(** * Properties *)

Unset Implicit Arguments.

(** ** Arithmetic of the embedding *)

Lemma wrap64_small (z : Z) :
  (- 2 ^ 63 <= z < 2 ^ 63)%Z -> wrap64 z = z.
Proof.
  intros Hz. unfold wrap64.
  rewrite Z.mod_small by lia. lia.
Qed.

Lemma Qc_ltb_lt (a b : Qc) : Qc_ltb a b = true <-> (a < b)%Qc.
Proof.
  unfold Qc_ltb. rewrite Qclt_alt.
  destruct (a ?= b)%Qc; split; intro H; congruence.
Qed.



Lemma qc_zero : qc 0 1 = 0%Qc.
Proof. reflexivity. Qed.

(** ** Grid geometry (C2) *)

Lemma field_axis_formula (im w o : Z) :
  (0 <= o < w)%Z -> (w <= im < 2 ^ 63)%Z ->
  int64_add (int64_floordiv (int64_sub im w) (int64_sub w o)) 1
  = ((im - w) / (w - o) + 1)%Z.
Proof.
  intros Ho Him.
  unfold int64_add, int64_floordiv, int64_sub.
  rewrite (wrap64_small (im - w)%Z) by lia.
  rewrite (wrap64_small (w - o)%Z) by lia.
  assert (Hq : (0 <= (im - w) / (w - o) <= im - w)%Z).
  { split.
    - apply Z.div_pos; lia.
    - apply Z.div_le_upper_bound; [lia|]. nia. }
  rewrite (wrap64_small ((im - w) / (w - o))%Z) by lia.
  apply wrap64_small. lia.
Qed.

(** C2: for a valid configuration (on both axes the window is larger than
    the overlap, the overlap is not negative, the window fits in the image,
    and the image size is an [int64]), [get_field_shape] is
    [floor((image - window) / (window - overlap)) + 1] on each axis. *)
Theorem get_field_shape_formula (image_size window_size overlap : Z * Z) :
  (0 <= fst overlap < fst window_size)%Z ->
  (0 <= snd overlap < snd window_size)%Z ->
  (fst window_size <= fst image_size < 2 ^ 63)%Z ->
  (snd window_size <= snd image_size < 2 ^ 63)%Z ->
  get_field_shape image_size window_size overlap
  = (((fst image_size - fst window_size) / (fst window_size - fst overlap) + 1)%Z,
     ((snd image_size - snd window_size) / (snd window_size - snd overlap) + 1)%Z).
Proof.
  intros Ho0 Ho1 Hi0 Hi1.
  unfold get_field_shape.
  rewrite !field_axis_formula by assumption.
  reflexivity.
Qed.

Lemma get_field_shape_formula_witness :
  get_field_shape (128, 128)%Z (32, 32)%Z (16, 16)%Z = (7, 7)%Z.
Proof.
  exact (get_field_shape_formula (128, 128)%Z (32, 32)%Z (16, 16)%Z
           ltac:(simpl; lia) ltac:(simpl; lia) ltac:(simpl; lia) ltac:(simpl; lia)).
Defined.

(** ** Intensity normalizer (C9) *)

(** The fuel of [pairwise_sum] only bounds the depth of the splitting: any
    fuel of at least the length of the run gives the same sum. *)
Lemma pairwise_sum_fuel (f1 f2 : nat) (a : list f32) :
  (length a <= f1)%nat -> (length a <= f2)%nat ->
  pairwise_sum f1 a = pairwise_sum f2 a.
Proof.
  revert f2 a. induction f1 as [|f1 IH]; intros f2 a H1 H2.
  - destruct a; [|simpl in H1; lia]. destruct f2; reflexivity.
  - destruct f2 as [|f2].
    + destruct a; [reflexivity | simpl in H2; lia].
    + cbn [pairwise_sum].
      destruct (length a <? 8)%nat eqn:E8; [reflexivity|].
      destruct (length a <=? 128)%nat eqn:E128; [reflexivity|].
      apply Nat.leb_gt in E128.
      pose proof (Nat.div_mod_eq (length a) 2) as D.
      pose proof (Nat.mod_upper_bound (length a) 2 ltac:(lia)) as M2.
      pose proof (Nat.mod_upper_bound (length a / 2) 8 ltac:(lia)) as M8.
      rewrite (IH f2 (firstn _ a)), (IH f2 (skipn _ a)).
      * reflexivity.
      * rewrite length_skipn. lia.
      * rewrite length_skipn. lia.
      * rewrite length_firstn. lia.
      * rewrite length_firstn. lia.
Qed.

(** C9 fails on the code: the normalizer computes in binary32 and clips at
    the maximum of the whole batch.  The binary32 mean of [bright_window]
    is [11184819], above each of its pixels, so the centred window is
    negative throughout.  Normalized alone, every value of the window is
    clipped to the (negative) maximum, about [-2.12]; normalized in a batch
    with [dark_window], whose maximum is positive, the same window comes
    out as zeros.  The output for [dark_window] is the same alone and in
    the batch. *)
Lemma normalize_intensity_mixes_windows :
  mean32 (map f32_of_Z bright_window) = f32_of_Z 11184819
  /\ normalize_intensity (mk_arr3 1 3 [bright_window])
     = Ok (mk_arr3 1 3 [repeat (S754_finite true 8897463 (-22)) 3])
  /\ normalize_intensity (mk_arr3 1 3 [bright_window; dark_window])
     = Ok (mk_arr3 1 3
             [repeat (S754_zero false) 3;
              [S754_zero false; S754_zero false; S754_finite false 11863283 (-23)]])
  /\ normalize_intensity (mk_arr3 1 3 [dark_window])
     = Ok (mk_arr3 1 3
             [[S754_zero false; S754_zero false; S754_finite false 11863283 (-23)]]).
Proof. repeat split; vm_compute; reflexivity. Qed.

(** ** Effects on the caller's correlation array (C10) *)

(** [preserves m]: running [m] leaves the array as it was. *)
Definition preserves {S A : Type} (m : M S A) : Prop := forall s, snd (m s) = s.

Lemma preserves_ret {S A : Type} (a : A) : preserves (@ret S A a).
Proof. intros s. reflexivity. Qed.

Lemma preserves_raise {S A : Type} (e : error) : preserves (@raise S A e).
Proof. intros s. reflexivity. Qed.

Lemma preserves_reads {S A : Type} (f : S -> A) : preserves (reads f).
Proof. intros s. reflexivity. Qed.

Lemma preserves_lift {S A : Type} (f : S -> result A) : preserves (lift f).
Proof. intros s. reflexivity. Qed.

Lemma preserves_bind {S A B : Type} (m : M S A) (k : A -> M S B) :
  preserves m -> (forall a, preserves (k a)) -> preserves (bind m k).
Proof.
  intros Hm Hk s. unfold bind.
  specialize (Hm s). destruct (m s) as [[a|e] s']; simpl in Hm; subst s'.
  - apply Hk.
  - reflexivity.
Qed.

Lemma preserves_foldM {S A : Type} (body : A -> nat -> M S A) (l : list nat) :
  (forall acc i, preserves (body acc i)) -> forall acc, preserves (foldM body l acc).
Proof.
  intros Hb. induction l as [|i l IH]; intros acc; cbn [foldM].
  - apply preserves_ret.
  - apply preserves_bind; [apply Hb | intros a; apply IH].
Qed.

Lemma set_nth_same {A : Type} (d : A) (l : list A) (i : nat) :
  set_nth i (nth i l d) l = l.
Proof.
  revert i. induction l as [|x l IH]; intros i; destruct i; simpl; try reflexivity.
  f_equal. apply IH.
Qed.

Lemma preserves_on_window {A : Type} (i : nat) (m : M map2 A) :
  preserves m -> preserves (on_window i m).
Proof.
  intros Hm b. unfold on_window.
  specialize (Hm (window b i)).
  destruct (m (window b i)) as [r w]. simpl in Hm. subst w. simpl.
  rewrite set_nth_same. destruct b; reflexivity.
Qed.

Ltac preserve :=
  repeat first
    [ apply preserves_ret | apply preserves_raise | apply preserves_reads
    | apply preserves_lift
    | apply preserves_bind; [|intros ?]
    | apply preserves_foldM; intros ? ?
    | apply preserves_on_window
    | match goal with
      | |- preserves (if ?b then _ else _) => destruct b
      | |- preserves (match ?x with _ => _ end) => destruct x
      end ].

Lemma find_first_peak_preserves : preserves find_first_peak.
Proof. unfold find_first_peak. preserve. Qed.

Lemma find_second_peak_preserves (i j : option Z) (width : Z) :
  preserves (find_second_peak i j width).
Proof. unfold find_second_peak, find_first_peak. preserve. Qed.

Lemma find_all_first_peaks_preserves : preserves find_all_first_peaks.
Proof. unfold find_all_first_peaks. preserve. Qed.

Lemma find_all_second_peaks_preserves (width : Z) :
  preserves (find_all_second_peaks width).
Proof. unfold find_all_second_peaks, find_all_first_peaks. preserve. Qed.

Lemma sig2noise_ratio_preserves (method : string) (width : Z) :
  preserves (sig2noise_ratio method width).
Proof.
  unfold sig2noise_ratio. preserve.
Qed.

Lemma vectorized_sig2noise_ratio_preserves (method : string) (width : Z) :
  preserves (vectorized_sig2noise_ratio method width).
Proof.
  unfold vectorized_sig2noise_ratio. preserve.
Qed.

Lemma modify_then_preserves {S A : Type} (f : S -> S) (k : unit -> M S A) (s : S) :
  (forall u, preserves (k u)) -> snd (bind (modify f) k s) = f s.
Proof.
  intros Hk. unfold bind, modify. apply Hk.
Qed.

Lemma find_subpixel_peak_position_state (log : num -> num) (method : string) (corr : map2) :
  snd (find_subpixel_peak_position log method corr)
  = if supported_subpixel method && has_interior_peak corr
    then iadd2 eps corr else corr.
Proof.
  unfold find_subpixel_peak_position, has_interior_peak.
  destruct (supported_subpixel method); [|reflexivity].
  cbn [negb andb].
  unfold bind at 1. unfold find_first_peak, lift.
  destruct (find_first_peak_val corr) as [[[i j] v]|e]; [|reflexivity].
  cbn [fst snd]. unfold bind at 1. cbn [reads fst snd].
  destruct (on_border (nrow corr) (ncol corr) i j); [reflexivity|].
  cbn [negb]. apply modify_then_preserves. intros u. preserve.
Qed.

Lemma vectorized_correlation_to_displacements_state (log : num -> num)
    (n_rows n_cols : option Z) (method : string) (e : num) (corr : batch) :
  snd (vectorized_correlation_to_displacements log n_rows n_cols method e corr)
  = if supported_subpixel method then iadd3 e corr else corr.
Proof.
  unfold vectorized_correlation_to_displacements.
  destruct (supported_subpixel method); [|reflexivity].
  cbn [negb]. apply modify_then_preserves. intros u. preserve.
Qed.

(** C10, as the code has it: peak finding (first and second, one map or a
    batch) and both signal-to-noise evaluators leave the caller's
    correlation array unchanged (a masked view only sets mask bits); the
    sub-pixel estimator adds [eps] to every element of the caller's map in
    place when the method is supported and the peak is not on a border; the
    displacement conversion adds [eps] to every element of the caller's
    batch in place whenever the method is supported. *)
Theorem correlation_array_after_call (log : num -> num) :
  (forall corr, snd (find_first_peak corr) = corr)
  /\ (forall i j width corr, snd (find_second_peak i j width corr) = corr)
  /\ (forall corr, snd (find_all_first_peaks corr) = corr)
  /\ (forall width corr, snd (find_all_second_peaks width corr) = corr)
  /\ (forall method width corr, snd (sig2noise_ratio method width corr) = corr)
  /\ (forall method width corr, snd (vectorized_sig2noise_ratio method width corr) = corr)
  /\ (forall method corr,
        snd (find_subpixel_peak_position log method corr)
        = if supported_subpixel method && has_interior_peak corr
          then iadd2 eps corr else corr)
  /\ (forall n_rows n_cols method e corr,
        snd (vectorized_correlation_to_displacements log n_rows n_cols method e corr)
        = if supported_subpixel method then iadd3 e corr else corr).
Proof.
  split; [intros; apply find_first_peak_preserves|].
  split; [intros; apply find_second_peak_preserves|].
  split; [intros; apply find_all_first_peaks_preserves|].
  split; [intros; apply find_all_second_peaks_preserves|].
  split; [intros; apply sig2noise_ratio_preserves|].
  split; [intros; apply vectorized_sig2noise_ratio_preserves|].
  split; intros.
  - apply find_subpixel_peak_position_state.
  - apply vectorized_correlation_to_displacements_state.
Qed.

Ltac qc_eq := apply Qc_is_canon; vm_compute; reflexivity.

(** C10 fails as stated: after the displacement conversion of the batch
    [centre_batch] the caller's array holds [1 + 1e-7] where it held [1]. *)
Lemma displacement_conversion_mutates :
  nth 0 (nth 0 (wins centre_batch) []) zero = Fin (qc 1 1)
  /\ nth 0 (nth 0 (wins (snd (vectorized_correlation_to_displacements
                               log_rational None None "parabolic" eps centre_batch))) [])
         zero
     = Fin (qc 10000001 10000000)
  /\ Qc_eqb (qc 1 1) (qc 10000001 10000000) = false.
Proof.
  split; [reflexivity|]. split; [|reflexivity].
  rewrite vectorized_correlation_to_displacements_state.
  cbn. f_equal; qc_eq.
Qed.

(** ** Index lists: [where], [a[idx] = v] and [a[idx] = src[idx]] *)

Lemma length_set_nth {A : Type} (i : nat) (v : A) (l : list A) :
  length (set_nth i v l) = length l.
Proof.
  revert i. induction l as [|x l IH]; intros [|i]; simpl; try reflexivity.
  f_equal. apply IH.
Qed.

Lemma nth_set_nth {A : Type} (d : A) (i k : nat) (v : A) (l : list A) :
  (k < length l)%nat ->
  nth k (set_nth i v l) d = if (k =? i)%nat then v else nth k l d.
Proof.
  revert i k. induction l as [|x l IH]; intros i k Hk; simpl in Hk; [lia|].
  destruct i as [|i], k as [|k]; simpl; try reflexivity.
  apply IH. lia.
Qed.

Lemma length_set_all {A : Type} (idx : list nat) (v : A) (l : list A) :
  length (set_all idx v l) = length l.
Proof.
  unfold set_all. revert l. induction idx as [|i idx IH]; intros l; simpl.
  - reflexivity.
  - rewrite IH. apply length_set_nth.
Qed.

Lemma nth_set_all {A : Type} (d : A) (idx : list nat) (k : nat) (v : A) (l : list A) :
  (k < length l)%nat ->
  nth k (set_all idx v l) d = if existsb (Nat.eqb k) idx then v else nth k l d.
Proof.
  unfold set_all. revert l. induction idx as [|i idx IH]; intros l Hk; simpl.
  - reflexivity.
  - rewrite IH by (rewrite length_set_nth; exact Hk).
    rewrite nth_set_nth by exact Hk.
    destruct (k =? i)%nat eqn:E; simpl.
    + destruct (existsb (Nat.eqb k) idx); reflexivity.
    + reflexivity.
Qed.

Lemma length_copy_at {A : Type} (d : A) (idx : list nat) (src l : list A) :
  length (copy_at d idx src l) = length l.
Proof.
  unfold copy_at. revert l. induction idx as [|i idx IH]; intros l; simpl.
  - reflexivity.
  - rewrite IH. apply length_set_nth.
Qed.

Lemma nth_copy_at {A : Type} (d d' : A) (idx : list nat) (k : nat) (src l : list A) :
  (k < length l)%nat ->
  nth k (copy_at d idx src l) d'
  = if existsb (Nat.eqb k) idx then nth k src d else nth k l d'.
Proof.
  unfold copy_at. revert l. induction idx as [|i idx IH]; intros l Hk; simpl.
  - reflexivity.
  - rewrite IH by (rewrite length_set_nth; exact Hk).
    rewrite nth_set_nth by exact Hk.
    destruct (k =? i)%nat eqn:E; simpl.
    + apply Nat.eqb_eq in E. subst i.
      destruct (existsb (Nat.eqb k) idx); reflexivity.
    + reflexivity.
Qed.

Lemma existsb_eqb_In (k : nat) (idx : list nat) :
  existsb (Nat.eqb k) idx = true <-> In k idx.
Proof.
  rewrite existsb_exists. split.
  - intros [x [Hx E]]. apply Nat.eqb_eq in E. subst x. exact Hx.
  - intros H. exists k. split; [exact H | apply Nat.eqb_refl].
Qed.

Lemma in_combine_seq {A : Type} (a : list A) (s k : nat) (x : A) :
  In (k, x) (combine (seq s (length a)) a)
  <-> (s <= k)%nat /\ nth_error a (k - s) = Some x.
Proof.
  revert s. induction a as [|y a IH]; intros s; simpl.
  - split; [intros [] | intros [_ H]; destruct (k - s)%nat; discriminate].
  - rewrite IH. split.
    + intros [E | [Hle Hn]].
      * inversion E; subst. split; [lia|]. rewrite Nat.sub_diag. reflexivity.
      * split; [lia|]. replace (k - s)%nat with (S (k - S s)) by lia. exact Hn.
    + intros [Hle Hn]. destruct (k - s)%nat as [|m] eqn:E.
      * left. simpl in Hn. inversion Hn; subst. f_equal. lia.
      * right. split; [lia|]. simpl in Hn. replace (k - S s)%nat with m by lia. exact Hn.
Qed.

Lemma in_where {A : Type} (p : A -> bool) (a : list A) (k : nat) :
  In k (where_ p a) <-> exists x, nth_error a k = Some x /\ p x = true.
Proof.
  unfold where_. rewrite in_map_iff. split.
  - intros [[k' x] [E H]]. simpl in E. subst k'.
    apply filter_In in H. destruct H as [H Hp]. simpl in Hp.
    apply in_combine_seq in H. destruct H as [_ H].
    rewrite Nat.sub_0_r in H. exists x. split; assumption.
  - intros [x [H Hp]]. exists (k, x). split; [reflexivity|].
    apply filter_In. split; [|exact Hp].
    apply in_combine_seq. split; [lia|]. rewrite Nat.sub_0_r. exact H.
Qed.

Lemma where_lt {A : Type} (p : A -> bool) (a : list A) (k : nat) :
  In k (where_ p a) -> (k < length a)%nat.
Proof.
  intros H. apply in_where in H. destruct H as [x [H _]].
  apply nth_error_Some. congruence.
Qed.

(** ** The displacement assembler, step by step *)

Lemma assembler_run (log : num -> num) (n_rows n_cols : option Z) (method : string)
    (e : num) (corr : batch) (first : list (Z * Z * Z) * list num) :
  supported_subpixel method = true ->
  find_all_first_peaks_val (iadd3 e corr) = Ok first ->
  vectorized_correlation_to_displacements log n_rows n_cols method e corr
  = (displacements_from_peaks log n_rows n_cols method first (iadd3 e corr), iadd3 e corr).
Proof.
  intros Hs Hp. unfold vectorized_correlation_to_displacements.
  rewrite Hs. cbn [negb].
  unfold bind, modify, find_all_first_peaks, lift. rewrite Hp. reflexivity.
Qed.

Lemma first_peaks_inv (b : batch) (first : list (Z * Z * Z) * list num) :
  find_all_first_peaks_val b = Ok first ->
  wins b <> [] /\ (rows3 b * cols3 b <> 0)%nat
  /\ fst first = map (fun '(n, w) => peak_row (cols3 b) n w)
                     (combine (seq 0 (nwin b)) (wins b))
  /\ snd first = map nanmax (wins b).
Proof.
  unfold find_all_first_peaks_val. intros H.
  destruct (wins b) as [|w ws] eqn:E; [discriminate|].
  destruct (rows3 b * cols3 b =? 0)%nat eqn:Z; [discriminate|].
  apply Nat.eqb_neq in Z. inversion H; subst first. simpl fst. simpl snd.
  repeat split; try assumption. discriminate.
Qed.

Lemma first_peaks_length (b : batch) (first : list (Z * Z * Z) * list num) :
  find_all_first_peaks_val b = Ok first -> length (fst first) = nwin b.
Proof.
  intros H. destruct (first_peaks_inv b first H) as [_ [_ [E _]]].
  rewrite E, length_map, length_combine, length_seq. unfold nwin. lia.
Qed.

Lemma length_map3 {A B C D : Type} (f : A -> B -> C -> D)
    (a : list A) (b : list B) (c : list C) :
  length (map3 f a b c) = Nat.min (length a) (Nat.min (length b) (length c)).
Proof.
  unfold map3. rewrite length_map, !length_combine. reflexivity.
Qed.

Lemma length_subpixel_shifts (log : num -> num) (method : string)
    (pi pj : list Z) (st : list (num * num * num * num * num)) :
  length pi = length st -> length pj = length st ->
  length (fst (subpixel_shifts log method pi pj st)) = length st
  /\ length (snd (subpixel_shifts log method pi pj st)) = length st.
Proof.
  intros Hi Hj. unfold subpixel_shifts.
  destruct (String.eqb method "centroid").
  - cbn [fst snd]. rewrite !length_map, !length_combine. lia.
  - destruct (String.eqb method "gaussian").
    + destruct (1 <=? length (gaussian_fallback st))%nat; cbn [fst snd];
        rewrite ?length_copy_at, !length_map; split; reflexivity.
    + cbn [fst snd]. rewrite !length_map. split; reflexivity.
Qed.

Lemma length_displacement (method : string) (size : Z) (peaks : list Z) (shift : list num) :
  length peaks = length shift ->
  length (displacement method size peaks shift) = length shift.
Proof.
  intros H. unfold displacement.
  destruct (negb (String.eqb method "centroid")).
  - rewrite length_map, length_combine. lia.
  - apply length_map.
Qed.

Lemma reshape2_fits {A : Type} (r c : Z) (a : list A) :
  (0 <= r)%Z -> (0 <= c)%Z -> (r * c)%Z = Z.of_nat (length a) ->
  reshape2 r c a = Ok (mk_arr2 (Z.to_nat r) (Z.to_nat c) a).
Proof.
  intros Hr Hc H. unfold reshape2.
  replace ((0 <=? r)%Z && (0 <=? c)%Z) with true
    by (symmetry; apply andb_true_iff; split; apply Z.leb_le; assumption).
  replace (r * c =? Z.of_nat (length a))%Z with true
    by (symmetry; apply Z.eqb_eq; exact H).
  reflexivity.
Qed.

(** The two displacement arrays of the regular return, before reshaping. *)
Lemma displacements_from_peaks_lengths (log : num -> num) (method : string)
    (first : list (Z * Z * Z) * list num) (corr : batch) :
  length (fst first) = nwin corr ->
  let R := Z.of_nat (rows3 corr) in
  let C := Z.of_nat (cols3 corr) in
  let pi0 := map (fun p : Z * Z * Z => snd (fst p)) (fst first) in
  let pj0 := map (fun p : Z * Z * Z => snd p) (fst first) in
  let invalid := invalid_peaks R C 1 pi0 pj0 in
  let pi := set_all invalid (R / 2)%Z pi0 in
  let pj := set_all invalid (C / 2)%Z pj0 in
  let st := map3 (stencil (rows3 corr) (cols3 corr)) (wins corr) pi pj in
  let shifts := subpixel_shifts log method pi pj st in
  length st = nwin corr
  /\ length (displacement method R pi (fst shifts)) = nwin corr
  /\ length (displacement method C pj (snd shifts)) = nwin corr.
Proof.
  intros Hl R C pi0 pj0 invalid pi pj st shifts.
  assert (Hpi : length pi = nwin corr).
  { subst pi pi0. rewrite length_set_all, length_map. exact Hl. }
  assert (Hpj : length pj = nwin corr).
  { subst pj pj0. rewrite length_set_all, length_map. exact Hl. }
  assert (Hst : length st = nwin corr).
  { subst st. rewrite length_map3, Hpi, Hpj. unfold nwin. lia. }
  destruct (length_subpixel_shifts log method pi pj st) as [H1 H2]; try congruence.
  split; [exact Hst|].
  subst shifts. split.
  - rewrite length_displacement; rewrite H1; congruence.
  - rewrite length_displacement; rewrite H2; congruence.
Qed.

(** ** Peaks on the border (C4) *)

Lemma border_in_invalid (r c : nat) (peaks : list (Z * Z * Z)) (k : nat) (n i j : Z) :
  nth_error peaks k = Some (n, i, j) ->
  on_border r c i j = true ->
  In k (invalid_peaks (Z.of_nat r) (Z.of_nat c) 1
          (map (fun p : Z * Z * Z => snd (fst p)) peaks)
          (map (fun p : Z * Z * Z => snd p) peaks)).
Proof.
  intros Hk Hb.
  pose proof (map_nth_error (fun p : Z * Z * Z => snd (fst p)) k peaks Hk) as Hi.
  pose proof (map_nth_error (fun p : Z * Z * Z => snd p) k peaks Hk) as Hj.
  cbn [fst snd] in Hi, Hj.
  unfold on_border in Hb. unfold invalid_peaks.
  rewrite !in_app_iff, !in_where.
  apply orb_true_iff in Hb. destruct Hb as [Hb|Hb].
  - apply orb_true_iff in Hb. destruct Hb as [Hb|Hb].
    + apply orb_true_iff in Hb. destruct Hb as [Hb|Hb]; apply Z.eqb_eq in Hb.
      * left. exists i. split; [exact Hi | apply Z.ltb_lt; lia].
      * right; left. exists i. split; [exact Hi | apply Z.ltb_lt; lia].
    + apply Z.eqb_eq in Hb. right; right; left.
      exists j. split; [exact Hj | apply Z.ltb_lt; lia].
  - apply Z.eqb_eq in Hb. right; right; right.
    exists j. split; [exact Hj | apply Z.ltb_lt; lia].
Qed.

Lemma invalid_window_nan (log : num -> num) (n_rows n_cols : option Z) (method : string)
    (first : list (Z * Z * Z) * list num) (corr : batch) (k : nat) :
  length (fst first) = nwin corr ->
  In k (invalid_peaks (Z.of_nat (rows3 corr)) (Z.of_nat (cols3 corr)) 1
          (map (fun p : Z * Z * Z => snd (fst p)) (fst first))
          (map (fun p : Z * Z * Z => snd p) (fst first))) ->
  (k < nwin corr)%nat ->
  reshape_fits n_rows n_cols (nwin corr) ->
  exists d, displacements_from_peaks log n_rows n_cols method first corr = Ok d
            /\ disp_at d k = (NaN, NaN).
Proof.
  intros Hl Hin Hk Hfit.
  destruct (displacements_from_peaks_lengths log method first corr Hl) as [_ [Hy Hx]].
  apply existsb_eqb_In in Hin.
  unfold displacements_from_peaks.
  destruct (length _ =? nwin corr)%nat.
  - eexists. split; [reflexivity|]. cbn [disp_at]. apply nth_repeat_lt. exact Hk.
  - destruct n_rows as [r|], n_cols as [c|];
      try (eexists; split; [reflexivity|]; cbn [disp_at];
           rewrite !nth_set_all by (rewrite ?Hx, ?Hy; exact Hk);
           rewrite Hin; reflexivity).
    destruct Hfit as [Hr [Hc Hrc]].
    rewrite !reshape2_fits by (rewrite ?length_set_all, ?Hx, ?Hy; assumption).
    eexists. split; [reflexivity|]. cbn [disp_at buf].
    rewrite !nth_set_all by (rewrite ?Hx, ?Hy; exact Hk).
    rewrite Hin. reflexivity.
Qed.

(** C4: for each of the three sub-pixel methods, a window whose integer first
    peak lies on a border row or column gets NaN.  The single-map estimator
    returns [(NaN, NaN)] and leaves the map as it was: it returns before
    [corr += eps] and before any neighbour of the peak is read.  The batched
    path returns NaN for that window in both of its return forms (where a
    grid shape is requested it has to hold the batch); the samples it reads
    for such a window are those around the centre of the map, where it moved
    the peak, not the neighbours of the peak. *)
Theorem border_peak_is_nan (log : num -> num) (method : string) :
  supported_subpixel method = true ->
  (forall (corr : map2) (i j : Z) (v : num),
      find_first_peak_val corr = Ok ((i, j), v) ->
      on_border (nrow corr) (ncol corr) i j = true ->
      find_subpixel_peak_position log method corr = (Ok (NaN, NaN), corr))
  /\
  (forall (corr : batch) (e : num) (n_rows n_cols : option Z)
          (first : list (Z * Z * Z) * list num) (k : nat) (n i j : Z),
      find_all_first_peaks_val (iadd3 e corr) = Ok first ->
      nth_error (fst first) k = Some (n, i, j) ->
      on_border (rows3 corr) (cols3 corr) i j = true ->
      reshape_fits n_rows n_cols (nwin corr) ->
      exists d,
        vectorized_correlation_to_displacements log n_rows n_cols method e corr
        = (Ok d, iadd3 e corr)
        /\ disp_at d k = (NaN, NaN)).
Proof.
  intros Hs. split.
  - intros corr i j v Hp Hb.
    unfold find_subpixel_peak_position. rewrite Hs. cbn [negb].
    unfold bind, find_first_peak, lift, reads. rewrite Hp. cbn [fst snd].
    rewrite Hb. reflexivity.
  - intros corr e n_rows n_cols first k n i j Hp Hk Hb Hfit.
    rewrite (assembler_run log n_rows n_cols method e corr first Hs Hp).
    pose proof (first_peaks_length _ _ Hp) as Hl.
    assert (Hlt : (k < nwin (iadd3 e corr))%nat).
    { rewrite <- Hl. apply nth_error_Some. congruence. }
    assert (Hn : nwin (iadd3 e corr) = nwin corr).
    { unfold nwin, iadd3. cbn [wins]. apply length_map. }
    destruct (invalid_window_nan log n_rows n_cols method first (iadd3 e corr) k Hl)
      as [d [Hd Hnan]].
    + apply (border_in_invalid _ _ _ k n i j Hk). exact Hb.
    + exact Hlt.
    + rewrite Hn. exact Hfit.
    + exists d. rewrite Hd. split; [reflexivity | exact Hnan].
Qed.

Lemma border_peak_is_nan_witness :
  find_subpixel_peak_position log_rational "gaussian" (mk_arr2 3 3 corner_map)
  = (Ok (NaN, NaN), mk_arr2 3 3 corner_map)
  /\ exists d,
       vectorized_correlation_to_displacements log_rational None None "gaussian" eps
         corner_centre_batch
       = (Ok d, iadd3 eps corner_centre_batch)
       /\ disp_at d 0 = (NaN, NaN).
Proof.
  split.
  - apply (proj1 (border_peak_is_nan log_rational "gaussian" eq_refl)
             (mk_arr2 3 3 corner_map) 0%Z 0%Z (of_Z 5)).
    + reflexivity.
    + reflexivity.
  - eapply (proj2 (border_peak_is_nan log_rational "gaussian" eq_refl)
              corner_centre_batch eps None None _ 0%nat 0%Z 0%Z 0%Z).
    + vm_compute. reflexivity.
    + reflexivity.
    + reflexivity.
    + exact I.
Defined.

(** Equality of computed values, up to the canonicity proofs inside [Qc]. *)
Ltac num_eq :=
  repeat match goal with
         | |- @eq Qc _ _ => apply Qc_is_canon; vm_compute; reflexivity
         | |- @eq num (Fin _) (Fin _) => apply f_equal
         | |- @eq (list _) (_ :: _) (_ :: _) => apply f_equal2
         | |- @eq (result _) (Ok _) (Ok _) => apply f_equal
         | |- @eq (prod _ _) (_, _) (_, _) => apply f_equal2
         | |- _ => reflexivity
         end.

(** ** The early return of the assembler (C1) *)

(** C1 fails on the batch [corner_centre_batch] of two 3x3 maps.  The peak of
    window 0 is the corner [(0, 0)], the peak of window 1 is the centre
    [(1, 1)], which is not within [mask_width] of any border.  The corner is
    listed twice in [invalid] (once for its row, once for its column), so
    [len(invalid) == corr.shape[0]] holds and the function returns the
    [(2, 2)] array of NaN: window 1 gets NaN instead of its displacement and
    no count is returned. *)
Lemma assembler_early_return_two_windows :
  (exists maxima,
      find_all_first_peaks_val (iadd3 eps corner_centre_batch)
      = Ok ([(0, 0, 0); (1, 1, 1)]%Z, maxima))
  /\ on_border 3 3 1 1 = false
  /\ invalid_peaks 3 3 1 [0; 1]%Z [0; 1]%Z = [0; 0]%nat
  /\ fst (vectorized_correlation_to_displacements log_rational None None "parabolic" eps
            corner_centre_batch)
     = Ok (AllNaN [(NaN, NaN); (NaN, NaN)]).
Proof.
  split; [eexists; vm_compute; reflexivity|].
  split; [reflexivity|].
  split; [reflexivity|].
  vm_compute. reflexivity.
Qed.

(** ** The gaussian fallback (C5) *)

(** C5 fails in the single-map estimator on [zero_sample_map], whose peak is
    the centre [(1, 1)]: after [corr += eps] the sample above the peak is
    exactly [0]; the test [any(... < 0)] does not see it ([0 < 0] is false,
    [0 <= 0] is true), the gaussian fit is kept and [log] is applied to [0]:
    with a logarithm that is [-inf] at [0] the row estimate is NaN.  The
    batched path, whose test is [<= 0], replaces the fit of this window by
    the parabolic one and returns finite displacements. *)
Lemma gaussian_single_map_keeps_zero_sample :
  (exists v, find_first_peak_val zero_sample_map = Ok ((1, 1)%Z, v))
  /\ st_cl (stencil 3 3 (buf (iadd2 eps zero_sample_map)) 1 1) = zero
  /\ ltb zero zero = false
  /\ leb zero zero = true
  /\ (exists y,
        fst (find_subpixel_peak_position log_rational "gaussian" zero_sample_map)
        = Ok (NaN, y))
  /\ (exists vx vy,
        fst (vectorized_correlation_to_displacements log_rational None None "gaussian" eps
               (mk_arr3 3 3 [buf zero_sample_map]))
        = Ok (Flat [Fin vx] [Fin vy] 0)).
Proof.
  split; [eexists; vm_compute; reflexivity|].
  split; [vm_compute; f_equal; qc_eq|].
  split; [reflexivity|].
  split; [reflexivity|].
  split.
  - eexists. vm_compute. reflexivity.
  - eexists. eexists. vm_compute. reflexivity.
Qed.

(** ** The signal-to-noise evaluators (C7) *)

(** The loop version: a window whose first peak is below [1e-3] or on a
    border gets exactly [0] with the method [peak2peak], whatever else the
    map holds. *)
Lemma peak2peak_loop_body_zero (shape : nat * nat) (width : Z) (sig2noise : list num)
    (i : nat) (corr : map2) (pk : Z * Z) (v : num) :
  find_first_peak_val corr = Ok (pk, v) ->
  ltb v snr_floor || on_border (fst shape) (snd shape) (fst pk) (snd pk) = true ->
  (p1 <- find_first_peak ;;
   let peak1_i := fst (fst p1) in
   let peak1_j := snd (fst p1) in
   let corr_max1_i := snd p1 in
   let condition :=
     ltb corr_max1_i snr_floor
     || on_border (fst shape) (snd shape) peak1_i peak1_j in
   if condition then ret (set_nth i zero sig2noise)
   else
     (p2 <- find_second_peak (Some peak1_i) (Some peak1_j) width ;;
      let corr_max2 := snd p2 in
      let border_condition :=
        on_border (fst shape) (snd shape) (fst (fst p2)) (snd (fst p2)) in
      let condition :=
        eqb corr_max2 zero
        || (border_condition
            && gtb corr_max2 (one_half * corr_max1_i)%num) in
      let corr_max2 := if condition then NaN else corr_max2 in
      ret (set_nth i (corr_max1_i / corr_max2)%num sig2noise)))%M corr
  = (Ok (set_nth i zero sig2noise), corr).
Proof.
  intros Hp Hc. unfold bind, find_first_peak, lift. rewrite Hp.
  cbn [fst snd]. rewrite Hc. reflexivity.
Qed.

(** C7 fails in the vectorized evaluator on [snr_batch]: the first peak of
    window 0 is the border cell [(0, 0)] and the first peak of window 1 has
    amplitude [5e-4 < 1e-3]; the flags are computed but [flag is True] is an
    identity test that is false for every array, so nothing is reset and
    both ratios are [2].  The loop version returns [0] for both windows. *)
Lemma vectorized_sig2noise_keeps_flagged_windows :
  (exists maxima,
      find_all_first_peaks_val snr_batch = Ok ([(0, 0, 0); (1, 1, 1)]%Z, maxima)
      /\ map (fun v => ltb v snr_floor) maxima = [false; true])
  /\ fst (vectorized_sig2noise_ratio "peak2peak" 2 snr_batch) = Ok [of_Z 2; of_Z 2]
  /\ fst (sig2noise_ratio "peak2peak" 2 snr_batch) = Ok [zero; zero].
Proof.
  split; [eexists; split; vm_compute; reflexivity|].
  split.
  - vm_compute. num_eq.
  - vm_compute. num_eq.
Qed.

(** ** Shape of the circular correlation (C6) *)

Lemma length_half_roll {A : Type} (l : list A) : length (half_roll l) = length l.
Proof.
  unfold half_roll. rewrite length_app, length_skipn, length_firstn.
  pose proof (Nat.Div0.div_le_upper_bound (length l) 2 (length l)).
  assert (length l / 2 <= length l)%nat by (apply Nat.Div0.div_le_upper_bound; lia).
  lia.
Qed.

Lemma in_half_roll {A : Type} (l : list A) (x : A) : In x (half_roll l) -> In x l.
Proof.
  unfold half_roll. intros H. apply in_app_or in H.
  rewrite <- (firstn_skipn (length l - length l / 2) l).
  apply in_or_app. tauto.
Qed.

Lemma length_irfft1 (cis : Z -> Z -> cplx) (X : list cplx) :
  length (irfft1 cis X) = (2 * (length X - 1))%nat.
Proof. unfold irfft1. rewrite length_map, length_seq. reflexivity. Qed.

Lemma length_transpose {A : Type} (d : A) (c : nat) (m : list (list A)) :
  length (transpose d c m) = c.
Proof. unfold transpose. rewrite length_map, length_seq. reflexivity. Qed.

Lemma in_transpose_length {A : Type} (d : A) (c : nat) (m : list (list A)) (col : list A) :
  In col (transpose d c m) -> length col = length m.
Proof.
  unfold transpose. intros H. apply in_map_iff in H.
  destruct H as [j [E _]]. subst col. apply length_map.
Qed.

Lemma length_concat_uniform {A : Type} (L : nat) (m : list (list A)) :
  (forall row, In row m -> length row = L) -> length (concat m) = (length m * L)%nat.
Proof.
  induction m as [|row m IH]; intros H; simpl.
  - reflexivity.
  - rewrite length_app, IH by (intros r Hr; apply H; right; exact Hr).
    rewrite (H row) by (left; reflexivity). reflexivity.
Qed.

Lemma irfft2_w_shape (cis : Z -> Z -> cplx) (r m : nat) (W : list (list cplx)) :
  length (irfft2_w cis r m W) = r
  /\ forall row, In row (irfft2_w cis r m W) -> length row = (2 * (m - 1))%nat.
Proof.
  unfold irfft2_w. split.
  - rewrite length_map. apply length_transpose.
  - intros row H. apply in_map_iff in H. destruct H as [X [E HX]]. subst row.
    rewrite length_irfft1.
    apply in_transpose_length in HX.
    rewrite length_map, length_transpose in HX. rewrite HX. reflexivity.
Qed.

Lemma length_correlate_pair (cis : Z -> Z -> cplx) (r c : nat) (a b : list num) :
  length (correlate_pair cis r c a b) = (r * (2 * (c / 2)))%nat.
Proof.
  unfold correlate_pair, fftshift2.
  set (W := map _ (combine _ _)).
  destruct (irfft2_w_shape cis r (c / 2 + 1) W) as [Hr Hc].
  rewrite (length_concat_uniform (2 * (c / 2))).
  - rewrite length_half_roll, length_map, Hr. reflexivity.
  - intros row H. apply in_half_roll in H. apply in_map_iff in H.
    destruct H as [row' [E H]]. subst row. rewrite length_half_roll.
    rewrite (Hc row' H). f_equal. lia.
Qed.

(** On two batches of one shape [(N, r, c)] with [r >= 1] and [c >= 2], the
    circular path returns one map per pair of windows, of [r] rows and
    [2 * (c // 2)] columns ([irfft2] is called without the output size). *)
Lemma circular_correlation_shape (cis : Z -> Z -> cplx) (image_a image_b : batch) :
  rows3 image_a = rows3 image_b ->
  cols3 image_a = cols3 image_b ->
  nwin image_a = nwin image_b ->
  (1 <= rows3 image_a)%nat ->
  (2 <= cols3 image_a)%nat ->
  exists corr,
    fft_correlate_images cis image_a image_b "circular" false = Ok corr
    /\ nwin corr = nwin image_a
    /\ rows3 corr = rows3 image_a
    /\ cols3 corr = (cols3 image_a - cols3 image_a mod 2)%nat
    /\ batch_ok corr
    /\ forall i, (i < nwin image_a)%nat ->
         nth i (wins corr) []
         = correlate_pair cis (rows3 image_a) (cols3 image_a)
             (nth i (wins image_a) []) (nth i (wins image_b) []).
Proof.
  intros Hr Hc Hn H1 H2.
  assert (Hdiv : (2 * (cols3 image_a / 2) = cols3 image_a - cols3 image_a mod 2)%nat).
  { pose proof (Nat.div_mod_eq (cols3 image_a) 2). lia. }
  assert (Hpos : (2 * (cols3 image_a / 2) <> 0)%nat).
  { pose proof (Nat.mod_upper_bound (cols3 image_a) 2). lia. }
  eexists. split.
  - unfold fft_correlate_images. cbn [String.eqb Ascii.eqb Bool.eqb].
    rewrite <- Hr, <- Hc, <- Hn, !Nat.eqb_refl. cbn [andb negb].
    replace (rows3 image_a =? 0)%nat with false by (symmetry; apply Nat.eqb_neq; lia).
    replace (cols3 image_a =? 0)%nat with false by (symmetry; apply Nat.eqb_neq; lia).
    cbn [orb].
    replace (2 * (cols3 image_a / 2) =? 0)%nat with false
      by (symmetry; apply Nat.eqb_neq; exact Hpos).
    reflexivity.
  - cbn [nwin wins rows3 cols3].
    split; [unfold nwin; cbn [wins]; rewrite length_map, length_combine;
            unfold nwin in Hn; lia|].
    split; [reflexivity|].
    split; [exact Hdiv|].
    split.
    + unfold batch_ok. cbn [wins rows3 cols3]. apply Forall_forall.
      intros w Hw. apply in_map_iff in Hw. destruct Hw as [[a b] [E _]]. subst w.
      apply length_correlate_pair.
    + intros i Hi.
      rewrite (nth_indep _ [] (correlate_pair cis (rows3 image_a) (cols3 image_a) [] []))
        by (rewrite length_map, length_combine; unfold nwin in Hn, Hi; lia).
      rewrite (map_nth (fun '(a, b) => correlate_pair cis (rows3 image_a) (cols3 image_a) a b)
                 (combine (wins image_a) (wins image_b)) ([], []) i).
      rewrite combine_nth by exact Hn. reflexivity.
Qed.

(** C6 fails on the code for an odd number of columns: [irfft2] is called
    without the output size, so the correlation of a batch of one 3x3
    window with itself has shape [(1, 3, 2)], not the shape of the
    windows. *)
Lemma circular_correlation_odd_columns :
  (nwin centre_batch, rows3 centre_batch, cols3 centre_batch) = (1, 3, 3)%nat
  /\ exists corr,
       fft_correlate_images cis_small centre_batch centre_batch "circular" false = Ok corr
       /\ (nwin corr, rows3 corr, cols3 corr) = (1, 3, 2)%nat
       /\ map (@length num) (wins corr) = [6%nat].
Proof.
  split; [reflexivity|].
  eexists. split; [vm_compute; reflexivity|].
  split; reflexivity.
Qed.

(** On windows of 4x4 pixels the transforms are exact: the correlation of
    [window4] with itself peaks at the centre [(2, 2)] with the sum of the
    squares, and is symmetric about it. *)
Lemma circular_autocorrelation_window4 :
  fft_correlate_images cis_small window4_batch window4_batch "circular" false
  = Ok (mk_arr3 4 4
          [ints [ 0;  2;   8;  2;
                  1; 17;  39;  8;
                  6; 38; 100; 38;
                  1;  8;  39; 17]%Z]).
Proof.
  vm_compute. apply f_equal. apply f_equal. num_eq.
Qed.

(** ** Configuration errors (C8) *)

(** C8, as far as the code does it by design: when the overlap is not
    smaller than the window on some axis, or the search area is smaller
    than the window on some axis, the pipeline raises [ValueError] at once:
    the record of what was done is unchanged, so no window was extracted
    and nothing was correlated. *)
Theorem size_errors_are_immediate (log : num -> num) (cis : Z -> Z -> cplx)
    (args : piv_args) (done : list event) :
  let w := as_pair (window_size args) in
  let o := as_pair (overlap args) in
  let s := match search_area_size args with
           | None => w
           | Some s => as_pair s
           end in
  (fst w <= fst o \/ snd w <= snd o \/ fst s < fst w \/ snd s < snd w)%Z ->
  exists msg,
    extended_search_area_piv log cis args done = (Raise (ValueError msg), done).
Proof.
  intros w o s H. unfold extended_search_area_piv.
  fold w. fold o. fold s. cbn [fst snd].
  destruct ((fst w <=? fst o) || (snd w <=? snd o))%Z eqn:E1.
  - eexists. reflexivity.
  - destruct ((fst s <? fst w) || (snd s <? snd w))%Z eqn:E2.
    + eexists. reflexivity.
    + exfalso.
      apply orb_false_iff in E1. destruct E1 as [A B].
      apply orb_false_iff in E2. destruct E2 as [C D].
      apply Z.leb_gt in A. apply Z.leb_gt in B.
      apply Z.ltb_ge in C. apply Z.ltb_ge in D. lia.
Qed.

Lemma size_errors_are_immediate_witness :
  exists msg,
    extended_search_area_piv log_rational cis_small
      (mk_piv_args frame4 frame4 (Int 4) (Int 4) (of_Z 1) None "circular" "gaussian" None 2
         false None) []
    = (Raise (ValueError msg), []).
Proof.
  apply (size_errors_are_immediate log_rational cis_small
           (mk_piv_args frame4 frame4 (Int 4) (Int 4) (of_Z 1) None "circular" "gaussian"
              None 2 false None) []).
  left. simpl. lia.
Defined.

(** C8 fails as stated for unsupported method names: a name is checked
    where it is used.  An unsupported sub-pixel method is rejected by the
    displacement assembler, after the windows of both frames were extracted
    and correlated; an unsupported correlation method only prints a message
    in [fft_correlate_images], after both extractions, and the [return corr]
    that follows finds no binding; a signal-to-noise method other than
    [None] is rejected after the whole computation. *)
Lemma unsupported_subpixel_is_reported_late :
  extended_search_area_piv log_rational cis_small (piv_call frame4 frame4 "bogus" None) []
  = (Raise (ValueError "Method not implemented bogus"),
     [Extracted 1; Extracted 1; Correlated 1])
  /\ extended_search_area_piv log_rational cis_small
       (mk_piv_args frame4 frame4 (Int 4) (Int 0) (of_Z 1) None "bogus" "gaussian" None 2
          false None) []
     = (Raise (UnboundLocalError "corr"), [Extracted 1; Extracted 1])
  /\ extended_search_area_piv log_rational cis_small
       (mk_piv_args frame4 frame4 (Int 4) (Int 0) (of_Z 1) None "circular" "gaussian"
          (Some "bogus"%string) 2 false None) []
     = (Raise (NotImplementedError "sig2noise_method is not None"),
        [Extracted 1; Extracted 1; Correlated 1; Converted 1; BadPeaks 0]).
Proof. repeat split; vm_compute; reflexivity. Qed.

(** The test for a window larger than the image is left out of the
    statement above: it compares [window_size[1]] with the number of rows
    and [window_size[0]] with the number of columns.  On a frame of 4 rows
    and 8 columns a window of 4 rows and 8 columns, which fits, is refused,
    and a window of 8 rows and 4 columns, which does not fit, passes the
    test and fails after the (empty) extraction and correlation. *)
Lemma image_size_test_swaps_axes :
  extended_search_area_piv log_rational cis_small
    (mk_piv_args frame8_a frame8_a (Pair (4, 8)%Z) (Int 0) (of_Z 1) None "circular"
       "gaussian" None 2 false None) []
  = (Raise (ValueError "window size cannot be larger than the image"), [])
  /\ get_field_shape (4, 8)%Z (4, 8)%Z (0, 0)%Z = (1, 1)%Z
  /\ extended_search_area_piv log_rational cis_small
       (mk_piv_args frame8_a frame8_a (Pair (8, 4)%Z) (Int 0) (of_Z 1) None "circular"
          "gaussian" None 2 false None) []
     = (Raise (ValueError "cannot reshape array of size 0 into shape (0,newaxis)"),
        [Extracted 0; Extracted 0; Correlated 0]).
Proof. repeat split; vm_compute; reflexivity. Qed.

(** ** Block scheduling (C3) *)

(** C3 fails for a ceiling below the window area: [areas_per_block] is
    [max_array_size // area_size = 0], [num_areas / areas_per_block] is
    infinite and its conversion to [int] raises before any block is
    processed, while the unscheduled call on the same frames returns its
    grids.  It also fails when a block consists of windows that are all
    invalid: on [frame8_a], [frame8_b] with one window per block the second
    block takes the early return of the assembler, whose single array does
    not unpack into [(u, v, invalid)]; the unscheduled call returns grids
    with one bad peak. *)
Lemma block_schedule_fails_where_whole_batch_succeeds :
  extended_search_area_piv log_rational cis_small
    (piv_call frame4 frame4 "gaussian" (Some 1%Z)) []
  = (Raise OverflowError, [])
  /\ (exists u v s,
        extended_search_area_piv log_rational cis_small
          (piv_call frame4 frame4 "gaussian" None) []
        = (Ok (u, v, s),
           [Extracted 1; Extracted 1; Correlated 1; Converted 1; BadPeaks 0]))
  /\ extended_search_area_piv log_rational cis_small
       (piv_call frame8_a frame8_b "parabolic" (Some 16%Z)) []
     = (Raise (ValueError "wrong number of values to unpack"),
        [Extracted 1; Extracted 1; Correlated 1; Converted 1;
         Extracted 1; Extracted 1; Correlated 1; Converted 1])
  /\ (exists u v s,
        extended_search_area_piv log_rational cis_small
          (piv_call frame8_a frame8_b "parabolic" None) []
        = (Ok (u, v, s),
           [Extracted 2; Extracted 2; Correlated 2; Converted 2; BadPeaks 1])).
Proof.
  split; [vm_compute; reflexivity|].
  split; [do 3 eexists; vm_compute; reflexivity|].
  split; [vm_compute; reflexivity|].
  do 3 eexists. vm_compute. reflexivity.
Qed.

(** ** Windows with an interior peak: the displacement formula *)

Lemma nth_map_lt {A B : Type} (f : A -> B) (l : list A) (k : nat) (da : A) (db : B) :
  (k < length l)%nat -> nth k (map f l) db = f (nth k l da).
Proof.
  intros H. rewrite (nth_indep (map f l) db (f da)) by (rewrite length_map; exact H).
  apply map_nth.
Qed.

Lemma nth_combine_lt {A B : Type} (a : list A) (b : list B) (k : nat) (da : A) (db : B) :
  (k < length a)%nat -> (k < length b)%nat ->
  nth k (combine a b) (da, db) = (nth k a da, nth k b db).
Proof.
  revert b k. induction a as [|x a IH]; intros [|y b] [|k] Ha Hb; simpl in *; try lia.
  - reflexivity.
  - apply IH; lia.
Qed.

Lemma nth_map3_lt {A B C D : Type} (f : A -> B -> C -> D)
    (a : list A) (b : list B) (c : list C) (k : nat) (da : A) (db : B) (dc : C) (dd : D) :
  (k < length a)%nat -> (k < length b)%nat -> (k < length c)%nat ->
  nth k (map3 f a b c) dd = f (nth k a da) (nth k b db) (nth k c dc).
Proof.
  intros Ha Hb Hc. unfold map3.
  rewrite (nth_map_lt _ _ k (da, (db, dc)))
    by (rewrite !length_combine; lia).
  rewrite nth_combine_lt by (rewrite ?length_combine; lia).
  rewrite nth_combine_lt by lia. reflexivity.
Qed.

Lemma interior_not_invalid (r c : nat) (peaks : list (Z * Z * Z)) (k : nat) (n i j : Z) :
  nth_error peaks k = Some (n, i, j) ->
  (1 <= i <= Z.of_nat r - 2)%Z -> (1 <= j <= Z.of_nat c - 2)%Z ->
  existsb (Nat.eqb k)
    (invalid_peaks (Z.of_nat r) (Z.of_nat c) 1
       (map (fun p : Z * Z * Z => snd (fst p)) peaks)
       (map (fun p : Z * Z * Z => snd p) peaks)) = false.
Proof.
  intros Hk Hi Hj.
  pose proof (map_nth_error (fun p : Z * Z * Z => snd (fst p)) k peaks Hk) as Ei.
  pose proof (map_nth_error (fun p : Z * Z * Z => snd p) k peaks Hk) as Ej.
  cbn [fst snd] in Ei, Ej.
  destruct (existsb _ _) eqn:E; [|reflexivity]. exfalso.
  apply existsb_eqb_In in E. unfold invalid_peaks in E.
  rewrite !in_app_iff, !in_where in E.
  destruct E as [[x [Hx Hp]] | [[x [Hx Hp]] | [[x [Hx Hp]] | [x [Hx Hp]]]]];
    rewrite ?Ei, ?Ej in Hx; inversion Hx; subst x; apply Z.ltb_lt in Hp; lia.
Qed.

Lemma fallback_membership (st : list (num * num * num * num * num)) (k : nat)
    (d : num * num * num * num * num) :
  (k < length st)%nat ->
  existsb (Nat.eqb k) (gaussian_fallback st)
  = existsb (fun v => leb v zero)
      [st_c (nth k st d); st_cl (nth k st d); st_cr (nth k st d);
       st_cu (nth k st d); st_cd (nth k st d)].
Proof.
  intros Hk.
  assert (Hw : forall f : num * num * num * num * num -> num,
             In k (where_ (fun v => leb v zero) (map f st))
             <-> leb (f (nth k st d)) zero = true).
  { intros f. rewrite in_where. split.
    - intros [x [Hx Hp]].
      rewrite nth_error_map, (nth_error_nth' st d Hk) in Hx.
      inversion Hx; subst x. exact Hp.
    - intros Hp. exists (f (nth k st d)). split; [|exact Hp].
      rewrite nth_error_map, (nth_error_nth' st d Hk). reflexivity. }
  apply eq_true_iff_eq.
  rewrite existsb_eqb_In. unfold gaussian_fallback.
  rewrite !in_app_iff, !Hw. cbn [existsb].
  rewrite !orb_true_iff. intuition congruence.
Qed.

Lemma supported_subpixel_cases (method : string) :
  supported_subpixel method = true ->
  method = "gaussian"%string \/ method = "centroid"%string \/ method = "parabolic"%string.
Proof.
  unfold supported_subpixel. intros H.
  apply orb_true_iff in H. destruct H as [H|H].
  - apply orb_true_iff in H. destruct H as [H|H]; apply String.eqb_eq in H; auto.
  - apply String.eqb_eq in H. auto.
Qed.

Lemma shifts_at (log : num -> num) (method : string) (pi pj : list Z)
    (st : list (num * num * num * num * num)) (k : nat)
    (d : num * num * num * num * num) :
  supported_subpixel method = true ->
  length pi = length st -> length pj = length st -> (k < length st)%nat ->
  let s := nth k st d in
  let fb := existsb (fun v => leb v zero) [st_c s; st_cl s; st_cr s; st_cu s; st_cd s] in
  forall size_i size_j : Z,
    nth k (displacement method size_i pi (fst (subpixel_shifts log method pi pj st))) zero
    = (axis_estimate log method (nth k pi 0%Z) (st_cl s) (st_c s) (st_cr s) fb
       - of_Z (size_i / 2))%num
    /\ nth k (displacement method size_j pj (snd (subpixel_shifts log method pi pj st))) zero
       = (axis_estimate log method (nth k pj 0%Z) (st_cd s) (st_c s) (st_cu s) fb
          - of_Z (size_j / 2))%num.
Proof.
  intros Hs Hi Hj Hk s fb size_i size_j.
  pose proof (fallback_membership st k d Hk) as Hfb. fold s in Hfb. fold fb in Hfb.
  destruct (supported_subpixel_cases method Hs) as [E | [E | E]]; subst method;
    unfold displacement, subpixel_shifts, axis_estimate;
    cbn [String.eqb Ascii.eqb Bool.eqb negb fst snd].
  - (* gaussian *)
    assert (Hg : forall (par gau : num * num * num * num * num -> num),
               nth k (if (1 <=? length (gaussian_fallback st))%nat
                      then copy_at NaN (gaussian_fallback st) (map par st) (map gau st)
                      else map gau st) zero
               = if fb then par s else gau s).
    { intros par gau. destruct (1 <=? length (gaussian_fallback st))%nat eqn:L.
      - rewrite nth_copy_at by (rewrite length_map; exact Hk).
        rewrite Hfb. rewrite (nth_map_lt par st k d NaN Hk), (nth_map_lt gau st k d zero Hk).
        reflexivity.
      - apply Nat.leb_gt in L.
        destruct (gaussian_fallback st) eqn:G; [|simpl in L; lia].
        rewrite <- Hfb. cbn [existsb]. apply (nth_map_lt gau st k d zero Hk). }
    assert (Hl : forall (par gau : num * num * num * num * num -> num),
               length (if (1 <=? length (gaussian_fallback st))%nat
                       then copy_at NaN (gaussian_fallback st) (map par st) (map gau st)
                       else map gau st) = length st).
    { intros par gau. destruct (1 <=? _)%nat; rewrite ?length_copy_at, length_map;
        reflexivity. }
    pose proof (Hg parabolic_i (gaussian_i log)) as Hgi.
    pose proof (Hg parabolic_j (gaussian_j log)) as Hgj.
    pose proof (Hl parabolic_i (gaussian_i log)) as Hli.
    pose proof (Hl parabolic_j (gaussian_j log)) as Hlj.
    clear Hg Hl.
    destruct (1 <=? length (gaussian_fallback st))%nat; cbn [fst snd]; cbn iota in *;
      (split;
       [ rewrite (nth_map_lt _ _ k (0%Z, zero)) by (rewrite length_combine; lia);
         rewrite nth_combine_lt by lia; rewrite Hgi; destruct fb; reflexivity
       | rewrite (nth_map_lt _ _ k (0%Z, zero)) by (rewrite length_combine; lia);
         rewrite nth_combine_lt by lia; rewrite Hgj; destruct fb; reflexivity ]).
  - (* centroid *)
    split.
    + rewrite (nth_map_lt _ _ k zero) by (rewrite length_map, length_combine; lia).
      rewrite (nth_map_lt _ _ k (0%Z, d)) by (rewrite length_combine; lia).
      rewrite nth_combine_lt by lia. reflexivity.
    + rewrite (nth_map_lt _ _ k zero) by (rewrite length_map, length_combine; lia).
      rewrite (nth_map_lt _ _ k (0%Z, d)) by (rewrite length_combine; lia).
      rewrite nth_combine_lt by lia. reflexivity.
  - (* parabolic *)
    split.
    + rewrite (nth_map_lt _ _ k (0%Z, zero)) by (rewrite length_combine, length_map; lia).
      rewrite nth_combine_lt by (rewrite ?length_map; lia).
      rewrite (nth_map_lt _ _ k d) by exact Hk. reflexivity.
    + rewrite (nth_map_lt _ _ k (0%Z, zero)) by (rewrite length_combine, length_map; lia).
      rewrite nth_combine_lt by (rewrite ?length_map; lia).
      rewrite (nth_map_lt _ _ k d) by exact Hk. reflexivity.
Qed.

Lemma interior_window_value (log : num -> num) (n_rows n_cols : option Z) (method : string)
    (first : list (Z * Z * Z) * list num) (corr : batch) (k : nat) (n i j : Z) :
  supported_subpixel method = true ->
  length (fst first) = nwin corr ->
  nth_error (fst first) k = Some (n, i, j) ->
  (1 <= i <= Z.of_nat (rows3 corr) - 2)%Z ->
  (1 <= j <= Z.of_nat (cols3 corr) - 2)%Z ->
  let invalid :=
    invalid_peaks (Z.of_nat (rows3 corr)) (Z.of_nat (cols3 corr)) 1
      (map (fun p : Z * Z * Z => snd (fst p)) (fst first))
      (map (fun p : Z * Z * Z => snd p) (fst first)) in
  length invalid <> nwin corr ->
  reshape_fits n_rows n_cols (nwin corr) ->
  exists d,
    displacements_from_peaks log n_rows n_cols method first corr = Ok d
    /\ disp_at d k
       = window_displacement_spec log method (rows3 corr) (cols3 corr)
           (nth k (wins corr) []) i j
    /\ n_invalid_of d = Some (length invalid).
Proof.
  intros Hs Hl Hk Hi Hj invalid Hne Hfit.
  assert (Hlt : (k < nwin corr)%nat).
  { rewrite <- Hl. apply nth_error_Some. congruence. }
  pose proof (interior_not_invalid _ _ _ k n i j Hk Hi Hj) as Hout. fold invalid in Hout.
  destruct (displacements_from_peaks_lengths log method first corr Hl) as [Hst [Hy Hx]].
  cbv zeta in Hst, Hy, Hx. fold invalid in Hst, Hy, Hx.
  set (pi := set_all invalid (Z.of_nat (rows3 corr) / 2)%Z
               (map (fun p : Z * Z * Z => snd (fst p)) (fst first))) in *.
  set (pj := set_all invalid (Z.of_nat (cols3 corr) / 2)%Z
               (map (fun p : Z * Z * Z => snd p) (fst first))) in *.
  set (st := map3 (stencil (rows3 corr) (cols3 corr)) (wins corr) pi pj) in *.
  assert (Hpi : length pi = nwin corr).
  { subst pi. rewrite length_set_all, length_map. exact Hl. }
  assert (Hpj : length pj = nwin corr).
  { subst pj. rewrite length_set_all, length_map. exact Hl. }
  assert (Epi : nth k pi 0%Z = i).
  { subst pi. rewrite nth_set_all by (rewrite length_map, Hl; exact Hlt).
    rewrite Hout.
    apply (nth_error_nth _ _ 0%Z). apply (map_nth_error (fun p : Z * Z * Z => snd (fst p)) k _ Hk). }
  assert (Epj : nth k pj 0%Z = j).
  { subst pj. rewrite nth_set_all by (rewrite length_map, Hl; exact Hlt).
    rewrite Hout.
    apply (nth_error_nth _ _ 0%Z). apply (map_nth_error (fun p : Z * Z * Z => snd p) k _ Hk). }
  set (d0 := (zero, zero, zero, zero, zero)).
  assert (Est : nth k st d0 = stencil (rows3 corr) (cols3 corr) (nth k (wins corr) []) i j).
  { subst st. rewrite (nth_map3_lt _ _ _ _ k [] 0%Z 0%Z) by (unfold nwin in *; lia).
    rewrite Epi, Epj. reflexivity. }
  destruct (shifts_at log method pi pj st k d0 Hs ltac:(lia) ltac:(lia) ltac:(lia)
              (Z.of_nat (rows3 corr)) (Z.of_nat (cols3 corr))) as [Vy Vx].
  rewrite Est, Epi in Vy. rewrite Est, Epj in Vx.
  unfold displacements_from_peaks. fold invalid. fold pi. fold pj. fold st.
  replace (length invalid =? nwin corr)%nat with false
    by (symmetry; apply Nat.eqb_neq; exact Hne).
  assert (Fx : nth k (set_all invalid NaN
                        (displacement method (Z.of_nat (cols3 corr)) pj
                           (snd (subpixel_shifts log method pi pj st)))) zero
               = fst (window_displacement_spec log method (rows3 corr) (cols3 corr)
                        (nth k (wins corr) []) i j)).
  { rewrite nth_set_all by (rewrite Hx; exact Hlt). rewrite Hout. exact Vx. }
  assert (Fy : nth k (set_all invalid NaN
                        (displacement method (Z.of_nat (rows3 corr)) pi
                           (fst (subpixel_shifts log method pi pj st)))) zero
               = snd (window_displacement_spec log method (rows3 corr) (cols3 corr)
                        (nth k (wins corr) []) i j)).
  { rewrite nth_set_all by (rewrite Hy; exact Hlt). rewrite Hout. exact Vy. }
  destruct n_rows as [r|], n_cols as [c|];
    try (eexists; split; [reflexivity|]; split; [|reflexivity];
         cbn [disp_at]; rewrite Fx, Fy; symmetry; apply surjective_pairing).
  destruct Hfit as [Hr [Hc Hrc]].
  rewrite !reshape2_fits by (rewrite ?length_set_all, ?Hx, ?Hy; assumption).
  eexists. split; [reflexivity|]. split; [|reflexivity].
  cbn [disp_at buf]. rewrite Fx, Fy. symmetry. apply surjective_pairing.
Qed.

(** Where the early return is not taken, the assembler does what C1 says:
    with [invalid] the list built from the peak table of [corr + eps], if
    [len(invalid)] differs from the number of windows (and a requested grid
    shape holds the batch), the call returns [(disp_vx, disp_vy,
    len(invalid))]; a window whose peak is at least [mask_width = 1] away
    from every border gets [peak + shift - floor(size / 2)] on each axis, and
    a window whose peak is on a border gets NaN and is listed in [invalid]. *)
Theorem displacements_without_early_return (log : num -> num) (method : string)
    (e : num) (corr : batch) (n_rows n_cols : option Z)
    (first : list (Z * Z * Z) * list num) :
  supported_subpixel method = true ->
  find_all_first_peaks_val (iadd3 e corr) = Ok first ->
  let invalid :=
    invalid_peaks (Z.of_nat (rows3 corr)) (Z.of_nat (cols3 corr)) 1
      (map (fun p : Z * Z * Z => snd (fst p)) (fst first))
      (map (fun p : Z * Z * Z => snd p) (fst first)) in
  length invalid <> nwin corr ->
  reshape_fits n_rows n_cols (nwin corr) ->
  exists d,
    vectorized_correlation_to_displacements log n_rows n_cols method e corr
    = (Ok d, iadd3 e corr)
    /\ n_invalid_of d = Some (length invalid)
    /\ forall (k : nat) (n i j : Z),
         nth_error (fst first) k = Some (n, i, j) ->
         ((1 <= i <= Z.of_nat (rows3 corr) - 2)%Z ->
          (1 <= j <= Z.of_nat (cols3 corr) - 2)%Z ->
          disp_at d k
          = window_displacement_spec log method (rows3 corr) (cols3 corr)
              (nth k (wins (iadd3 e corr)) []) i j)
         /\ (on_border (rows3 corr) (cols3 corr) i j = true ->
             disp_at d k = (NaN, NaN) /\ In k invalid).
Proof.
  intros Hs Hp invalid Hne Hfit.
  rewrite (assembler_run log n_rows n_cols method e corr first Hs Hp).
  pose proof (first_peaks_length _ _ Hp) as Hl.
  assert (Hn : nwin (iadd3 e corr) = nwin corr).
  { unfold nwin, iadd3. cbn [wins]. apply length_map. }
  assert (Hfit' : reshape_fits n_rows n_cols (nwin (iadd3 e corr)))
    by (rewrite Hn; exact Hfit).
  assert (Hne' : length invalid <> nwin (iadd3 e corr)) by (rewrite Hn; exact Hne).
  destruct (displacements_from_peaks log n_rows n_cols method first (iadd3 e corr))
    as [d|err] eqn:Hd.
  - exists d. split; [reflexivity|]. split.
    + unfold displacements_from_peaks in Hd. cbn [rows3 cols3 iadd3] in Hd.
      fold invalid in Hd.
      replace (length invalid =? nwin (iadd3 e corr))%nat with false in Hd
        by (symmetry; apply Nat.eqb_neq; exact Hne').
      destruct n_rows as [r|], n_cols as [c|]; try (inversion Hd; reflexivity).
      destruct (reshape2 r c _); [|discriminate].
      cbn [rbind] in Hd. destruct (reshape2 r c _); [|discriminate].
      inversion Hd. reflexivity.
    + intros k n i j Hk. split.
      * intros Hi Hj.
        destruct (interior_window_value log n_rows n_cols method first (iadd3 e corr)
                    k n i j Hs Hl Hk Hi Hj Hne' Hfit') as [d' [Hd' [Hv _]]].
        rewrite Hd in Hd'. inversion Hd'; subst d'. exact Hv.
      * intros Hb.
        pose proof (border_in_invalid _ _ _ k n i j Hk Hb) as Hin.
        split; [|exact Hin].
        assert (Hlt : (k < nwin (iadd3 e corr))%nat).
        { rewrite <- Hl. apply nth_error_Some. congruence. }
        destruct (invalid_window_nan log n_rows n_cols method first (iadd3 e corr) k
                    Hl Hin Hlt Hfit') as [d' [Hd' Hv]].
        rewrite Hd in Hd'. inversion Hd'; subst d'. exact Hv.
  - exfalso.
    destruct (first_peaks_inv _ _ Hp) as [Hw _].
    assert (Hex : exists d, displacements_from_peaks log n_rows n_cols method first
                              (iadd3 e corr) = Ok d).
    { unfold displacements_from_peaks. cbn [rows3 cols3 iadd3]. fold invalid.
      replace (length invalid =? nwin (iadd3 e corr))%nat with false
        by (symmetry; apply Nat.eqb_neq; exact Hne').
      destruct (displacements_from_peaks_lengths log method first (iadd3 e corr) Hl)
        as [_ [Hy Hx]].
      cbv zeta in Hy, Hx. cbn [rows3 cols3 iadd3] in Hy, Hx. fold invalid in Hy, Hx.
      destruct n_rows as [r|], n_cols as [c|]; try (eexists; reflexivity).
      destruct Hfit' as [Hr [Hc Hrc]].
      rewrite !reshape2_fits by (rewrite ?length_set_all, ?Hx, ?Hy; assumption).
      eexists. reflexivity. }
    destruct Hex as [d Hd']. congruence.
Qed.

Lemma displacements_without_early_return_witness :
  exists d,
    vectorized_correlation_to_displacements log_rational None None "parabolic" eps mixed_batch
    = (Ok d, iadd3 eps mixed_batch)
    /\ n_invalid_of d = Some 2%nat
    /\ forall (k : nat) (n i j : Z),
         nth_error [(0, 1, 1); (1, 0, 0); (2, 1, 1)]%Z k = Some (n, i, j) ->
         ((1 <= i <= Z.of_nat 3 - 2)%Z ->
          (1 <= j <= Z.of_nat 3 - 2)%Z ->
          disp_at d k
          = window_displacement_spec log_rational "parabolic" 3 3
              (nth k (wins (iadd3 eps mixed_batch)) []) i j)
         /\ (on_border 3 3 i j = true ->
             disp_at d k = (NaN, NaN) /\ In k [1; 1]%nat).
Proof.
  eapply (displacements_without_early_return log_rational "parabolic" eps mixed_batch
            None None ([(0, 1, 1); (1, 0, 0); (2, 1, 1)]%Z, _) eq_refl).
  - vm_compute. reflexivity.
  - vm_compute. lia.
  - exact I.
Defined.

(** ** The loop version of the signal-to-noise evaluator *)

Lemma on_window_unchanged {A : Type} (i : nat) (m : M map2 A) (b : batch) (r : result A) :
  m (window b i) = (r, window b i) -> on_window i m b = (r, b).
Proof.
  intros H. unfold on_window. rewrite H. cbn [buf window].
  rewrite set_nth_same. destruct b; reflexivity.
Qed.

(** A loop whose body stores one value at its own index and leaves the state
    alone. *)
Lemma foldM_set_nth {S : Type} (Q : nat -> num -> Prop)
    (body : list num -> nat -> M S (list num)) (s : S) (l : list nat) :
  (forall acc i, In i l ->
     exists v, body acc i s = (Ok (set_nth i v acc), s) /\ Q i v) ->
  NoDup l ->
  forall acc,
  exists acc',
    foldM body l acc s = (Ok acc', s)
    /\ length acc' = length acc
    /\ (forall i, In i l -> (i < length acc)%nat -> Q i (nth i acc' NaN))
    /\ (forall i, ~ In i l -> nth i acc' NaN = nth i acc NaN).
Proof.
  induction l as [|i l IH]; intros Hb Hnd acc.
  - exists acc. cbn [foldM]. repeat split; auto. intros i [].
  - inversion Hnd as [|? ? Hni Hnd']; subst.
    destruct (Hb acc i (or_introl eq_refl)) as [v [Hv Hq]].
    destruct (IH (fun a j Hj => Hb a j (or_intror Hj)) Hnd' (set_nth i v acc))
      as [acc' [Hrun [Hlen [Hin Hout]]]].
    exists acc'. cbn [foldM]. unfold bind. rewrite Hv.
    split; [exact Hrun|].
    split; [rewrite Hlen; apply length_set_nth|].
    split.
    + intros j [E|Hj] Hlt.
      * subst j. rewrite (Hout i Hni).
        rewrite nth_set_nth by exact Hlt. rewrite Nat.eqb_refl. exact Hq.
      * apply Hin; [exact Hj | rewrite length_set_nth; exact Hlt].
    + intros j Hj. rewrite Hout by (intro; apply Hj; right; assumption).
      destruct (Nat.lt_ge_cases j (length acc)) as [Hlt|Hge].
      * rewrite nth_set_nth by exact Hlt.
        destruct (j =? i)%nat eqn:E; [|reflexivity].
        apply Nat.eqb_eq in E. subst j. exfalso. apply Hj. left; reflexivity.
      * rewrite !nth_overflow; [reflexivity | exact Hge | rewrite length_set_nth; exact Hge].
Qed.

Lemma window_nonempty (corr : batch) (i : nat) :
  (0 < rows3 corr * cols3 corr)%nat -> batch_ok corr -> (i < nwin corr)%nat ->
  buf (window corr i) <> [].
Proof.
  intros Hpos Hok Hi E. unfold window in E. cbn [buf] in E.
  unfold batch_ok in Hok. rewrite Forall_forall in Hok.
  assert (Hin : In (nth i (wins corr) []) (wins corr)) by (apply nth_In; exact Hi).
  specialize (Hok _ Hin). unfold win_ok in Hok. rewrite E in Hok. simpl in Hok. lia.
Qed.

Lemma find_first_peak_val_ok (corr : map2) :
  buf corr <> [] -> exists pk v, find_first_peak_val corr = Ok (pk, v).
Proof.
  intros H. unfold find_first_peak_val. destruct (buf corr); [congruence|].
  eexists. eexists. reflexivity.
Qed.

Lemma find_first_peak_masked_ok (m : mask2) (corr : map2) :
  buf corr <> [] -> exists pk v, find_first_peak_masked m corr = Ok (pk, v).
Proof.
  intros H. unfold find_first_peak_masked. destruct (buf corr); [congruence|].
  eexists. eexists. reflexivity.
Qed.

Lemma div_zero_l (x : num) : (zero / x)%num = zero \/ (zero / x)%num = NaN.
Proof.
  destruct x as [b| | |]; cbn [div zero of_Z]; auto.
  destruct (Qc_eqb b (qc 0 1)).
  - right. reflexivity.
  - left. unfold zero, of_Z. f_equal. rewrite qc_zero. unfold Qcdiv. apply Qcmult_0_l.
Qed.

Lemma nth_nan_to_zero (l : list num) (i : nat) :
  (i < length l)%nat ->
  nth i (nan_to_zero l) NaN = if isnan (nth i l NaN) then zero else nth i l NaN.
Proof.
  intros H. unfold nan_to_zero.
  apply (nth_map_lt (fun x => if isnan x then zero else x) l i NaN NaN H).
Qed.

Lemma nan_to_zero_no_nan (l : list num) : Forall (fun x => isnan x = false) (nan_to_zero l).
Proof.
  unfold nan_to_zero. apply Forall_forall. intros x H.
  apply in_map_iff in H. destruct H as [y [E _]]. subst x.
  destruct (isnan y) eqn:N; [reflexivity | exact N].
Qed.

Lemma peak2peak_body_runs (shape : nat * nat) (width : Z) (acc : list num) (i : nat)
    (corr : map2) :
  buf corr <> [] ->
  exists v,
    (p1 <- find_first_peak ;;
     let peak1_i := fst (fst p1) in
     let peak1_j := snd (fst p1) in
     let corr_max1_i := snd p1 in
     let condition :=
       ltb corr_max1_i snr_floor
       || on_border (fst shape) (snd shape) peak1_i peak1_j in
     if condition then ret (set_nth i zero acc)
     else
       (p2 <- find_second_peak (Some peak1_i) (Some peak1_j) width ;;
        let corr_max2 := snd p2 in
        let border_condition :=
          on_border (fst shape) (snd shape) (fst (fst p2)) (snd (fst p2)) in
        let condition :=
          eqb corr_max2 zero
          || (border_condition
              && gtb corr_max2 (one_half * corr_max1_i)%num) in
        let corr_max2 := if condition then NaN else corr_max2 in
        ret (set_nth i (corr_max1_i / corr_max2)%num acc)))%M corr
    = (Ok (set_nth i v acc), corr)
    /\ forall pk v1,
         find_first_peak_val corr = Ok (pk, v1) ->
         ltb v1 snr_floor || on_border (fst shape) (snd shape) (fst pk) (snd pk) = true ->
         v = zero.
Proof.
  intros Hne.
  destruct (find_first_peak_val_ok corr Hne) as [pk [v1 Hp]].
  destruct (ltb v1 snr_floor || on_border (fst shape) (snd shape) (fst pk) (snd pk))
    eqn:Hc.
  - exists zero. split.
    + apply (peak2peak_loop_body_zero shape width acc i corr pk v1 Hp Hc).
    + reflexivity.
  - unfold bind at 1. unfold find_first_peak, lift. rewrite Hp. cbn [fst snd].
    rewrite Hc.
    unfold find_second_peak, bind, ret, reads, lift.
    match goal with
    | |- context [find_first_peak_masked ?m corr] =>
        destruct (find_first_peak_masked_ok m corr Hne) as [pk2 [v2 Hp2]]; rewrite Hp2
    end.
    eexists. split; [reflexivity|].
    intros pk' v1' Hp' Hc'. try rewrite Hp in Hp'. inversion Hp'; subst pk' v1'. congruence.
Qed.

Lemma peak2mean_body_runs (shape : nat * nat) (acc : list num) (i : nat) (corr : map2) :
  buf corr <> [] ->
  exists v,
    (p1 <- find_first_peak ;;
     let condition :=
       ltb (snd p1) snr_floor
       || on_border (fst shape) (snd shape) (fst (fst p1)) (snd (fst p1)) in
     ret (set_nth i (if condition then zero else snd p1) acc))%M corr
    = (Ok (set_nth i v acc), corr)
    /\ forall pk v1,
         find_first_peak_val corr = Ok (pk, v1) ->
         ltb v1 snr_floor || on_border (fst shape) (snd shape) (fst pk) (snd pk) = true ->
         v = zero.
Proof.
  intros Hne.
  destruct (find_first_peak_val_ok corr Hne) as [pk [v1 Hp]].
  unfold bind, find_first_peak, lift, ret. rewrite Hp. cbn [fst snd].
  eexists. split; [reflexivity|].
  intros pk' v1' Hp' Hc'. try rewrite Hp in Hp'. inversion Hp'; subst pk' v1'.
  rewrite Hc'. reflexivity.
Qed.

(** The loop version does what C7 says: on a batch of non-empty maps, for
    both methods, it returns one ratio per window, none of them NaN, and
    exactly [0] for every window whose first-peak amplitude is below [1e-3]
    or whose first peak lies on a border, whatever else the maps hold; the
    correlation array is left as it was. *)
Theorem sig2noise_ratio_zero_and_never_nan (method : string) (width : Z) (corr : batch) :
  method = "peak2peak"%string \/ method = "peak2mean"%string ->
  (0 < rows3 corr * cols3 corr)%nat ->
  batch_ok corr ->
  exists ratios,
    sig2noise_ratio method width corr = (Ok ratios, corr)
    /\ length ratios = nwin corr
    /\ Forall (fun x => isnan x = false) ratios
    /\ forall (i : nat) (pk : Z * Z) (v : num),
         (i < nwin corr)%nat ->
         find_first_peak_val (window corr i) = Ok (pk, v) ->
         ltb v snr_floor
         || on_border (rows3 corr) (cols3 corr) (fst pk) (snd pk) = true ->
         nth i ratios NaN = zero.
Proof.
  intros Hm Hpos Hok.
  set (Q := fun (i : nat) (x : num) =>
              forall pk v1, find_first_peak_val (window corr i) = Ok (pk, v1) ->
                ltb v1 snr_floor
                || on_border (rows3 corr) (cols3 corr) (fst pk) (snd pk) = true ->
                x = zero).
  destruct Hm as [E|E]; subst method; unfold sig2noise_ratio;
    cbn [String.eqb Ascii.eqb Bool.eqb].
  - (* peak2peak *)
    unfold bind at 1. cbn [reads]. unfold bind at 1. cbn [reads fst snd].
    match goal with
    | |- context [foldM ?body (seq 0 (nwin corr)) ?a0] =>
        destruct (foldM_set_nth Q body corr (seq 0 (nwin corr))) with (acc := a0)
          as [acc' [Hrun [Hlen [Hin _]]]]
    end.
    + intros acc i Hi. apply in_seq in Hi.
      destruct (peak2peak_body_runs (rows3 corr, cols3 corr) width acc i (window corr i))
        as [v [Hv Hq]].
      { apply window_nonempty; [assumption | assumption | lia]. }
      exists v. split; [|exact Hq].
      apply on_window_unchanged. exact Hv.
    + apply seq_NoDup.
    + unfold bind at 1. rewrite Hrun. cbn [ret].
      rewrite repeat_length in Hlen.
      exists (nan_to_zero acc'). split; [reflexivity|].
      split; [unfold nan_to_zero; rewrite length_map; exact Hlen|].
      split; [apply nan_to_zero_no_nan|].
      intros i pk v Hi Hp Hc.
      rewrite nth_nan_to_zero by lia.
      rewrite (Hin i) with (pk := pk) (v1 := v); try assumption.
      * reflexivity.
      * apply in_seq. lia.
      * rewrite repeat_length. exact Hi.
  - (* peak2mean *)
    unfold bind at 1. cbn [reads]. unfold bind at 1. cbn [reads fst snd].
    match goal with
    | |- context [foldM ?body (seq 0 (nwin corr)) ?a0] =>
        destruct (foldM_set_nth Q body corr (seq 0 (nwin corr))) with (acc := a0)
          as [acc' [Hrun [Hlen [Hin _]]]]
    end.
    + intros acc i Hi. apply in_seq in Hi.
      destruct (peak2mean_body_runs (rows3 corr, cols3 corr) acc i (window corr i))
        as [v [Hv Hq]].
      { apply window_nonempty; [assumption | assumption | lia]. }
      exists v. split; [|exact Hq].
      apply on_window_unchanged. exact Hv.
    + apply seq_NoDup.
    + unfold bind at 1. rewrite Hrun. unfold bind, reads, ret.
      rewrite repeat_length in Hlen.
      eexists. split; [reflexivity|].
      assert (Hl2 : length (map (fun '(a, b) => (a / b)%num)
                              (combine acc'
                                 (map (fun m => if eqb m zero then NaN else m)
                                      (map (fun w => absn (mean w)) (wins corr)))))
                    = nwin corr).
      { rewrite length_map, length_combine, !length_map. unfold nwin in *. lia. }
      split; [unfold nan_to_zero; rewrite length_map; exact Hl2|].
      split; [apply nan_to_zero_no_nan|].
      intros i pk v Hi Hp Hc.
      rewrite nth_nan_to_zero by lia.
      rewrite (nth_map_lt _ _ i (NaN, NaN))
        by (rewrite length_combine, !length_map; unfold nwin in *; lia).
      rewrite nth_combine_lt by (rewrite ?length_map; unfold nwin in *; lia).
      rewrite (Hin i) with (pk := pk) (v1 := v); try assumption.
      * destruct (div_zero_l (nth i (map (fun m => if eqb m zero then NaN else m)
                                       (map (fun w => absn (mean w)) (wins corr))) NaN))
          as [D|D]; rewrite D; reflexivity.
      * apply in_seq. lia.
      * rewrite repeat_length. exact Hi.
Qed.

Lemma sig2noise_ratio_zero_and_never_nan_witness :
  exists ratios,
    sig2noise_ratio "peak2peak" 2 snr_batch = (Ok ratios, snr_batch)
    /\ length ratios = 2%nat
    /\ Forall (fun x => isnan x = false) ratios
    /\ forall (i : nat) (pk : Z * Z) (v : num),
         (i < 2)%nat ->
         find_first_peak_val (window snr_batch i) = Ok (pk, v) ->
         ltb v snr_floor || on_border 5 5 (fst pk) (snd pk) = true ->
         nth i ratios NaN = zero.
Proof.
  apply (sig2noise_ratio_zero_and_never_nan "peak2peak" 2 snr_batch).
  - left. reflexivity.
  - simpl. lia.
  - repeat constructor.
Defined.

(** ** The assembler, window by window *)

Lemma length_filter_combine_seq {A : Type} (p : A -> bool) (a : list A) (s : nat) :
  length (filter (fun ix : nat * A => p (snd ix)) (combine (seq s (length a)) a))
  = length (filter p a).
Proof.
  revert s. induction a as [|x a IH]; intros s; simpl; [reflexivity|].
  destruct (p x); simpl; rewrite IH; reflexivity.
Qed.

Lemma length_where {A : Type} (p : A -> bool) (a : list A) :
  length (where_ p a) = length (filter p a).
Proof.
  unfold where_. rewrite length_map. apply length_filter_combine_seq.
Qed.

Lemma length_filter_map {A B : Type} (p : B -> bool) (f : A -> B) (l : list A) :
  length (filter p (map f l))
  = list_sum (map (fun x => if p (f x) then 1%nat else 0%nat) l).
Proof.
  induction l as [|x l IH]; simpl; [reflexivity|].
  destruct (p (f x)); simpl; rewrite IH; reflexivity.
Qed.

Lemma list_sum_map_add {A : Type} (f g : A -> nat) (l : list A) :
  (list_sum (map f l) + list_sum (map g l))%nat
  = list_sum (map (fun x => (f x + g x)%nat) l).
Proof.
  induction l as [|x l IH]; simpl; [reflexivity|]. rewrite <- IH. lia.
Qed.

Lemma invalid_length (r c : nat) (peaks : list (Z * Z * Z)) :
  length (invalid_peaks (Z.of_nat r) (Z.of_nat c) 1
            (map (fun p : Z * Z * Z => snd (fst p)) peaks)
            (map (fun p : Z * Z * Z => snd p) peaks))
  = list_sum (map (fun p : Z * Z * Z => border_hits r c (snd (fst p)) (snd p)) peaks).
Proof.
  unfold invalid_peaks. rewrite !length_app, !length_where, !length_filter_map.
  rewrite Nat.add_assoc, Nat.add_assoc.
  rewrite !list_sum_map_add. reflexivity.
Qed.

Lemma peaks_of_windows (b : batch) (first : list (Z * Z * Z) * list num) :
  find_all_first_peaks_val b = Ok first ->
  map (fun p : Z * Z * Z => (snd (fst p), snd p)) (fst first)
  = map (fun w => unravel_index (argmax w) (cols3 b)) (wins b).
Proof.
  intros H. destruct (first_peaks_inv b first H) as [_ [_ [E _]]]. rewrite E.
  clear E H. rewrite map_map. unfold nwin.
  generalize 0%nat. induction (wins b) as [|w ws IH]; intros s; simpl; [reflexivity|].
  rewrite IH. reflexivity.
Qed.

Lemma hits_of_windows (b : batch) (first : list (Z * Z * Z) * list num) :
  find_all_first_peaks_val b = Ok first ->
  map (fun p : Z * Z * Z => border_hits (rows3 b) (cols3 b) (snd (fst p)) (snd p)) (fst first)
  = map (window_hits (rows3 b) (cols3 b)) (wins b).
Proof.
  intros H. pose proof (peaks_of_windows b first H) as E.
  apply (f_equal (map (fun ij : Z * Z => border_hits (rows3 b) (cols3 b) (fst ij) (snd ij))))
    in E.
  rewrite !map_map in E. exact E.
Qed.

Lemma border_hits_zero (r c : nat) (i j : Z) :
  border_hits r c i j = 0%nat
  <-> (1 <= i <= Z.of_nat r - 2)%Z /\ (1 <= j <= Z.of_nat c - 2)%Z.
Proof.
  unfold border_hits.
  destruct (i <? 1)%Z eqn:A; destruct (Z.of_nat r - 1 - 1 <? i)%Z eqn:B;
    destruct (j <? 1 - 0)%Z eqn:C; destruct (Z.of_nat c - 1 - 1 <? j)%Z eqn:D;
    rewrite ?Z.ltb_lt, ?Z.ltb_ge in *; split; intros H; simpl in *; lia.
Qed.

Lemma border_hits_in_invalid (r c : nat) (peaks : list (Z * Z * Z)) (k : nat) (n i j : Z) :
  nth_error peaks k = Some (n, i, j) ->
  border_hits r c i j <> 0%nat ->
  In k (invalid_peaks (Z.of_nat r) (Z.of_nat c) 1
          (map (fun p : Z * Z * Z => snd (fst p)) peaks)
          (map (fun p : Z * Z * Z => snd p) peaks)).
Proof.
  intros Hk Hh.
  pose proof (map_nth_error (fun p : Z * Z * Z => snd (fst p)) k peaks Hk) as Hi.
  pose proof (map_nth_error (fun p : Z * Z * Z => snd p) k peaks Hk) as Hj.
  cbn [fst snd] in Hi, Hj.
  unfold invalid_peaks. rewrite !in_app_iff, !in_where.
  unfold border_hits in Hh.
  destruct (i <? 1)%Z eqn:A; [left; exists i; split; assumption|].
  destruct (Z.of_nat r - 1 - 1 <? i)%Z eqn:B; [right; left; exists i; split; assumption|].
  destruct (j <? 1 - 0)%Z eqn:C; [right; right; left; exists j; split; assumption|].
  destruct (Z.of_nat c - 1 - 1 <? j)%Z eqn:D; [right; right; right; exists j; split; assumption|].
  simpl in Hh. congruence.
Qed.

Lemma peak_entry (b : batch) (first : list (Z * Z * Z) * list num) (k : nat) :
  find_all_first_peaks_val b = Ok first ->
  (k < nwin b)%nat ->
  exists n,
    nth_error (fst first) k
    = Some (n, fst (unravel_index (argmax (nth k (wins b) [])) (cols3 b)),
               snd (unravel_index (argmax (nth k (wins b) [])) (cols3 b))).
Proof.
  intros H Hk.
  pose proof (peaks_of_windows b first H) as E.
  pose proof (first_peaks_length b first H) as Hl.
  destruct (nth_error (fst first) k) as [[[n i] j]|] eqn:N.
  - exists n.
    pose proof (map_nth_error (fun p : Z * Z * Z => (snd (fst p), snd p)) k _ N) as M1.
    rewrite E in M1. cbn [fst snd] in M1.
    rewrite nth_error_map, (nth_error_nth' (wins b) [] Hk) in M1.
    cbn [option_map] in M1. injection M1 as M2 M3. subst i j. reflexivity.
  - exfalso. apply nth_error_None in N. lia.
Qed.

Lemma displacements_flat_form (log : num -> num) (method : string)
    (first : list (Z * Z * Z) * list num) (corr : batch) :
  length (fst first) = nwin corr ->
  let invalid :=
    invalid_peaks (Z.of_nat (rows3 corr)) (Z.of_nat (cols3 corr)) 1
      (map (fun p : Z * Z * Z => snd (fst p)) (fst first))
      (map (fun p : Z * Z * Z => snd p) (fst first)) in
  length invalid <> nwin corr ->
  exists vx vy,
    displacements_from_peaks log None None method first corr
    = Ok (Flat vx vy (length invalid))
    /\ length vx = nwin corr /\ length vy = nwin corr.
Proof.
  intros Hl invalid Hne.
  destruct (displacements_from_peaks_lengths log method first corr Hl) as [_ [Hy Hx]].
  cbv zeta in Hy, Hx. fold invalid in Hy, Hx.
  unfold displacements_from_peaks. fold invalid.
  replace (length invalid =? nwin corr)%nat with false
    by (symmetry; apply Nat.eqb_neq; exact Hne).
  eexists. eexists. split; [reflexivity|].
  rewrite !length_set_all. split; assumption.
Qed.

(** The regular return of the assembler is a map over the windows. *)
Lemma displacements_windowwise (log : num -> num) (method : string)
    (first : list (Z * Z * Z) * list num) (corr : batch) :
  supported_subpixel method = true ->
  find_all_first_peaks_val corr = Ok first ->
  displacements_from_peaks log None None method first corr
  = if (list_sum (map (window_hits (rows3 corr) (cols3 corr)) (wins corr)) =? nwin corr)%nat
    then Ok (AllNaN (repeat (NaN, NaN) (nwin corr)))
    else Ok (Flat
               (map (fun w => fst (window_displacement log method (rows3 corr) (cols3 corr) w))
                    (wins corr))
               (map (fun w => snd (window_displacement log method (rows3 corr) (cols3 corr) w))
                    (wins corr))
               (list_sum (map (window_hits (rows3 corr) (cols3 corr)) (wins corr)))).
Proof.
  intros Hs Hp.
  pose proof (first_peaks_length corr first Hp) as Hl.
  pose proof (invalid_length (rows3 corr) (cols3 corr) (fst first)) as Hinv.
  rewrite (hits_of_windows corr first Hp) in Hinv.
  set (invalid := invalid_peaks (Z.of_nat (rows3 corr)) (Z.of_nat (cols3 corr)) 1
                    (map (fun p : Z * Z * Z => snd (fst p)) (fst first))
                    (map (fun p : Z * Z * Z => snd p) (fst first))) in *.
  rewrite <- Hinv.
  destruct (length invalid =? nwin corr)%nat eqn:E.
  - unfold displacements_from_peaks. fold invalid. rewrite E. reflexivity.
  - apply Nat.eqb_neq in E.
    destruct (displacements_flat_form log method first corr Hl E) as [vx [vy [Hd [Hx Hy]]]].
    fold invalid in Hd. rewrite Hd. apply f_equal.
    assert (Hk : forall k, (k < nwin corr)%nat ->
               (nth k vx zero, nth k vy zero)
               = window_displacement log method (rows3 corr) (cols3 corr)
                   (nth k (wins corr) [])).
    { intros k Hlt.
      destruct (peak_entry corr first k Hp Hlt) as [n Hn].
      set (i := fst (unravel_index (argmax (nth k (wins corr) [])) (cols3 corr))) in *.
      set (j := snd (unravel_index (argmax (nth k (wins corr) [])) (cols3 corr))) in *.
      unfold window_displacement. cbv zeta. fold i. fold j.
      destruct (border_hits (rows3 corr) (cols3 corr) i j =? 0)%nat eqn:B.
      - apply Nat.eqb_eq, border_hits_zero in B. destruct B as [Bi Bj].
        destruct (interior_window_value log None None method first corr k n i j
                    Hs Hl Hn Bi Bj E I) as [d [Hd' [Hv _]]].
        rewrite Hd in Hd'. injection Hd' as Hd'. subst d. exact Hv.
      - apply Nat.eqb_neq in B.
        pose proof (border_hits_in_invalid _ _ _ k n i j Hn B) as Hin.
        destruct (invalid_window_nan log None None method first corr k Hl Hin Hlt I)
          as [d [Hd' Hv]].
        rewrite Hd in Hd'. injection Hd' as Hd'. subst d. exact Hv. }
    f_equal.
    + apply (nth_ext _ _ zero zero).
      * rewrite Hx, length_map. reflexivity.
      * intros k Hlt. rewrite Hx in Hlt.
        rewrite (nth_map_lt _ _ k [] zero) by exact Hlt.
        rewrite <- (Hk k Hlt). reflexivity.
    + apply (nth_ext _ _ zero zero).
      * rewrite Hy, length_map. reflexivity.
      * intros k Hlt. rewrite Hy in Hlt.
        rewrite (nth_map_lt _ _ k [] zero) by exact Hlt.
        rewrite <- (Hk k Hlt). reflexivity.
Qed.

(** ** Slices *)

Lemma slice_map {A B : Type} (f : A -> B) (b0 b1 : Z) (l : list A) :
  slice b0 b1 (map f l) = map f (slice b0 b1 l).
Proof.
  unfold slice. rewrite length_map, skipn_map, firstn_map. reflexivity.
Qed.

Lemma combine_skipn {A B : Type} (n : nat) (a : list A) (b : list B) :
  skipn n (combine a b) = combine (skipn n a) (skipn n b).
Proof.
  revert a b. induction n as [|n IH]; intros a b; [reflexivity|].
  destruct a as [|x a]; [reflexivity|].
  destruct b as [|y b]; [simpl; destruct (skipn n a); reflexivity|].
  simpl. apply IH.
Qed.

Lemma slice_combine {A B : Type} (b0 b1 : Z) (a : list A) (b : list B) :
  length a = length b ->
  slice b0 b1 (combine a b) = combine (slice b0 b1 a) (slice b0 b1 b).
Proof.
  intros H. unfold slice. rewrite length_combine, <- H, Nat.min_id.
  rewrite combine_skipn, combine_firstn. reflexivity.
Qed.

Lemma length_slice_eq {A B : Type} (b0 b1 : Z) (a : list A) (b : list B) :
  length a = length b -> length (slice b0 b1 a) = length (slice b0 b1 b).
Proof.
  intros H. unfold slice. rewrite !length_firstn, !length_skipn, H. reflexivity.
Qed.

(** A block [[lo, hi)] given by two natural numbers. *)
Lemma slice_nat {A : Type} (lo hi : nat) (l : list A) :
  slice (Z.of_nat lo) (Z.of_nat hi) l
  = firstn (Nat.min hi (length l) - Nat.min lo (length l)) (skipn (Nat.min lo (length l)) l).
Proof.
  unfold slice, slice_bound.
  replace (Z.of_nat lo <? 0)%Z with false by (symmetry; apply Z.ltb_ge; lia).
  replace (Z.of_nat hi <? 0)%Z with false by (symmetry; apply Z.ltb_ge; lia).
  rewrite !Nat2Z.id. reflexivity.
Qed.

Lemma firstn_add_skipn {A : Type} (a b : nat) (l : list A) :
  firstn a l ++ firstn b (skipn a l) = firstn (a + b) l.
Proof.
  revert l. induction a as [|a IH]; intros l; [reflexivity|].
  destruct l as [|x l]; [simpl; destruct b; reflexivity|].
  simpl. f_equal. apply IH.
Qed.

Lemma skipn_repeat {A : Type} (x : A) (n k : nat) :
  skipn k (repeat x n) = repeat x (n - k).
Proof.
  revert n. induction k as [|k IH]; intros n.
  - rewrite Nat.sub_0_r. reflexivity.
  - destruct n as [|n]; [reflexivity|]. simpl. apply IH.
Qed.

(** Writing block [[lo, hi)] of [U] into an array that already holds the
    first [lo] entries of [U]. *)
Lemma assign_slice_step {A : Type} (d : A) (U : list A) (lo hi : nat) :
  (lo <= hi)%nat -> (lo <= length U)%nat ->
  assign_slice (Z.of_nat lo) (Z.of_nat hi)
    (slice (Z.of_nat lo) (Z.of_nat hi) U)
    (firstn lo U ++ repeat d (length U - lo))
  = Ok (firstn (Nat.min hi (length U)) U ++ repeat d (length U - Nat.min hi (length U))).
Proof.
  intros Hle Hlo.
  assert (Hlen : length (firstn lo U ++ repeat d (length U - lo)) = length U).
  { rewrite length_app, length_firstn, repeat_length. lia. }
  unfold assign_slice. rewrite Hlen.
  unfold slice_bound.
  replace (Z.of_nat lo <? 0)%Z with false by (symmetry; apply Z.ltb_ge; lia).
  replace (Z.of_nat hi <? 0)%Z with false by (symmetry; apply Z.ltb_ge; lia).
  rewrite !Nat2Z.id, slice_nat.
  rewrite (Nat.min_l lo (length U)) by exact Hlo.
  set (h := Nat.min hi (length U)).
  assert (Hh : (lo <= h <= length U)%nat) by (subst h; lia).
  rewrite length_firstn, length_skipn.
  replace (Nat.min (h - lo) (length U - lo) =? h - lo)%nat with true
    by (symmetry; apply Nat.eqb_eq; lia).
  f_equal.
  replace (lo + (h - lo))%nat with h by lia.
  rewrite firstn_app, firstn_firstn, Nat.min_id.
  rewrite length_firstn, (Nat.min_l lo (length U)) by lia.
  rewrite Nat.sub_diag. cbn [firstn]. rewrite app_nil_r.
  rewrite skipn_app, length_firstn, (Nat.min_l lo (length U)) by lia.
  rewrite (skipn_all2 (firstn lo U)) by (rewrite length_firstn; lia).
  cbn [app]. rewrite skipn_repeat.
  rewrite app_assoc, firstn_add_skipn.
  replace (lo + (h - lo))%nat with h by lia.
  replace (length U - lo - (h - lo))%nat with (length U - h)%nat by lia.
  reflexivity.
Qed.

Lemma list_sum_firstn_step (H : list nat) (lo hi : nat) :
  (lo <= hi)%nat -> (lo <= length H)%nat ->
  (list_sum (firstn lo H) + list_sum (slice (Z.of_nat lo) (Z.of_nat hi) H))%nat
  = list_sum (firstn (Nat.min hi (length H)) H).
Proof.
  intros Hle Hlo. rewrite slice_nat, (Nat.min_l lo (length H)) by exact Hlo.
  rewrite <- list_sum_app, firstn_add_skipn. f_equal. f_equal. lia.
Qed.

(** ** Blocks of windows *)

Lemma meshgrid_buf_lengths {A : Type} (x y : list A) :
  length (buf (fst (meshgrid x y))) = length (buf (snd (meshgrid x y))).
Proof.
  unfold meshgrid. cbn [fst snd buf].
  induction y as [|v y IH]; [reflexivity|].
  cbn [map concat]. rewrite !length_app, IH, repeat_length. reflexivity.
Qed.

Lemma get_rect_coordinates_buf_lengths (image_size : Z * Z) (w o : int_or_pair)
    (centre : bool) (xy : arr2 num * arr2 num) :
  get_rect_coordinates image_size w o centre = Ok xy ->
  length (buf (fst xy)) = length (buf (snd xy)).
Proof.
  unfold get_rect_coordinates. intros H.
  destruct (first_row _) as [x0|]; [|discriminate]. cbn [rbind] in H.
  destruct (first_col _ _) as [y0|]; [|discriminate]. cbn [rbind] in H.
  inversion H. apply meshgrid_buf_lengths.
Qed.

(** The extractor with a block range returns the block of the windows it
    returns without one. *)
Lemma sliding_window_array_block (img : image) (w o : Z * Z) (b0 b1 : Z) (A : batch) :
  sliding_window_array img w o None = Ok A ->
  sliding_window_array img w o (Some (b0, b1)) = Ok (block_of b0 b1 A).
Proof.
  unfold sliding_window_array. intros H.
  destruct (get_rect_coordinates _ _ _ _) as [xy|] eqn:E; [|discriminate].
  cbn [rbind] in *. inversion H; subst A. clear H.
  unfold block_of. cbn [rows3 cols3 wins]. f_equal. f_equal.
  rewrite (slice_map _ b0 b1 (combine _ _)), slice_combine.
  - reflexivity.
  - rewrite !length_map. symmetry. apply (get_rect_coordinates_buf_lengths _ _ _ _ _ E).
Qed.

(** The correlator acts on each pair of windows: correlating two blocks
    gives the block of the correlation. *)
Lemma fft_correlate_images_block (cis : Z -> Z -> cplx) (A B Cr : batch)
    (method : string) (normalized : bool) (b0 b1 : Z) :
  fft_correlate_images cis A B method normalized = Ok Cr ->
  fft_correlate_images cis (block_of b0 b1 A) (block_of b0 b1 B) method normalized
  = Ok (block_of b0 b1 Cr).
Proof.
  unfold fft_correlate_images. intros H.
  destruct normalized; [discriminate|].
  destruct (String.eqb method "linear"); [discriminate|].
  destruct (String.eqb method "circular"); [|discriminate].
  cbn [block_of rows3 cols3].
  destruct ((rows3 A =? 0) || (cols3 A =? 0) || (rows3 B =? 0) || (cols3 B =? 0))%nat;
    [discriminate|].
  destruct ((rows3 A =? rows3 B) && (cols3 A =? cols3 B) && (nwin A =? nwin B))%nat eqn:E;
    [|discriminate].
  cbn [negb] in H.
  apply andb_true_iff in E. destruct E as [E En]. apply Nat.eqb_eq in En.
  rewrite E. cbn [andb].
  assert (En' : nwin (block_of b0 b1 A) = nwin (block_of b0 b1 B)).
  { unfold nwin, block_of. cbn [wins]. apply length_slice_eq. exact En. }
  rewrite En', Nat.eqb_refl. cbn [negb].
  destruct (2 * (cols3 A / 2) =? 0)%nat; [discriminate|].
  inversion H; subst Cr. clear H. unfold block_of. cbn [rows3 cols3 wins].
  f_equal. f_equal. rewrite slice_map, slice_combine by exact En. reflexivity.
Qed.

Lemma iadd3_block (e : num) (b0 b1 : Z) (corr : batch) :
  iadd3 e (block_of b0 b1 corr) = block_of b0 b1 (iadd3 e corr).
Proof.
  unfold iadd3, block_of. cbn [rows3 cols3 wins]. rewrite slice_map. reflexivity.
Qed.

Lemma find_all_first_peaks_val_ok (corr : batch) :
  wins corr <> [] -> (rows3 corr * cols3 corr <> 0)%nat ->
  exists first, find_all_first_peaks_val corr = Ok first.
Proof.
  intros Hw Hs. unfold find_all_first_peaks_val.
  destruct (wins corr); [congruence|].
  replace (rows3 corr * cols3 corr =? 0)%nat with false
    by (symmetry; apply Nat.eqb_neq; exact Hs).
  eexists. reflexivity.
Qed.

Lemma displacements_grid_of_flat (log : num -> num) (r c : Z) (method : string)
    (first : list (Z * Z * Z) * list num) (corr : batch) :
  displacements_from_peaks log (Some r) (Some c) method first corr
  = match displacements_from_peaks log None None method first corr with
    | Ok (Flat vx vy k) =>
        (gx <- reshape2 r c vx ;; gy <- reshape2 r c vy ;; Ok (Grid gx gy k))%result
    | other => other
    end.
Proof.
  unfold displacements_from_peaks.
  destruct (length _ =? nwin corr)%nat; reflexivity.
Qed.

(** What the assembler returns, as a function of the windows of the
    eps-shifted batch. *)
Lemma assembler_flat_run (log : num -> num) (method : string) (e : num) (corr : batch) :
  supported_subpixel method = true ->
  wins corr <> [] -> (rows3 corr * cols3 corr <> 0)%nat ->
  let ws := wins (iadd3 e corr) in
  let hits := map (window_hits (rows3 corr) (cols3 corr)) ws in
  fst (vectorized_correlation_to_displacements log None None method e corr)
  = if (list_sum hits =? nwin corr)%nat
    then Ok (AllNaN (repeat (NaN, NaN) (nwin corr)))
    else Ok (Flat
               (map (fun w => fst (window_displacement log method (rows3 corr) (cols3 corr) w)) ws)
               (map (fun w => snd (window_displacement log method (rows3 corr) (cols3 corr) w)) ws)
               (list_sum hits)).
Proof.
  intros Hs Hw Hsz ws hits.
  assert (Hn : nwin (iadd3 e corr) = nwin corr).
  { unfold nwin, iadd3. cbn [wins]. apply length_map. }
  destruct (find_all_first_peaks_val_ok (iadd3 e corr)) as [first Hp].
  { unfold iadd3. cbn [wins]. destruct (wins corr); [congruence | discriminate]. }
  { exact Hsz. }
  rewrite (assembler_run log None None method e corr first Hs Hp). cbn [fst].
  rewrite (displacements_windowwise log method first (iadd3 e corr) Hs Hp).
  rewrite Hn. reflexivity.
Qed.

Lemma assembler_grid_run (log : num -> num) (r c : Z) (method : string) (e : num)
    (corr : batch) :
  supported_subpixel method = true ->
  wins corr <> [] -> (rows3 corr * cols3 corr <> 0)%nat ->
  fst (vectorized_correlation_to_displacements log (Some r) (Some c) method e corr)
  = match fst (vectorized_correlation_to_displacements log None None method e corr) with
    | Ok (Flat vx vy k) =>
        (gx <- reshape2 r c vx ;; gy <- reshape2 r c vy ;; Ok (Grid gx gy k))%result
    | other => other
    end.
Proof.
  intros Hs Hw Hsz.
  destruct (find_all_first_peaks_val_ok (iadd3 e corr)) as [first Hp].
  { unfold iadd3. cbn [wins]. destruct (wins corr); [congruence | discriminate]. }
  { exact Hsz. }
  rewrite !(assembler_run log _ _ method e corr first Hs Hp). cbn [fst].
  apply displacements_grid_of_flat.
Qed.

(** ** One pass of the pipeline *)

Lemma correlate_block_run (log : num -> num) (cis : Z -> Z -> cplx) (args : piv_args)
    (s o : Z * Z) (range : option (Z * Z)) (nr nc : option Z)
    (A B Cr : batch) (d : displacements) (done : list event) :
  sliding_window_array (frame_a args) s o range = Ok A ->
  sliding_window_array (frame_b args) s o range = Ok B ->
  fft_correlate_images cis A B (correlation_method args) (normalized_correlation args)
  = Ok Cr ->
  fst (vectorized_correlation_to_displacements log nr nc (subpixel_method args) eps Cr)
  = Ok d ->
  correlate_block log cis args s o range nr nc done
  = (Ok d, done ++ [Extracted (nwin A); Extracted (nwin B);
                    Correlated (nwin Cr); Converted (nwin Cr)]).
Proof.
  intros HA HB HC Hd.
  unfold correlate_block, bind, of_result, emit, modify, ret.
  rewrite HA, HB. cbv beta iota. rewrite HC. cbv beta iota. rewrite Hd.
  cbv beta iota. rewrite <- !app_assoc. reflexivity.
Qed.

Lemma correlate_block_inv (log : num -> num) (cis : Z -> Z -> cplx) (args : piv_args)
    (s o : Z * Z) (range : option (Z * Z)) (nr nc : option Z)
    (d : displacements) (done done' : list event) :
  correlate_block log cis args s o range nr nc done = (Ok d, done') ->
  exists A B Cr,
    sliding_window_array (frame_a args) s o range = Ok A
    /\ sliding_window_array (frame_b args) s o range = Ok B
    /\ fft_correlate_images cis A B (correlation_method args) (normalized_correlation args)
       = Ok Cr
    /\ fst (vectorized_correlation_to_displacements log nr nc (subpixel_method args) eps Cr)
       = Ok d
    /\ done' = done ++ [Extracted (nwin A); Extracted (nwin B);
                        Correlated (nwin Cr); Converted (nwin Cr)].
Proof.
  unfold correlate_block, bind, of_result, emit, modify, ret. intros H.
  destruct (sliding_window_array (frame_a args) s o range) as [A|] eqn:EA; [|discriminate].
  destruct (sliding_window_array (frame_b args) s o range) as [B|] eqn:EB; [|discriminate].
  destruct (fft_correlate_images cis A B _ _) as [Cr|] eqn:EC; [|discriminate].
  destruct (fst (vectorized_correlation_to_displacements log nr nc _ eps Cr)) as [d'|] eqn:E;
    [|discriminate].
  cbv beta iota in H. rewrite <- !app_assoc in H. cbn [app] in H.
  injection H as H1 H2. subst d' done'. exists A, B, Cr.
  repeat split; assumption || reflexivity.
Qed.

Lemma assembler_ok_inv (log : num -> num) (nr nc : option Z) (method : string) (e : num)
    (corr : batch) (d : displacements) :
  fst (vectorized_correlation_to_displacements log nr nc method e corr) = Ok d ->
  supported_subpixel method = true /\ wins corr <> [] /\ (rows3 corr * cols3 corr <> 0)%nat.
Proof.
  unfold vectorized_correlation_to_displacements. intros H.
  destruct (supported_subpixel method); [|discriminate].
  split; [reflexivity|].
  cbn [negb] in H. unfold bind, modify, find_all_first_peaks, lift in H.
  unfold find_all_first_peaks_val in H.
  unfold iadd3 in H. cbn [wins rows3 cols3] in H.
  destruct (wins corr) as [|w ws]; [discriminate|].
  split; [discriminate|].
  cbn [map] in H.
  destruct (rows3 corr * cols3 corr =? 0)%nat eqn:E; [discriminate|].
  apply Nat.eqb_neq. exact E.
Qed.

Lemma bad_peaks_app (l1 l2 : list event) : bad_peaks (l1 ++ l2) = bad_peaks l1 ++ bad_peaks l2.
Proof. unfold bad_peaks. rewrite map_app, concat_app. reflexivity. Qed.

Lemma foldM_app {S A : Type} (body : A -> nat -> M S A) (l1 l2 : list nat) (acc : A) (s : S) :
  foldM body (l1 ++ l2) acc s
  = match foldM body l1 acc s with
    | (Ok acc', s') => foldM body l2 acc' s'
    | (Raise e, s') => (Raise e, s')
    end.
Proof.
  revert acc s. induction l1 as [|i l1 IH]; intros acc s; cbn [app foldM].
  - reflexivity.
  - unfold bind. destruct (body acc i s) as [[a|e] s']; [apply IH | reflexivity].
Qed.

(** ** The block loop *)

Lemma length_slice_nat {A : Type} (lo hi : nat) (l : list A) :
  (lo <= hi)%nat ->
  length (slice (Z.of_nat lo) (Z.of_nat hi) l)
  = (Nat.min hi (length l) - Nat.min lo (length l))%nat.
Proof.
  intros L. rewrite slice_nat, length_firstn, length_skipn. lia.
Qed.

Lemma block_loop (log : num -> num) (cis : Z -> Z -> cplx) (args : piv_args)
    (s o : Z * Z) (apb : nat) (A B Cr : batch) :
  sliding_window_array (frame_a args) s o None = Ok A ->
  sliding_window_array (frame_b args) s o None = Ok B ->
  fft_correlate_images cis A B (correlation_method args) (normalized_correlation args)
  = Ok Cr ->
  supported_subpixel (subpixel_method args) = true ->
  (rows3 Cr * cols3 Cr <> 0)%nat ->
  (1 <= apb)%nat ->
  let ws := wins (iadd3 eps Cr) in
  let H := map (window_hits (rows3 Cr) (cols3 Cr)) ws in
  let U := map (fun w => fst (window_displacement log (subpixel_method args)
                                (rows3 Cr) (cols3 Cr) w)) ws in
  let V := map (fun w => snd (window_displacement log (subpixel_method args)
                                (rows3 Cr) (cols3 Cr) w)) ws in
  let N := nwin Cr in
  (forall i, (i * apb < N)%nat ->
     list_sum (slice (Z.of_nat (i * apb)) (Z.of_nat ((i + 1) * apb)) H)
     <> length (slice (Z.of_nat (i * apb)) (Z.of_nat ((i + 1) * apb)) H)) ->
  forall n, (n = 0 \/ (n - 1) * apb < N)%nat ->
  forall done, exists done',
    foldM (block_body log cis args s o (Z.of_nat apb)) (seq 0 n)
      (repeat zero N, repeat zero N, 0%nat) done
    = (Ok (firstn (Nat.min (n * apb) N) U ++ repeat zero (N - Nat.min (n * apb) N),
           firstn (Nat.min (n * apb) N) V ++ repeat zero (N - Nat.min (n * apb) N),
           list_sum (firstn (Nat.min (n * apb) N) H)),
       done')
    /\ bad_peaks done' = bad_peaks done.
Proof.
  intros HA HB HC Hs Hrc Hapb ws H U V N Hne.
  assert (Lws : length ws = N).
  { unfold ws, N, nwin, iadd3. cbn [wins]. apply length_map. }
  assert (LH : length H = N) by (unfold H; rewrite length_map; exact Lws).
  assert (LU : length U = N) by (unfold U; rewrite length_map; exact Lws).
  assert (LV : length V = N) by (unfold V; rewrite length_map; exact Lws).
  induction n as [|n IH]; intros Hn done.
  - exists done. cbn [seq foldM Nat.mul Nat.min firstn app list_sum].
    rewrite Nat.sub_0_r. split; reflexivity.
  - assert (Hlo : (n * apb < N)%nat).
    { destruct Hn as [Hn|Hn]; [discriminate|].
      replace (S n - 1)%nat with n in Hn by lia. exact Hn. }
    assert (Hn' : (n = 0 \/ (n - 1) * apb < N)%nat).
    { destruct n; [left; reflexivity | right].
      replace (S n - 1)%nat with n by lia. nia. }
    destruct (IH Hn' done) as [done1 [Hrun Hbad]].
    pose (lo := (n * apb)%nat). pose (hi := ((n + 1) * apb)%nat).
    assert (Hlh : (lo <= hi)%nat) by (unfold lo, hi; nia).
    assert (Hd : fst (vectorized_correlation_to_displacements log None None
                        (subpixel_method args) eps
                        (block_of (Z.of_nat lo) (Z.of_nat hi) Cr))
                 = Ok (Flat (slice (Z.of_nat lo) (Z.of_nat hi) U)
                            (slice (Z.of_nat lo) (Z.of_nat hi) V)
                            (list_sum (slice (Z.of_nat lo) (Z.of_nat hi) H)))).
    { rewrite assembler_flat_run; [| exact Hs | | exact Hrc].
      - rewrite iadd3_block. unfold block_of, nwin. cbn [wins rows3 cols3].
        fold ws. rewrite <- !slice_map. fold H. fold U. fold V.
        replace (length (slice (Z.of_nat lo) (Z.of_nat hi) (wins Cr)))
          with (length (slice (Z.of_nat lo) (Z.of_nat hi) H)).
        + destruct (Nat.eqb_spec (list_sum (slice (Z.of_nat lo) (Z.of_nat hi) H))
                      (length (slice (Z.of_nat lo) (Z.of_nat hi) H))) as [E|E].
          * exfalso. exact (Hne n Hlo E).
          * reflexivity.
        + apply length_slice_eq. rewrite LH. reflexivity.
      - unfold block_of. cbn [wins]. intros E.
        apply (f_equal (@length _)) in E. rewrite length_slice_nat in E by exact Hlh.
        cbn [length] in E. fold (nwin Cr) in E. fold N in E. lia. }
    assert (Hbody :
      block_body log cis args s o (Z.of_nat apb)
        (firstn lo U ++ repeat zero (N - lo), firstn lo V ++ repeat zero (N - lo),
         list_sum (firstn lo H)) n done1
      = (Ok (firstn (Nat.min hi N) U ++ repeat zero (N - Nat.min hi N),
             firstn (Nat.min hi N) V ++ repeat zero (N - Nat.min hi N),
             list_sum (firstn (Nat.min hi N) H)),
         done1 ++ [Extracted (nwin (block_of (Z.of_nat lo) (Z.of_nat hi) A));
                   Extracted (nwin (block_of (Z.of_nat lo) (Z.of_nat hi) B));
                   Correlated (nwin (block_of (Z.of_nat lo) (Z.of_nat hi) Cr));
                   Converted (nwin (block_of (Z.of_nat lo) (Z.of_nat hi) Cr))])).
    { unfold block_body.
      replace (Z.of_nat n * Z.of_nat apb)%Z with (Z.of_nat lo) by (unfold lo; lia).
      replace ((Z.of_nat n + 1) * Z.of_nat apb)%Z with (Z.of_nat hi) by (unfold hi; lia).
      unfold bind.
      rewrite (correlate_block_run log cis args s o _ None None
                 (block_of (Z.of_nat lo) (Z.of_nat hi) A)
                 (block_of (Z.of_nat lo) (Z.of_nat hi) B)
                 (block_of (Z.of_nat lo) (Z.of_nat hi) Cr) _ done1
                 (sliding_window_array_block _ _ _ _ _ _ HA)
                 (sliding_window_array_block _ _ _ _ _ _ HB)
                 (fft_correlate_images_block _ _ _ _ _ _ _ _ HC) Hd).
      unfold of_result, unpack_flat, ret.
      rewrite <- LU at 1 2. rewrite (assign_slice_step zero U lo hi Hlh) by lia.
      rewrite <- LV at 1. rewrite <- LV at 1.
      rewrite (assign_slice_step zero V lo hi Hlh) by lia.
      rewrite (list_sum_firstn_step H lo hi Hlh) by lia.
      rewrite LU, LV, LH. reflexivity. }
    rewrite seq_S, foldM_app, Hrun. cbn [Nat.add foldM].
    replace (Nat.min (n * apb) N) with lo by (unfold lo; lia).
    replace (Nat.min (S n * apb) N) with (Nat.min hi N) by (unfold hi; f_equal; nia).
    unfold bind. rewrite Hbody. unfold ret.
    eexists. split; [reflexivity|].
    rewrite bad_peaks_app, <- Hbad. cbn. apply app_nil_r.
Qed.

(** ** The number of windows *)

Lemma length_arange (n : Z) : length (arange n) = Z.to_nat n.
Proof. unfold arange. rewrite length_map, length_seq. reflexivity. Qed.

Lemma first_row_meshgrid {A : Type} (x y x0 : list A) :
  first_row (fst (meshgrid x y)) = Ok x0 -> x0 = x.
Proof.
  unfold first_row, meshgrid. cbn [fst nrow ncol buf].
  destruct y as [|v y]; cbn [length map concat]; [discriminate|].
  intros E. injection E as E. rewrite firstn_app, Nat.sub_diag, firstn_all in E.
  cbn [firstn] in E. rewrite app_nil_r in E. symmetry. exact E.
Qed.

Lemma first_col_meshgrid {A : Type} (d : A) (x y y0 : list A) :
  first_col d (snd (meshgrid x y)) = Ok y0 -> length y0 = length y.
Proof.
  unfold first_col, meshgrid. cbn [snd nrow ncol buf].
  destruct (length x); [discriminate|].
  intros E. injection E as E. subst y0. rewrite length_map, length_seq. reflexivity.
Qed.

Lemma get_rect_coordinates_eq (image_size w o : Z * Z) :
  get_rect_coordinates image_size (Pair w) (Pair o) false
  = rbind (first_row (fst (get_coordinates image_size (snd w) (snd o) false)))
      (fun x0 =>
         rbind (first_col NaN (snd (get_coordinates image_size (fst w) (fst o) false)))
           (fun y0 => Ok (meshgrid x0 y0))).
Proof. reflexivity. Qed.

Lemma first_row_count (image_size : Z * Z) (s o : Z) (x0 : list num) :
  first_row (fst (get_coordinates image_size s o false)) = Ok x0 ->
  length x0 = Z.to_nat (snd (get_field_shape image_size (s, s) (o, o))).
Proof.
  intros Ex. unfold get_coordinates in Ex. apply first_row_meshgrid in Ex.
  rewrite Ex, length_map, length_arange. reflexivity.
Qed.

Lemma first_col_count (image_size : Z * Z) (s o : Z) (y0 : list num) :
  first_col NaN (snd (get_coordinates image_size s o false)) = Ok y0 ->
  length y0 = Z.to_nat (fst (get_field_shape image_size (s, s) (o, o))).
Proof.
  intros Ey. unfold get_coordinates in Ey. apply first_col_meshgrid in Ey.
  rewrite Ey, length_map, length_arange. reflexivity.
Qed.

Lemma get_field_shape_axes (image_size w o : Z * Z) :
  fst (get_field_shape image_size w o)
  = fst (get_field_shape image_size (fst w, fst w) (fst o, fst o))
  /\ snd (get_field_shape image_size w o)
     = snd (get_field_shape image_size (snd w, snd w) (snd o, snd o)).
Proof. unfold get_field_shape. cbn [fst snd]. split; reflexivity. Qed.


Lemma sliding_window_array_grid (img : image) (w o : Z * Z) (A : batch) :
  sliding_window_array img w o None = Ok A ->
  exists xy,
    get_rect_coordinates (Z.of_nat (nrow img), Z.of_nat (ncol img)) (Pair w) (Pair o) false
    = Ok xy
    /\ nwin A = length (buf (fst xy)).
Proof.
  unfold sliding_window_array, rbind.
  destruct (get_rect_coordinates _ (Pair w) (Pair o) false) as [xy|] eqn:E; [|discriminate].
  intros HA. injection HA as HA. subst A. unfold nwin. cbn [wins].
  rewrite length_map, length_combine, !length_map.
  rewrite <- (get_rect_coordinates_buf_lengths _ _ _ _ _ E), Nat.min_id.
  exists xy. split; reflexivity.
Qed.

Lemma get_rect_coordinates_inv (image_size w o : Z * Z) (xy : arr2 num * arr2 num) :
  get_rect_coordinates image_size (Pair w) (Pair o) false = Ok xy ->
  exists x0 y0,
    xy = meshgrid x0 y0
    /\ first_row (fst (get_coordinates image_size (snd w) (snd o) false)) = Ok x0
    /\ first_col NaN (snd (get_coordinates image_size (fst w) (fst o) false)) = Ok y0.
Proof.
  rewrite get_rect_coordinates_eq. unfold rbind. intros E.
  destruct (first_row _) as [x0|] eqn:Ex; [|discriminate].
  destruct (first_col NaN _) as [y0|] eqn:Ey; [|discriminate].
  injection E as E. subst xy.
  exists x0, y0. split; [reflexivity|]. split; reflexivity.
Qed.

Lemma sliding_window_count (img : image) (w o : Z * Z) (A : batch) :
  sliding_window_array img w o None = Ok A ->
  let shape := get_field_shape (Z.of_nat (nrow img), Z.of_nat (ncol img)) w o in
  nwin A = (Z.to_nat (fst shape) * Z.to_nat (snd shape))%nat.
Proof.
  intros HA. destruct (sliding_window_array_grid img w o A HA) as [xy [Hxy Hn]].
  destruct (get_rect_coordinates_inv _ _ _ _ Hxy) as [x0 [y0 [E [Ex Ey]]]]. subst xy.
  apply first_row_count in Ex. apply first_col_count in Ey.
  rewrite Hn. unfold meshgrid. cbn [fst buf].
  rewrite (length_concat_uniform (length x0)).
  2:{ intros row Hrow. apply in_map_iff in Hrow. destruct Hrow as [v [Hv _]].
      subst row. reflexivity. }
  rewrite length_map, Ey, Ex. cbv zeta.
  destruct (get_field_shape_axes (Z.of_nat (nrow img), Z.of_nat (ncol img)) w o) as [E0 E1].
  rewrite E0, E1. reflexivity.
Qed.

(** ** The two schedules *)

Lemma fft_correlate_images_count (cis : Z -> Z -> cplx) (A B Cr : batch)
    (method : string) (normalized : bool) :
  fft_correlate_images cis A B method normalized = Ok Cr -> nwin Cr = nwin A.
Proof.
  unfold fft_correlate_images. intros H.
  destruct normalized; [discriminate|].
  destruct (String.eqb method "linear"); [discriminate|].
  destruct (String.eqb method "circular"); [|discriminate].
  destruct ((rows3 A =? 0) || (cols3 A =? 0) || (rows3 B =? 0) || (cols3 B =? 0))%nat;
    [discriminate|].
  destruct ((rows3 A =? rows3 B) && (cols3 A =? cols3 B) && (nwin A =? nwin B))%nat eqn:E;
    [|discriminate].
  cbn [negb] in H.
  apply andb_true_iff in E. destruct E as [_ En]. apply Nat.eqb_eq in En.
  destruct (2 * (cols3 A / 2) =? 0)%nat; [discriminate|].
  injection H as H. subst Cr. unfold nwin in *. cbn [wins].
  rewrite length_map, length_combine, <- En. apply Nat.min_id.
Qed.

Lemma ceiling_triggers (m area n : Z) :
  (0 < area)%Z -> (m / area < n)%Z ->
  Qc_ltb (qc m 1 / qc area 1)%Qc (qc n 1) = true.
Proof.
  intros Ha Hn. apply Qc_ltb_lt. unfold Qclt.
  assert (E : (this (qc m 1 / qc area 1)%Qc == (m # 1) / (area # 1))%Q).
  { unfold Qcdiv, Qcmult, Qcinv, qc. cbn [this Q2Qc].
    rewrite !Qred_correct. reflexivity. }
  rewrite E. unfold qc. cbn [this Q2Qc]. rewrite Qred_correct.
  apply Qlt_shift_div_r.
  - unfold Qlt. cbn. lia.
  - unfold Qlt. cbn. pose proof (Z.mod_pos_bound m area Ha).
    pose proof (Z.div_mod m area). nia.
Qed.

Lemma ceil_div_blocks (n apb : nat) :
  (1 <= apb)%nat -> (1 <= n)%nat ->
  exists nb, ceil_div (Z.of_nat n) (Z.of_nat apb) = Ok (Z.of_nat nb)
             /\ ((nb - 1) * apb < n)%nat /\ (n <= nb * apb)%nat.
Proof.
  intros Ha Hn. unfold ceil_div.
  destruct (Z.eqb_spec (Z.of_nat apb) 0) as [E|E]; [lia|].
  exists (Z.to_nat (- (- Z.of_nat n / Z.of_nat apb))).
  pose proof (Z.mod_pos_bound (- Z.of_nat n) (Z.of_nat apb) ltac:(lia)) as Hm.
  pose proof (Z.div_mod (- Z.of_nat n) (Z.of_nat apb) E) as Hd.
  assert (Hq : (1 <= - (- Z.of_nat n / Z.of_nat apb))%Z) by nia.
  rewrite Z2Nat.id by lia.
  split; [reflexivity|]. split.
  - apply Nat2Z.inj_lt. rewrite Nat2Z.inj_mul, Nat2Z.inj_sub by lia.
    rewrite Z2Nat.id by lia. nia.
  - apply Nat2Z.inj_le. rewrite Nat2Z.inj_mul, Z2Nat.id by lia. nia.
Qed.

(** What C3 says holds under two guards.  Take a call without a memory
    ceiling that returns [(u, v, sig2noise)], and a ceiling [m] that triggers
    block scheduling.  If the ceiling holds at least one window
    ([areas_per_block >= 1]), the number of windows is below [2 ^ 53] (so
    that [np.ceil(num_areas / areas_per_block)] is exact) and in no block the number of entries of
    [invalid] equals the number of windows of the block (so that no block
    takes the early return of the assembler), then the block-scheduled call
    returns the same three grids, and the count in its summary line is the
    count of the unscheduled call. *)
Theorem block_schedule_agrees_under_guards (log : num -> num) (cis : Z -> Z -> cplx)
    (args : piv_args) (m : Z) (u v s : arr2 num) (done : list event) (Cr : batch) :
  max_array_size args = None ->
  extended_search_area_piv log cis args [] = (Ok (u, v, s), done) ->
  whole_correlation cis args = Ok Cr ->
  let area := (fst (as_pair (window_size args)) * snd (as_pair (window_size args)))%Z in
  let apb := Z.to_nat (m / area) in
  let H := map (window_hits (rows3 Cr) (cols3 Cr)) (wins (iadd3 eps Cr)) in
  (0 < area)%Z ->
  (1 <= m / area)%Z ->
  (m / area < Z.of_nat (nwin Cr))%Z ->
  (Z.of_nat (nwin Cr) < 2 ^ 53)%Z ->
  (forall i, (i * apb < nwin Cr)%nat ->
     list_sum (slice (Z.of_nat (i * apb)) (Z.of_nat ((i + 1) * apb)) H)
     <> length (slice (Z.of_nat (i * apb)) (Z.of_nat ((i + 1) * apb)) H)) ->
  exists done',
    extended_search_area_piv log cis (with_ceiling args m) [] = (Ok (u, v, s), done')
    /\ bad_peaks done' = bad_peaks done.
Proof.
  intros Hmax Hwhole HCr area apb H Harea Hapb Htrig Hbig Hne.
  unfold extended_search_area_piv in Hwhole. rewrite Hmax in Hwhole.
  cbv zeta in Hwhole.
  remember (as_pair (window_size args)) as W eqn:EW.
  remember (as_pair (overlap args)) as O eqn:EO.
  remember (match search_area_size args with
            | Some s0 => as_pair s0 | None => W end) as S eqn:ES.
  remember (Z.of_nat (nrow (frame_a args)), Z.of_nat (ncol (frame_a args))) as shape
    eqn:Eshape.
  remember (get_field_shape shape S O) as FS eqn:EFS.
  unfold raise in Hwhole.
  destruct ((fst W <=? fst O)%Z || (snd W <=? snd O)%Z) eqn:E1; [discriminate|].
  destruct ((fst S <? fst W)%Z || (snd S <? snd W)%Z) eqn:E2; [discriminate|].
  destruct ((fst shape <? snd W)%Z || (snd shape <? fst W)%Z) eqn:E3; [discriminate|].
  destruct (pair_gtb S W) eqn:E4; [discriminate|].
  unfold bind, ret, of_result, emit, modify in Hwhole. cbv beta iota in Hwhole.
  destruct (correlate_block log cis args S O None (Some (fst FS)) (Some (snd FS)) [])
    as [[d|e] done1] eqn:Ecb; [|discriminate].
  destruct (unpack_grid d) as [[[gx gy] k]|e] eqn:Eug; [|discriminate].
  cbn [snd] in Hwhole.
  destruct (sig2noise_method args) as [sm|] eqn:Esn; [discriminate|].
  destruct (reshape2 (fst FS) (snd FS) _) as [sg|e] eqn:Esg; [|discriminate].
  injection Hwhole as Hu Hv Hs Hdone.
  apply correlate_block_inv in Ecb.
  destruct Ecb as [A [B [Cr' [HA [HB [HC [Hd Hev]]]]]]].
  assert (Cr' = Cr).
  { unfold whole_correlation, rbind in HCr. rewrite <- EO, <- EW, <- ES in HCr.
    rewrite HA, HB, HC in HCr. injection HCr as HCr. exact HCr. }
  subst Cr'.
  destruct (assembler_ok_inv _ _ _ _ _ _ _ Hd) as [Hsup [Hwins Hrc]].
  rewrite (assembler_grid_run log _ _ _ _ _ Hsup Hwins Hrc) in Hd.
  rewrite (assembler_flat_run log _ _ _ Hsup Hwins Hrc) in Hd.
  cbv zeta in Hd. fold H in Hd.
  set (U := map (fun w => fst (window_displacement log (subpixel_method args)
                                 (rows3 Cr) (cols3 Cr) w)) (wins (iadd3 eps Cr))) in *.
  set (V := map (fun w => snd (window_displacement log (subpixel_method args)
                                 (rows3 Cr) (cols3 Cr) w)) (wins (iadd3 eps Cr))) in *.
  destruct (list_sum H =? nwin Cr)%nat eqn:Eall.
  { injection Hd as Hd. subst d. cbn [unpack_grid] in Eug.
    destruct (length _ =? 3)%nat; discriminate. }
  unfold rbind in Hd.
  destruct (reshape2 (fst FS) (snd FS) U) as [gx'|e] eqn:ErU; [|discriminate].
  destruct (reshape2 (fst FS) (snd FS) V) as [gy'|e] eqn:ErV; [|discriminate].
  injection Hd as Hd. subst d. cbn [unpack_grid] in Eug.
  injection Eug as Egx Egy Ek. subst gx' gy' k.
  assert (HN : nwin Cr = (Z.to_nat (fst FS) * Z.to_nat (snd FS))%nat).
  { rewrite (fft_correlate_images_count _ _ _ _ _ _ HC).
    rewrite (sliding_window_count _ _ _ _ HA). cbv zeta.
    rewrite <- Eshape, <- EFS. reflexivity. }
  assert (HN1 : (1 <= nwin Cr)%nat).
  { unfold nwin. destruct (wins Cr); [congruence | cbn; lia]. }
  assert (HFS : (fst FS * snd FS = Z.of_nat (nwin Cr))%Z) by nia.
  assert (HSW : S = W).
  { apply orb_false_iff in E2. destruct E2 as [E2a E2b].
    unfold pair_gtb in E4. apply orb_false_iff in E4. destruct E4 as [E4a E4b].
    destruct S as [s0 s1], W as [w0 w1]. cbn [fst snd] in *.
    assert (s0 = w0) by lia. subst s0. rewrite Z.eqb_refl in E4b. cbn [andb] in E4b.
    f_equal. lia. }
  unfold extended_search_area_piv.
  cbn [with_ceiling frame_a frame_b window_size overlap search_area_size dt
       correlation_method subpixel_method sig2noise_method normalized_correlation
       max_array_size].
  cbv zeta. rewrite <- EW, <- EO, <- ES, <- Eshape, <- EFS.
  rewrite E1, E2, E3, E4.
  clear ES. subst S. fold area.
  destruct (Z.eqb_spec area 0) as [Ez|_]; [lia|].
  rewrite HFS, (wrap64_small (Z.of_nat (nwin Cr))) by lia.
  rewrite (ceiling_triggers m area _ Harea Htrig).
  replace (m / area)%Z with (Z.of_nat apb) by (unfold apb; lia).
  destruct (ceil_div_blocks (nwin Cr) apb ltac:(unfold apb; lia) HN1)
    as [nb [Hnb [Hlast Hcover]]].
  destruct (block_loop log cis (with_ceiling args m) W O apb A B Cr HA HB HC Hsup Hrc
              ltac:(unfold apb; lia) Hne nb (or_intror Hlast) [])
    as [done2 [Hloop Hbad]].
  change (subpixel_method (with_ceiling args m)) with (subpixel_method args) in Hloop.
  fold U V in Hloop.
  rewrite Nat.min_r in Hloop by exact Hcover.
  rewrite Nat.sub_diag in Hloop. cbn [repeat] in Hloop. rewrite !app_nil_r in Hloop.
  rewrite !firstn_all2 in Hloop
    by (unfold U, V, H; rewrite !length_map; unfold iadd3, nwin; cbn [wins];
        rewrite ?length_map; reflexivity).
  unfold bind, ret, raise, of_result, emit, modify. cbv beta iota.
  destruct (Z.ltb_spec (Z.of_nat (nwin Cr)) 0) as [Hneg|_]; [lia|].
  rewrite Hnb, Nat2Z.id. cbv beta iota.
  rewrite Nat2Z.id. fold (nwin Cr) in Hloop. rewrite Hloop. cbv beta iota.
  rewrite ErU, ErV, Esn, Esg. subst u v s.
  eexists. split; [reflexivity|].
  rewrite bad_peaks_app, Hbad. subst done done1. reflexivity.
Qed.

Lemma block_schedule_agrees_under_guards_witness :
  exists u v s done',
    extended_search_area_piv log_rational cis_small
      (piv_call frame8_a frame8_a "parabolic" None) []
    = (Ok (u, v, s), [Extracted 2; Extracted 2; Correlated 2; Converted 2; BadPeaks 0])
    /\ extended_search_area_piv log_rational cis_small
         (piv_call frame8_a frame8_a "parabolic" (Some 16%Z)) []
       = (Ok (u, v, s), done')
    /\ bad_peaks done' = [0%nat].
Proof.
  assert (Hw : exists u v s,
             extended_search_area_piv log_rational cis_small
               (piv_call frame8_a frame8_a "parabolic" None) []
             = (Ok (u, v, s),
                [Extracted 2; Extracted 2; Correlated 2; Converted 2; BadPeaks 0])).
  { do 3 eexists. vm_compute. reflexivity. }
  destruct Hw as [u [v [s Hw]]].
  assert (Hc : exists Cr,
             whole_correlation cis_small (piv_call frame8_a frame8_a "parabolic" None) = Ok Cr
             /\ nwin Cr = 2%nat
             /\ map (window_hits (rows3 Cr) (cols3 Cr)) (wins (iadd3 eps Cr)) = [0; 0]%nat).
  { eexists. split; [vm_compute; reflexivity|]. split; vm_compute; reflexivity. }
  destruct Hc as [Cr [HCr [HN HH]]].
  destruct (block_schedule_agrees_under_guards log_rational cis_small
              (piv_call frame8_a frame8_a "parabolic" None) 16 u v s _ Cr
              eq_refl Hw HCr) as [done' [Hb Hbad]].
  - vm_compute. reflexivity.
  - vm_compute. discriminate.
  - rewrite HN. vm_compute. reflexivity.
  - rewrite HN. vm_compute. reflexivity.
  - rewrite HN, HH. intros [|[|i]] Hi.
    + vm_compute. discriminate.
    + vm_compute. discriminate.
    + exfalso. vm_compute in Hi. lia.
  - exists u, v, s, done'. split; [exact Hw|]. split; [exact Hb|].
    rewrite Hbad. reflexivity.
Defined.

(** ** The windows of an image *)

(** The corner of a window from its centre: [(c - size // 2).astype(int)]
    for the centre [c = z + size / 2.0]. *)
Lemma trunc_int_centre (z s : Z) :
  (0 <= z < 2 ^ 63)%Z ->
  trunc_int (of_Z z + Fin (qc s 2) - of_Z (s / 2))%num = z.
Proof.
  intros Hz. unfold of_Z, sub, add, neg, trunc_int.
  set (q := (qc z 1 + qc s 2 + - qc (s / 2) 1)%Qc).
  assert (E : (this q == inject_Z z + (s # 2) - inject_Z (s / 2))%Q).
  { unfold q, Qcplus, Qcopp, qc. cbn [this Q2Qc].
    rewrite !Qred_correct. unfold inject_Z, Qminus. reflexivity. }
  pose proof (Z.div_mod s 2 ltac:(lia)) as Hd.
  pose proof (Z.mod_pos_bound s 2 ltac:(lia)) as Hm.
  destruct (this q) as [n d]. cbn [Qnum Qden].
  unfold Qeq, Qminus, Qplus, Qopp, inject_Z in E. cbn in E.
  assert (Hq : Z.quot n (Z.pos d) = z).
  { rewrite Z.quot_div_nonneg by nia.
    symmetry. apply (Z.div_unique_pos n (Z.pos d) z (n - z * Z.pos d)); nia. }
  rewrite Hq. apply wrap64_small. lia.
Qed.

Lemma nth_concat_uniform {A : Type} (L : nat) (m : list (list A)) (a b : nat) (d : A) :
  (forall row, In row m -> length row = L) -> (b < L)%nat ->
  nth (a * L + b) (concat m) d = nth b (nth a m []) d.
Proof.
  revert a. induction m as [|row m IH]; intros a H Hb.
  - cbn [concat]. destruct a; destruct (_ + b)%nat; destruct b; reflexivity.
  - cbn [concat]. assert (Hr : length row = L) by (apply H; left; reflexivity).
    destruct a as [|a].
    + cbn [Nat.mul Nat.add nth]. apply app_nth1. lia.
    + rewrite app_nth2 by (rewrite Hr; nia).
      replace (S a * L + b - length row)%nat with (a * L + b)%nat by (rewrite Hr; nia).
      cbn [nth]. apply IH; [|exact Hb]. intros r Hin. apply H. right. exact Hin.
Qed.

Lemma nth_seq_map_id {A : Type} (l : list A) (d : A) :
  map (fun r => nth r l d) (seq 0 (length l)) = l.
Proof.
  apply nth_ext with (d := d) (d' := d).
  - rewrite length_map, length_seq. reflexivity.
  - intros n Hn. rewrite length_map, length_seq in Hn.
    rewrite (nth_indep _ d (nth 0 l d)) by (rewrite length_map, length_seq; exact Hn).
    rewrite (map_nth (fun r => nth r l d) (seq 0 (length l)) 0%nat n).
    rewrite seq_nth by exact Hn. reflexivity.
Qed.

Lemma first_row_meshgrid_ok {A : Type} (x y : list A) :
  y <> [] -> first_row (fst (meshgrid x y)) = Ok x.
Proof.
  intros Hy. unfold first_row, meshgrid. cbn [fst nrow ncol buf].
  destruct y as [|v y]; [congruence|]. cbn [length map concat].
  rewrite firstn_app, Nat.sub_diag, firstn_all. cbn [firstn].
  rewrite app_nil_r. reflexivity.
Qed.

Lemma first_col_meshgrid_ok {A : Type} (d : A) (x y : list A) :
  x <> [] -> first_col d (snd (meshgrid x y)) = Ok y.
Proof.
  intros Hx. unfold first_col, meshgrid. cbn [snd nrow ncol buf].
  destruct (length x) as [|n] eqn:E; [destruct x; [congruence|discriminate]|].
  f_equal. rewrite <- (nth_seq_map_id y d) at 2.
  apply map_ext_in. intros r Hr. apply in_seq in Hr.
  replace (r * S n)%nat with (r * S n + 0)%nat by lia.
  rewrite (nth_concat_uniform (S n)).
  - rewrite (nth_indep _ [] (repeat d (S n))) by (rewrite length_map; lia).
    rewrite (map_nth (fun v => repeat v (S n)) y d r). reflexivity.
  - intros row Hin. apply in_map_iff in Hin. destruct Hin as [v [Hv _]].
    subst row. apply repeat_length.
  - lia.
Qed.

Lemma nth_arange (n : Z) (a : nat) (d : Z) :
  (a < Z.to_nat n)%nat -> nth a (arange n) d = Z.of_nat a.
Proof.
  intros H. unfold arange.
  rewrite (nth_map_lt Z.of_nat _ a 0%nat d) by (rewrite length_seq; exact H).
  rewrite seq_nth by exact H. reflexivity.
Qed.

Lemma arange_nonempty (n : Z) : (1 <= n)%Z -> arange n <> [].
Proof.
  intros H E. apply (f_equal (@length Z)) in E.
  rewrite length_arange in E. cbn in E. lia.
Qed.

Lemma map_nonempty {A B : Type} (f : A -> B) (l : list A) : l <> [] -> map f l <> [].
Proof. destruct l; [congruence | discriminate]. Qed.

Lemma length_meshgrid_x {A : Type} (x y : list A) :
  length (buf (fst (meshgrid x y))) = (length y * length x)%nat.
Proof.
  unfold meshgrid. cbn [fst buf].
  rewrite (length_concat_uniform (length x)), length_map; [reflexivity|].
  intros row H. apply in_map_iff in H. destruct H as [v [Hv _]]. subst row. reflexivity.
Qed.

Lemma nth_meshgrid_x {A : Type} (x y : list A) (a b : nat) (d : A) :
  (a < length y)%nat -> (b < length x)%nat ->
  nth (a * length x + b) (buf (fst (meshgrid x y))) d = nth b x d.
Proof.
  intros Ha Hb. unfold meshgrid. cbn [fst buf].
  rewrite (nth_concat_uniform (length x)); [|
    intros row H; apply in_map_iff in H; destruct H as [v [Hv _]]; subst row; reflexivity
    | exact Hb].
  destruct y as [|y0 y]; [cbn in Ha; lia|].
  rewrite (nth_map_lt (fun _ => x) (y0 :: y) a y0 []) by exact Ha. reflexivity.
Qed.

Lemma nth_meshgrid_y {A : Type} (x y : list A) (a b : nat) (d : A) :
  (a < length y)%nat -> (b < length x)%nat ->
  nth (a * length x + b) (buf (snd (meshgrid x y))) d = nth a y d.
Proof.
  intros Ha Hb. unfold meshgrid. cbn [snd buf].
  rewrite (nth_concat_uniform (length x)); [|
    intros row H; apply in_map_iff in H; destruct H as [v [Hv _]]; subst row;
    apply repeat_length | exact Hb].
  rewrite (nth_map_lt (fun v => repeat v (length x)) y a d []) by exact Ha.
  apply nth_repeat_lt. exact Hb.
Qed.

(** The centres of the windows along one axis, and the grid of centres of
    a valid configuration. *)
Lemma get_rect_coordinates_ok (R C : Z) (w o : Z * Z) :
  (0 <= fst o < fst w)%Z -> (0 <= snd o < snd w)%Z ->
  (fst w <= R < 2 ^ 62)%Z -> (fst w <= C < 2 ^ 62)%Z ->
  (snd w <= R)%Z -> (snd w <= C)%Z ->
  let centres (s step n : Z) :=
    map (fun i => (of_Z (wrap64 (i * step)) + Fin (qc s 2))%num) (arange n) in
  get_rect_coordinates (R, C) (Pair w) (Pair o) false
  = Ok (meshgrid
          (centres (snd w) (snd w - snd o) ((C - snd w) / (snd w - snd o) + 1))%Z
          (centres (fst w) (fst w - fst o) ((R - fst w) / (fst w - fst o) + 1))%Z).
Proof.
  intros Ho0 Ho1 HR HC HR1 HC1 centres.
  unfold get_rect_coordinates, get_coordinates, get_field_shape, rbind.
  cbn [as_pair fst snd].
  rewrite !field_axis_formula by lia.
  assert (P : forall im s o', (0 <= o' < s)%Z -> (s <= im)%Z ->
                (1 <= (im - s) / (s - o') + 1)%Z).
  { intros im s o' H1 H2. pose proof (Z.div_pos (im - s) (s - o')). lia. }
  rewrite first_row_meshgrid_ok
    by (apply map_nonempty, arange_nonempty, P; lia).
  rewrite first_col_meshgrid_ok
    by (apply map_nonempty, arange_nonempty, P; lia).
  reflexivity.
Qed.

Lemma nth_window_rows (w0 : Z) (wc i j : nat) (d : Z) :
  (i < Z.to_nat w0)%nat -> (j < wc)%nat ->
  nth (i * wc + j) (concat (map (fun i => repeat i wc) (arange w0))) d = Z.of_nat i.
Proof.
  intros Hi Hj.
  rewrite (nth_concat_uniform wc); [|
    intros row H; apply in_map_iff in H; destruct H as [v [Hv _]]; subst row;
    apply repeat_length | exact Hj].
  rewrite (nth_map_lt (fun i => repeat i wc) _ i d [])
    by (rewrite length_arange; exact Hi).
  rewrite nth_repeat_lt by exact Hj. apply nth_arange. exact Hi.
Qed.

Lemma nth_window_cols (w0 w1 : Z) (i j : nat) (d : Z) :
  (i < Z.to_nat w0)%nat -> (j < Z.to_nat w1)%nat ->
  nth (i * Z.to_nat w1 + j) (concat (map (fun _ => arange w1) (arange w0))) d = Z.of_nat j.
Proof.
  intros Hi Hj.
  rewrite (nth_concat_uniform (Z.to_nat w1)); [|
    intros row H; apply in_map_iff in H; destruct H as [v [Hv _]]; subst row;
    apply length_arange | exact Hj].
  rewrite (nth_map_lt (fun _ => arange w1) _ i d [])
    by (rewrite length_arange; exact Hi).
  apply nth_arange. exact Hj.
Qed.

Lemma read2_in_bounds {A : Type} (d : A) (r c : nat) (w : list A) (i j : nat) :
  (i < r)%nat -> (j < c)%nat ->
  read2 d r c w (Z.of_nat i) (Z.of_nat j) = nth (i * c + j) w d.
Proof.
  intros Hi Hj. unfold read2, wrap_index.
  rewrite !Z.mod_small by lia. rewrite !Nat2Z.id. reflexivity.
Qed.

(** The origin of window [a] along one axis lies in the image. *)
Lemma window_origin_bound (a : nat) (im w o : Z) :
  (0 <= o < w)%Z -> (w <= im)%Z ->
  (a < Z.to_nat ((im - w) / (w - o) + 1))%nat ->
  (0 <= Z.of_nat a * (w - o) <= im - w)%Z.
Proof.
  intros Ho Him Ha.
  assert (H1 : (Z.of_nat a <= (im - w) / (w - o))%Z) by lia.
  pose proof (Z.mul_div_le (im - w) (w - o) ltac:(lia)) as H2.
  pose proof (Z.mul_le_mono_nonneg_r _ _ (w - o) ltac:(lia) H1) as H3.
  split; [apply Z.mul_nonneg_nonneg; lia | lia].
Qed.

Lemma length_meshgrid_y {A : Type} (x y : list A) :
  length (buf (snd (meshgrid x y))) = (length y * length x)%nat.
Proof. rewrite <- meshgrid_buf_lengths. apply length_meshgrid_x. Qed.

Lemma sliding_window_array_valid (img : image) (w o : Z * Z) :
  let R := Z.of_nat (nrow img) in
  let C := Z.of_nat (ncol img) in
  (0 <= fst o < fst w)%Z -> (0 <= snd o < snd w)%Z ->
  (fst w <= R < 2 ^ 62)%Z -> (fst w <= C < 2 ^ 62)%Z ->
  (snd w <= R)%Z -> (snd w <= C)%Z ->
  let n_rows := Z.to_nat ((R - fst w) / (fst w - fst o) + 1) in
  let n_cols := Z.to_nat ((C - snd w) / (snd w - snd o) + 1) in
  let step0 := Z.to_nat (fst w - fst o) in
  let step1 := Z.to_nat (snd w - snd o) in
  exists A,
    sliding_window_array img w o None = Ok A
    /\ rows3 A = Z.to_nat (fst w)
    /\ cols3 A = Z.to_nat (snd w)
    /\ nwin A = (n_rows * n_cols)%nat
    /\ forall a b i j : nat,
         (a < n_rows)%nat -> (b < n_cols)%nat ->
         (i < Z.to_nat (fst w))%nat -> (j < Z.to_nat (snd w))%nat ->
         nth (i * Z.to_nat (snd w) + j) (nth (a * n_cols + b) (wins A) []) NaN
         = nth ((a * step0 + i) * ncol img + (b * step1 + j)) (buf img) NaN.
Proof.
  intros R C Ho0 Ho1 HR HC HR1 HC1 n_rows n_cols step0 step1.
  unfold sliding_window_array. fold R C.
  rewrite get_rect_coordinates_ok by assumption.
  cbv zeta. unfold rbind.
  set (x0 := map (fun i => (of_Z (wrap64 (i * (snd w - snd o))) + Fin (qc (snd w) 2))%num)
                 (arange ((C - snd w) / (snd w - snd o) + 1))).
  set (y0 := map (fun i => (of_Z (wrap64 (i * (fst w - fst o))) + Fin (qc (fst w) 2))%num)
                 (arange ((R - fst w) / (fst w - fst o) + 1))).
  assert (Lx : length x0 = n_cols) by (unfold x0; rewrite length_map; apply length_arange).
  assert (Ly : length y0 = n_rows) by (unfold y0; rewrite length_map; apply length_arange).
  eexists. split; [reflexivity|]. cbn [rows3 cols3].
  split; [reflexivity|]. split; [reflexivity|].
  unfold nwin. cbn [wins]. split.
  - rewrite length_map, length_combine, !length_map, length_meshgrid_x, length_meshgrid_y.
    rewrite Lx, Ly. apply Nat.min_id.
  - intros a b i j Ha Hb Hi Hj.
    assert (Hk : (a * n_cols + b < n_rows * n_cols)%nat).
    { apply (Nat.lt_le_trans _ (S a * n_cols)); [lia|].
      apply Nat.mul_le_mono_r. lia. }
    set (F := fun '(yk, xk) => map _ _).
    rewrite (nth_map_lt F _ (a * n_cols + b) (0%Z, 0%Z) [])
      by (rewrite length_combine, !length_map, length_meshgrid_x, length_meshgrid_y;
          rewrite Lx, Ly; lia).
    rewrite nth_combine_lt
      by (rewrite length_map, ?length_meshgrid_x, ?length_meshgrid_y; rewrite Lx, Ly; lia).
    rewrite (nth_map_lt _ (buf (snd (meshgrid x0 y0))) _ NaN 0%Z)
      by (rewrite length_meshgrid_y, Lx, Ly; lia).
    rewrite (nth_map_lt _ (buf (fst (meshgrid x0 y0))) _ NaN 0%Z)
      by (rewrite length_meshgrid_x, Lx, Ly; lia).
    rewrite <- Lx at 1 2.
    rewrite nth_meshgrid_y, nth_meshgrid_x by lia.
    unfold x0 at 1, y0 at 1.
    rewrite (nth_map_lt _ (arange _) a 0%Z NaN) by (rewrite length_arange; exact Ha).
    rewrite (nth_map_lt _ (arange _) b 0%Z NaN) by (rewrite length_arange; exact Hb).
    rewrite !nth_arange by assumption.
    pose proof (window_origin_bound a R (fst w) (fst o) Ho0 (proj1 HR) Ha) as Ba.
    pose proof (window_origin_bound b C (snd w) (snd o) Ho1 HC1 Hb) as Bb.
    set (za := (Z.of_nat a * (fst w - fst o))%Z) in *.
    set (zb := (Z.of_nat b * (snd w - snd o))%Z) in *.
    rewrite !wrap64_small by lia.
    rewrite !trunc_int_centre by lia.
    unfold F.
    assert (Lwy : length (concat (map (fun i0 => repeat i0 (Z.to_nat (snd w)))
                                      (arange (fst w))))
                  = (Z.to_nat (fst w) * Z.to_nat (snd w))%nat).
    { rewrite (length_concat_uniform (Z.to_nat (snd w))), length_map, length_arange;
        [reflexivity|].
      intros row H. apply in_map_iff in H. destruct H as [v [Hv _]]. subst row.
      apply repeat_length. }
    assert (Lwx : length (concat (map (fun _ => arange (snd w)) (arange (fst w))))
                  = (Z.to_nat (fst w) * Z.to_nat (snd w))%nat).
    { rewrite (length_concat_uniform (Z.to_nat (snd w))), length_map, length_arange;
        [reflexivity|].
      intros row H. apply in_map_iff in H. destruct H as [v [Hv _]]. subst row.
      apply length_arange. }
    assert (Hij : (i * Z.to_nat (snd w) + j < Z.to_nat (fst w) * Z.to_nat (snd w))%nat).
    { apply (Nat.lt_le_trans _ (S i * Z.to_nat (snd w))); [lia|].
      apply Nat.mul_le_mono_r. lia. }
    set (G := fun '(i0, j0) => read2 _ _ _ _ _ _).
    rewrite (nth_map_lt G _ _ (0%Z, 0%Z) NaN) by (rewrite length_combine, Lwy, Lwx; lia).
    rewrite nth_combine_lt by (rewrite ?Lwy, ?Lwx; lia).
    rewrite nth_window_rows, nth_window_cols by assumption.
    unfold G. rewrite !wrap64_small by lia.
    assert (Ea : Z.of_nat (a * step0 + i) = (Z.of_nat i + za)%Z).
    { unfold step0, za. rewrite Nat2Z.inj_add, Nat2Z.inj_mul, Z2Nat.id by lia. lia. }
    assert (Eb : Z.of_nat (b * step1 + j) = (Z.of_nat j + zb)%Z).
    { unfold step1, zb. rewrite Nat2Z.inj_add, Nat2Z.inj_mul, Z2Nat.id by lia. lia. }
    rewrite <- Ea, <- Eb.
    apply read2_in_bounds; apply Nat2Z.inj_lt; [rewrite Ea | rewrite Eb]; unfold R, C in *; lia.
Qed.

Lemma sliding_window_array_batch_ok (img : image) (w o : Z * Z)
    (block_range : option (Z * Z)) (A : batch) :
  sliding_window_array img w o block_range = Ok A -> batch_ok A.
Proof.
  unfold sliding_window_array, rbind.
  destruct (get_rect_coordinates _ _ _ _) as [xy|]; [|discriminate].
  intros E. injection E as E. subst A. unfold batch_ok. cbn [rows3 cols3 wins].
  apply Forall_forall. intros win Hin. apply in_map_iff in Hin.
  destruct Hin as [[yk xk] [Hw _]]. subst win. unfold win_ok.
  rewrite length_map, length_combine.
  rewrite !(length_concat_uniform (Z.to_nat (snd w))), !length_map, !length_arange.
  - apply Nat.min_id.
  - intros row H. apply in_map_iff in H. destruct H as [v [Hv _]]. subst row.
    apply length_arange.
  - intros row H. apply in_map_iff in H. destruct H as [v [Hv _]]. subst row.
    apply repeat_length.
Qed.

(** [sliding_window_array] on a valid configuration: the windows tile the
    image in row-major order with the stride [window - overlap].  Window
    [a * n_cols + b] is the block of the image whose top-left pixel is
    [(a * (w0 - o0), b * (w1 - o1))]; there are [n_rows * n_cols] windows of
    [w0 * w1] samples, [(n_rows, n_cols)] being the field shape.  (The grid
    of centres is built from two square grids, which also asks for
    [w1 <= rows] and [w0 <= columns].) *)
Theorem sliding_window_array_tiles (img : image) (w o : Z * Z) :
  let R := Z.of_nat (nrow img) in
  let C := Z.of_nat (ncol img) in
  (0 <= fst o < fst w)%Z -> (0 <= snd o < snd w)%Z ->
  (fst w <= R < 2 ^ 62)%Z -> (fst w <= C < 2 ^ 62)%Z ->
  (snd w <= R)%Z -> (snd w <= C)%Z ->
  let n_rows := Z.to_nat ((R - fst w) / (fst w - fst o) + 1) in
  let n_cols := Z.to_nat ((C - snd w) / (snd w - snd o) + 1) in
  let step0 := Z.to_nat (fst w - fst o) in
  let step1 := Z.to_nat (snd w - snd o) in
  exists A,
    sliding_window_array img w o None = Ok A
    /\ rows3 A = Z.to_nat (fst w)
    /\ cols3 A = Z.to_nat (snd w)
    /\ batch_ok A
    /\ nwin A = (n_rows * n_cols)%nat
    /\ forall a b i j : nat,
         (a < n_rows)%nat -> (b < n_cols)%nat ->
         (i < Z.to_nat (fst w))%nat -> (j < Z.to_nat (snd w))%nat ->
         nth (i * Z.to_nat (snd w) + j) (nth (a * n_cols + b) (wins A) []) NaN
         = nth ((a * step0 + i) * ncol img + (b * step1 + j)) (buf img) NaN.
Proof.
  intros R C Ho0 Ho1 HR HC HR1 HC1 n_rows n_cols step0 step1.
  destruct (sliding_window_array_valid img w o Ho0 Ho1 HR HC HR1 HC1)
    as [A [HA [Hr [Hc [Hn Hnth]]]]].
  exists A. split; [exact HA|]. split; [exact Hr|]. split; [exact Hc|].
  split; [exact (sliding_window_array_batch_ok _ _ _ _ _ HA)|].
  split; [exact Hn | exact Hnth].
Qed.

Lemma sliding_window_array_tiles_witness :
  exists A,
    sliding_window_array frame8_a (4, 4)%Z (0, 0)%Z None = Ok A
    /\ rows3 A = 4%nat /\ cols3 A = 4%nat /\ batch_ok A /\ nwin A = 2%nat
    /\ forall a b i j : nat,
         (a < 1)%nat -> (b < 2)%nat -> (i < 4)%nat -> (j < 4)%nat ->
         nth (i * 4 + j) (nth (a * 2 + b) (wins A) []) NaN
         = nth ((a * 4 + i) * 8 + (b * 4 + j)) (buf frame8_a) NaN.
Proof.
  apply (sliding_window_array_tiles frame8_a (4, 4)%Z (0, 0)%Z); cbn; lia.
Defined.

Lemma nth_firstn_skipn {A : Type} (n m k : nat) (l : list A) (d : A) :
  (k < n)%nat -> nth k (firstn n (skipn m l)) d = nth (m + k) l d.
Proof.
  intros H. rewrite nth_firstn.
  destruct (Nat.ltb_spec k n) as [_|C]; [|lia].
  apply nth_skipn.
Qed.

(** [sliding_window_array] with a block range returns the windows
    [[lo, hi)] of the full extraction, in order: [min(hi, N) - min(lo, N)]
    windows, the [k]-th of which is window [lo + k] of the image. *)
Theorem block_range_extracts_slice (img : image) (w o : Z * Z) (lo hi : nat) (A : batch) :
  sliding_window_array img w o None = Ok A ->
  (lo <= hi)%nat ->
  exists B,
    sliding_window_array img w o (Some (Z.of_nat lo, Z.of_nat hi)) = Ok B
    /\ rows3 B = rows3 A /\ cols3 B = cols3 A
    /\ nwin B = (Nat.min hi (nwin A) - Nat.min lo (nwin A))%nat
    /\ forall k, (k < nwin B)%nat -> nth k (wins B) [] = nth (lo + k) (wins A) [].
Proof.
  intros HA Hle.
  exists (block_of (Z.of_nat lo) (Z.of_nat hi) A).
  split; [apply sliding_window_array_block; exact HA|].
  unfold block_of, nwin. cbn [rows3 cols3 wins].
  split; [reflexivity|]. split; [reflexivity|].
  split; [apply length_slice_nat; exact Hle|].
  intros k Hk. rewrite length_slice_nat in Hk by exact Hle.
  rewrite slice_nat, nth_firstn_skipn by exact Hk.
  f_equal. lia.
Qed.

Lemma block_range_extracts_slice_witness :
  exists A B,
    sliding_window_array frame8_a (4, 4)%Z (0, 0)%Z None = Ok A
    /\ sliding_window_array frame8_a (4, 4)%Z (0, 0)%Z (Some (1, 2)%Z) = Ok B
    /\ rows3 B = rows3 A /\ cols3 B = cols3 A
    /\ nwin B = 1%nat
    /\ forall k, (k < nwin B)%nat -> nth k (wins B) [] = nth (1 + k) (wins A) [].
Proof.
  assert (HA : exists A, sliding_window_array frame8_a (4, 4)%Z (0, 0)%Z None = Ok A
                         /\ nwin A = 2%nat).
  { eexists. split; vm_compute; reflexivity. }
  destruct HA as [A [HA HN]].
  destruct (block_range_extracts_slice frame8_a (4, 4)%Z (0, 0)%Z 1 2 A HA ltac:(lia))
    as [B [HB [Hr [Hc [Hn Hk]]]]].
  exists A, B. rewrite HN in Hn.
  repeat split; assumption.
Defined.

Lemma first_row_error {A : Type} (a : arr2 A) (e : error) :
  first_row a = Raise e -> e = IndexError.
Proof.
  unfold first_row. destruct (nrow a); intros E; [|discriminate E].
  injection E as E. symmetry. exact E.
Qed.

(** The grid of window corners is built from two square grids, one per
    window dimension.  When [window_size[1]] exceeds the number of image
    rows, or [window_size[0]] the number of image columns, one of them is
    empty and [x[0, :]] or [y[:, 0]] raises [IndexError], whatever the block
    range. *)
Theorem sliding_window_array_cross_axis (img : image) (w o : Z * Z)
    (block_range : option (Z * Z)) :
  let R := Z.of_nat (nrow img) in
  let C := Z.of_nat (ncol img) in
  (0 <= fst o < fst w)%Z -> (0 <= snd o < snd w)%Z ->
  (fst w < 2 ^ 62)%Z -> (snd w < 2 ^ 62)%Z ->
  (R < 2 ^ 62)%Z -> (C < 2 ^ 62)%Z ->
  (R < snd w \/ C < fst w)%Z ->
  sliding_window_array img w o block_range = Raise IndexError.
Proof.
  intros R C Ho0 Ho1 Hw0 Hw1 HR HC Hbad.
  assert (P : forall im s o', (0 <= o' < s)%Z -> (s < 2 ^ 62)%Z -> (0 <= im < s)%Z ->
                arange (int64_add (int64_floordiv (int64_sub im s) (int64_sub s o')) 1)
                = []).
  { intros im s o' H1 H3 H2. unfold int64_add, int64_floordiv, int64_sub.
    rewrite (wrap64_small (im - s)), (wrap64_small (s - o')) by lia.
    assert (Hq : (- 2 ^ 62 <= (im - s) / (s - o') <= -1)%Z).
    { split.
      - apply Z.div_le_lower_bound; [lia|]. nia.
      - assert ((im - s) / (s - o') < 0)%Z by (apply Z.div_lt_upper_bound; lia). lia. }
    rewrite (wrap64_small ((im - s) / (s - o'))) by lia.
    rewrite wrap64_small by lia.
    unfold arange. replace (Z.to_nat _) with 0%nat by lia. reflexivity. }
  unfold sliding_window_array, get_rect_coordinates, get_coordinates, get_field_shape, rbind.
  cbn [as_pair fst snd]. fold R C.
  destruct Hbad as [Hbad|Hbad].
  - rewrite (P R (snd w) (snd o)) by (unfold R; lia).
    reflexivity.
  - rewrite (P C (fst w) (fst o)) by (unfold C; lia).
    destruct (first_row _) as [x0|e] eqn:E.
    + reflexivity.
    + apply first_row_error in E. subst e. reflexivity.
Qed.

Lemma sliding_window_array_cross_axis_witness :
  sliding_window_array frame8_a (4, 8)%Z (0, 0)%Z None = Raise IndexError.
Proof.
  apply (sliding_window_array_cross_axis frame8_a (4, 8)%Z (0, 0)%Z None); cbn; lia.
Defined.

(** ** The strided extractor *)

Lemma nth_list_prod {A B : Type} (l1 : list A) (l2 : list B) (k : nat) (da : A) (db : B) :
  (k < length l1 * length l2)%nat ->
  nth k (list_prod l1 l2) (da, db)
  = (nth (k / length l2) l1 da, nth (k mod length l2) l2 db).
Proof.
  revert k. induction l1 as [|x l1 IH]; intros k Hk; [cbn in Hk; lia|].
  assert (Hl2 : (0 < length l2)%nat) by (destruct l2; cbn in *; lia).
  cbn [list_prod]. destruct (Nat.lt_ge_cases k (length l2)) as [Hlt|Hge].
  - rewrite app_nth1 by (rewrite length_map; exact Hlt).
    rewrite (nth_map_lt (fun y => (x, y)) l2 k db (da, db)) by exact Hlt.
    rewrite Nat.div_small, Nat.mod_small by exact Hlt. reflexivity.
  - rewrite app_nth2 by (rewrite length_map; exact Hge). rewrite length_map.
    rewrite IH by (cbn [length] in Hk; lia).
    assert (Hd : (k / length l2 = S ((k - length l2) / length l2))%nat).
    { replace k with ((k - length l2) + 1 * length l2)%nat at 1 by lia.
      rewrite Nat.div_add by lia. lia. }
    assert (Hm : (k mod length l2 = (k - length l2) mod length l2)%nat).
    { replace k with ((k - length l2) + 1 * length l2)%nat at 1 by lia.
      apply Nat.Div0.mod_add. }
    rewrite Hd, Hm. reflexivity.
Qed.

Lemma strided_read_in_bounds (beyond : Z -> num) (flat : list num) (k : nat) :
  (k < length flat)%nat -> strided_read beyond flat (Z.of_nat k) = nth k flat NaN.
Proof.
  intros H. unfold strided_read.
  destruct (Z.leb_spec 0 (Z.of_nat k)); [|lia].
  destruct (Z.ltb_spec (Z.of_nat k) (Z.of_nat (length flat))); [|lia].
  cbn [andb]. rewrite Nat2Z.id. reflexivity.
Qed.

(** For square windows that fit, the strided extractor and the index-based
    extractor return the same batch: no element of the strided view lies
    outside the buffer. *)
Theorem moving_window_array_is_sliding (beyond : Z -> num) (img : image) (w o : Z) :
  map2_ok img ->
  (0 <= o < w)%Z ->
  (w <= Z.of_nat (nrow img) < 2 ^ 62)%Z ->
  (w <= Z.of_nat (ncol img) < 2 ^ 62)%Z ->
  moving_window_array beyond img w o = sliding_window_array img (w, w) (o, o) None.
Proof.
  intros Hok Ho HR HC.
  destruct (sliding_window_array_valid img (w, w) (o, o)) as [A [HA [Hr [Hc [Hn Hnth]]]]];
    cbn [fst snd]; try lia.
  pose proof (sliding_window_array_batch_ok _ _ _ _ _ HA) as Hb.
  cbn [fst snd] in *. rewrite HA.
  set (R := Z.of_nat (nrow img)) in *. set (C := Z.of_nat (ncol img)) in *.
  unfold moving_window_array, int_div, rbind. fold R C.
  destruct (Z.eqb_spec (w - o) 0) as [E|_]; [lia|].
  rewrite !Z.quot_div_nonneg by lia.
  pose proof (Z.div_pos (R - w) (w - o) ltac:(lia) ltac:(lia)) as P0.
  pose proof (Z.div_pos (C - w) (w - o) ltac:(lia) ltac:(lia)) as P1.
  destruct (Z.ltb_spec ((R - w) / (w - o) + 1) 0); [lia|].
  destruct (Z.ltb_spec ((C - w) / (w - o) + 1) 0); [lia|].
  destruct (Z.ltb_spec w 0); [lia|].
  destruct (Z.eqb_spec w 0); [lia|]. cbn [orb].
  set (n_rows := Z.to_nat ((R - w) / (w - o) + 1)) in *.
  set (n_cols := Z.to_nat ((C - w) / (w - o) + 1)) in *.
  destruct A as [rA cA wA]. cbn [rows3 cols3 wins nwin] in *. unfold nwin in Hn.
  cbn [wins] in Hn. subst rA cA. f_equal. f_equal.
  assert (Lp : length (list_prod (arange ((R - w) / (w - o) + 1))
                                 (arange ((C - w) / (w - o) + 1)))
               = (n_rows * n_cols)%nat)
    by (rewrite length_prod, !length_arange; reflexivity).
  assert (Lq : length (list_prod (arange w) (arange w)) = (Z.to_nat w * Z.to_nat w)%nat)
    by (rewrite length_prod, !length_arange; reflexivity).
  apply nth_ext with (d := []) (d' := []).
  - rewrite length_map, Lp, Hn. reflexivity.
  - intros k Hk. rewrite length_map, Lp in Hk.
    set (F := fun '(a, b) => map _ _).
    rewrite (nth_map_lt F _ k (0%Z, 0%Z) []) by (rewrite Lp; exact Hk).
    rewrite nth_list_prod by (rewrite !length_arange; exact Hk).
    rewrite !length_arange. fold n_cols.
    assert (Hnc : (0 < n_cols)%nat) by (unfold n_cols; lia).
    assert (Ha : (k / n_cols < n_rows)%nat) by (apply Nat.Div0.div_lt_upper_bound; lia).
    assert (Hbm : (k mod n_cols < n_cols)%nat) by (apply Nat.mod_upper_bound; lia).
    rewrite !nth_arange by assumption. unfold F.
    assert (Lw : length (nth k wA []) = (Z.to_nat w * Z.to_nat w)%nat).
    { unfold batch_ok in Hb. cbn [rows3 cols3 wins] in Hb.
      rewrite Forall_forall in Hb. apply Hb. apply nth_In. lia. }
    apply nth_ext with (d := NaN) (d' := NaN).
    + rewrite length_map, Lq, Lw. reflexivity.
    + intros p Hp. rewrite length_map, Lq in Hp.
      set (G := fun '(i, j) => strided_read _ _ _).
      rewrite (nth_map_lt G _ p (0%Z, 0%Z) NaN) by (rewrite Lq; exact Hp).
      rewrite nth_list_prod by (rewrite !length_arange; exact Hp).
      rewrite !length_arange.
      assert (Hw : (0 < Z.to_nat w)%nat) by lia.
      assert (Hi : (p / Z.to_nat w < Z.to_nat w)%nat)
        by (apply Nat.Div0.div_lt_upper_bound; lia).
      assert (Hj : (p mod Z.to_nat w < Z.to_nat w)%nat) by (apply Nat.mod_upper_bound; lia).
      rewrite !nth_arange by assumption. unfold G.
      rewrite (Nat.div_mod_eq k n_cols) at 3.
      rewrite (Nat.div_mod_eq p (Z.to_nat w)) at 3.
      replace (n_cols * (k / n_cols) + k mod n_cols)%nat
        with (k / n_cols * n_cols + k mod n_cols)%nat by lia.
      replace (Z.to_nat w * (p / Z.to_nat w) + p mod Z.to_nat w)%nat
        with (p / Z.to_nat w * Z.to_nat w + p mod Z.to_nat w)%nat by lia.
      rewrite (Hnth _ _ _ _ Ha Hbm Hi Hj).
      set (a := (k / n_cols)%nat) in *. set (b := (k mod n_cols)%nat) in *.
      set (i := (p / Z.to_nat w)%nat) in *. set (j := (p mod Z.to_nat w)%nat) in *.
      pose proof (window_origin_bound a R w o Ho (proj1 HR) Ha) as Ba.
      pose proof (window_origin_bound b C w o Ho (proj1 HC) Hbm) as Bb.
      assert (Ef : (C * (w - o) * Z.of_nat a + (w - o) * Z.of_nat b + C * Z.of_nat i
                    + Z.of_nat j)%Z
                   = Z.of_nat ((a * Z.to_nat (w - o) + i) * ncol img
                               + (b * Z.to_nat (w - o) + j))).
      { rewrite !Nat2Z.inj_add, !Nat2Z.inj_mul, !Nat2Z.inj_add, !Nat2Z.inj_mul.
        rewrite Z2Nat.id by lia. fold C. ring. }
      rewrite Ef. apply strided_read_in_bounds.
      unfold map2_ok, win_ok in Hok. rewrite Hok.
      apply Nat2Z.inj_lt. rewrite <- Ef, Nat2Z.inj_mul. fold R C.
      set (za := (Z.of_nat a * (w - o))%Z) in *. set (zb := (Z.of_nat b * (w - o))%Z) in *.
      replace (C * (w - o) * Z.of_nat a + (w - o) * Z.of_nat b + C * Z.of_nat i + Z.of_nat j)%Z
        with (C * (za + Z.of_nat i) + (zb + Z.of_nat j))%Z by (unfold za, zb; ring).
      assert (Hrow : (za + Z.of_nat i <= R - 1)%Z) by lia.
      pose proof (Z.mul_le_mono_nonneg_l _ _ C ltac:(lia) Hrow) as Hmul.
      replace (R * C)%Z with (C * (R - 1) + C)%Z by ring. lia.
Qed.

Lemma moving_window_array_is_sliding_witness :
  moving_window_array (fun _ => NaN) frame8_a 4 0
  = sliding_window_array frame8_a (4, 4)%Z (0, 0)%Z None.
Proof.
  apply (moving_window_array_is_sliding (fun _ => NaN) frame8_a 4 0).
  - reflexivity.
  - lia.
  - cbn. lia.
  - cbn. lia.
Defined.

(** The strided extractor does not check that the window fits.  For an
    image with fewer rows than the window (but more rows than the overlap),
    [int((rows - w) / (w - o))] truncates to [0], one row of windows is
    returned, and row [rows] of its first window is read past the end of
    the buffer. *)
Theorem moving_window_array_reads_outside (beyond : Z -> num) (img : image) (w o : Z) :
  let R := Z.of_nat (nrow img) in
  let C := Z.of_nat (ncol img) in
  map2_ok img ->
  (0 <= o < R)%Z -> (R < w)%Z -> (w <= C)%Z ->
  exists B,
    moving_window_array beyond img w o = Ok B
    /\ nwin B = Z.to_nat ((C - w) / (w - o) + 1)
    /\ (1 <= nwin B)%nat
    /\ nth (nrow img * Z.to_nat w) (nth 0 (wins B) []) NaN = beyond (C * R)%Z.
Proof.
  intros R C Hok Ho HR HC.
  unfold moving_window_array, int_div, rbind. fold R C.
  destruct (Z.eqb_spec (w - o) 0) as [E|_]; [lia|].
  assert (Q0 : Z.quot (R - w) (w - o) = 0%Z).
  { rewrite <- (Z.opp_involutive (R - w)), Z.quot_opp_l by lia.
    rewrite Z.quot_small by lia. reflexivity. }
  rewrite Q0, Z.quot_div_nonneg by lia.
  pose proof (Z.div_pos (C - w) (w - o) ltac:(lia) ltac:(lia)) as P1.
  destruct (Z.ltb_spec ((C - w) / (w - o) + 1) 0); [lia|].
  destruct (Z.ltb_spec w 0); [lia|].
  destruct (Z.eqb_spec w 0); [lia|]. cbn [Z.add Z.ltb Z.compare orb].
  eexists. split; [reflexivity|]. unfold nwin. cbn [wins].
  rewrite length_map, length_prod, !length_arange. cbn [Z.to_nat Pos.to_nat Pos.iter_op].
  split; [lia|]. split; [lia|].
  set (F := fun '(a, b) => map _ _).
  rewrite (nth_map_lt F _ 0 (0%Z, 0%Z) [])
    by (rewrite length_prod, !length_arange; cbn; lia).
  rewrite nth_list_prod by (rewrite !length_arange; cbn; lia).
  rewrite length_arange, Nat.Div0.div_0_l, Nat.Div0.mod_0_l.
  rewrite !nth_arange by (cbn; lia). unfold F.
  set (G := fun '(i, j) => strided_read _ _ _).
  assert (Hp : (nrow img * Z.to_nat w < Z.to_nat w * Z.to_nat w)%nat) by (unfold R in HR; nia).
  rewrite (nth_map_lt G _ _ (0%Z, 0%Z) NaN)
    by (rewrite length_prod, !length_arange; exact Hp).
  rewrite nth_list_prod by (rewrite !length_arange; exact Hp).
  rewrite length_arange, Nat.div_mul, Nat.Div0.mod_mul by lia.
  rewrite !nth_arange by (unfold R in HR; lia). unfold G.
  replace (C * (w - o) * Z.of_nat 0 + (w - o) * Z.of_nat 0 + C * Z.of_nat (nrow img)
           + Z.of_nat 0)%Z with (C * R)%Z by (unfold R; lia).
  unfold strided_read. unfold map2_ok, win_ok in Hok. rewrite Hok.
  destruct (Z.ltb_spec (C * R) (Z.of_nat (nrow img * ncol img))) as [L|_].
  - unfold R, C in L. lia.
  - rewrite andb_false_r. reflexivity.
Qed.

Lemma moving_window_array_reads_outside_witness :
  exists B,
    moving_window_array (fun k => of_Z k) frame8_a 6 0 = Ok B
    /\ nwin B = 1%nat
    /\ (1 <= nwin B)%nat
    /\ nth (4 * 6) (nth 0 (wins B) []) NaN = of_Z 32.
Proof.
  apply (moving_window_array_reads_outside (fun k => of_Z k) frame8_a 6 0).
  - reflexivity.
  - cbn. lia.
  - cbn. lia.
  - cbn. lia.
Defined.

(** ** The order on values *)

Lemma Qc_leb_le (a b : Qc) : Qc_leb a b = true <-> (a <= b)%Qc.
Proof.
  unfold Qc_leb. rewrite Qcle_alt.
  destruct (a ?= b)%Qc; split; intros H; congruence.
Qed.

Lemma negb_leb_ltb (x y : num) :
  isnan x = false -> isnan y = false -> negb (leb x y) = ltb y x.
Proof.
  destruct x as [a| | |], y as [b| | |]; intros Hx Hy; try discriminate; try reflexivity.
  cbn [leb ltb]. unfold Qc_leb, Qc_ltb.
  destruct (a ?= b)%Qc eqn:E.
  - apply Qceq_alt in E. subst b.
    assert (H : (a ?= a)%Qc = Eq) by (apply Qceq_alt; reflexivity).
    rewrite H. reflexivity.
  - apply Qclt_alt in E. assert (H : (b ?= a)%Qc = Gt) by (apply Qcgt_alt; exact E).
    rewrite H. reflexivity.
  - apply Qcgt_alt in E. assert (H : (b ?= a)%Qc = Lt) by (apply Qclt_alt; exact E).
    rewrite H. reflexivity.
Qed.

Lemma leb_refl (x : num) : isnan x = false -> leb x x = true.
Proof.
  destruct x as [a| | |]; intros H; try discriminate; try reflexivity.
  apply Qc_leb_le. apply Qcle_refl.
Qed.

Lemma leb_trans (x y z : num) : leb x y = true -> leb y z = true -> leb x z = true.
Proof.
  destruct x as [a| | |], y as [b| | |], z as [c| | |]; cbn [leb];
    intros H1 H2; try discriminate; try reflexivity.
  apply Qc_leb_le. apply Qc_leb_le in H1, H2. eapply Qcle_trans; eassumption.
Qed.

Lemma ltb_leb (x y : num) : ltb x y = true -> leb x y = true.
Proof.
  destruct x as [a| | |], y as [b| | |]; cbn [leb ltb];
    intros H; try discriminate; try reflexivity.
  apply Qc_leb_le. apply Qc_ltb_lt in H. apply Qclt_le_weak. exact H.
Qed.

Lemma ltb_leb_trans (x y z : num) : ltb x y = true -> leb y z = true -> ltb x z = true.
Proof.
  destruct x as [a| | |], y as [b| | |], z as [c| | |]; cbn [leb ltb];
    intros H1 H2; try discriminate; try reflexivity.
  apply Qc_ltb_lt. apply Qc_ltb_lt in H1. apply Qc_leb_le in H2.
  eapply Qclt_le_trans; eassumption.
Qed.

Lemma leb_ltb_trans (x y z : num) : leb x y = true -> ltb y z = true -> ltb x z = true.
Proof.
  destruct x as [a| | |], y as [b| | |], z as [c| | |]; cbn [leb ltb];
    intros H1 H2; try discriminate; try reflexivity.
  apply Qc_ltb_lt. apply Qc_ltb_lt in H2. apply Qc_leb_le in H1.
  eapply Qcle_lt_trans; eassumption.
Qed.

Lemma ltb_not_nan (x y : num) : ltb x y = true -> isnan x = false /\ isnan y = false.
Proof. destruct x, y; cbn; intros H; try discriminate; split; reflexivity. Qed.

(** ** The first peak *)

(** The running maximum of [argmax]: on values without NaN the result is
    either the incoming best or a later, strictly larger one, and it
    dominates everything seen. *)
Lemma argmax_from_spec (l : list num) :
  Forall (fun x => isnan x = false) l ->
  forall (bi i : nat) (best : num),
  isnan best = false ->
  let r := argmax_from bi best i l in
  (r = bi /\ forall x, In x l -> leb x best = true)
  \/ ((i <= r < i + length l)%nat
      /\ ltb best (nth (r - i) l NaN) = true
      /\ (forall x, In x l -> leb x (nth (r - i) l NaN) = true)
      /\ (forall k, (k < r - i)%nat -> ltb (nth k l NaN) (nth (r - i) l NaN) = true)).
Proof.
  induction 1 as [|x l Hx Hl IH]; intros bi i best Hb; cbn zeta.
  - left. split; [reflexivity|]. intros x [].
  - cbn [argmax_from]. rewrite Hb. rewrite negb_leb_ltb by assumption.
    destruct (ltb best x) eqn:E.
    + right. destruct (IH i (S i) x Hx) as [[Hr Hall]|[Hr [Hlt [Hall Hbefore]]]].
      * rewrite Hr. rewrite Nat.sub_diag. cbn [nth length].
        split; [lia|]. split; [exact E|]. split.
        -- intros y [Hy|Hy]; [subst y; apply leb_refl; exact Hx | apply Hall; exact Hy].
        -- intros k Hk. lia.
      * set (r := argmax_from i x (S i) l) in *.
        replace (r - i)%nat with (S (r - S i)) by lia. cbn [nth length].
        split; [lia|]. split.
        -- eapply ltb_leb_trans; [exact E|]. apply ltb_leb. exact Hlt.
        -- split.
           ++ intros y [Hy|Hy]; [subst y; apply ltb_leb; exact Hlt | apply Hall; exact Hy].
           ++ intros [|k] Hk; cbn [nth]; [exact Hlt|]. apply Hbefore. lia.
    + assert (Hxb : leb x best = true).
      { rewrite <- negb_leb_ltb in E by assumption.
        destruct (leb x best); [reflexivity | discriminate]. }
      destruct (IH bi (S i) best Hb) as [[Hr Hall]|[Hr [Hlt [Hall Hbefore]]]].
      * left. split; [exact Hr|].
        intros y [Hy|Hy]; [subst y; exact Hxb | apply Hall; exact Hy].
      * right. set (r := argmax_from bi best (S i) l) in *.
        replace (r - i)%nat with (S (r - S i)) by lia. cbn [nth length].
        split; [lia|]. split; [exact Hlt|]. split.
        -- intros y [Hy|Hy]; [|apply Hall; exact Hy]. subst y.
           eapply leb_trans; [exact Hxb|]. apply ltb_leb. exact Hlt.
        -- intros [|k] Hk; cbn [nth].
           ++ eapply leb_ltb_trans; [exact Hxb | exact Hlt].
           ++ apply Hbefore. lia.
Qed.

Lemma argmax_spec (l : list num) :
  l <> [] -> Forall (fun x => isnan x = false) l ->
  (argmax l < length l)%nat
  /\ (forall x, In x l -> leb x (nth (argmax l) l NaN) = true)
  /\ (forall k, (k < argmax l)%nat -> ltb (nth k l NaN) (nth (argmax l) l NaN) = true).
Proof.
  intros Hne Hall. destruct l as [|x l]; [congruence|].
  inversion Hall as [|? ? Hx Hl]; subst. cbn [argmax].
  destruct (argmax_from_spec l Hl 0 1 x Hx) as [[Hr Hle]|[Hr [Hlt [Hle Hbefore]]]].
  - rewrite Hr. cbn [nth length]. split; [lia|]. split.
    + intros y [Hy|Hy]; [subst y; apply leb_refl; exact Hx | apply Hle; exact Hy].
    + intros k Hk. lia.
  - set (r := argmax_from 0 x 1 l) in *.
    replace r with (S (r - 1)) by lia. cbn [nth length].
    split; [lia|]. split.
    + intros y [Hy|Hy]; [subst y; apply ltb_leb; exact Hlt | apply Hle; exact Hy].
    + intros [|k] Hk; cbn [nth]; [exact Hlt|]. apply Hbefore. lia.
Qed.

Lemma find_first_peak_val_eq (corr : map2) :
  buf corr <> [] ->
  find_first_peak_val corr
  = Ok (unravel_index (argmax (buf corr)) (ncol corr), amax (buf corr)).
Proof.
  intros H. unfold find_first_peak_val. destruct (buf corr); [congruence | reflexivity].
Qed.

(** [find_first_peak] on a map without NaN: the reported position is inside
    the map, the reported value is the sample there, no sample is larger,
    and every sample before it (in row-major order) is strictly smaller.
    The map is left as it is. *)
Theorem find_first_peak_is_maximum (corr : map2) :
  map2_ok corr -> buf corr <> [] ->
  Forall (fun x => isnan x = false) (buf corr) ->
  exists (i j : nat) (v : num),
    find_first_peak corr = (Ok ((Z.of_nat i, Z.of_nat j), v), corr)
    /\ (i < nrow corr)%nat /\ (j < ncol corr)%nat
    /\ nth (i * ncol corr + j) (buf corr) NaN = v
    /\ (forall k, (k < length (buf corr))%nat -> leb (nth k (buf corr) NaN) v = true)
    /\ (forall k, (k < i * ncol corr + j)%nat -> ltb (nth k (buf corr) NaN) v = true).
Proof.
  intros Hok Hne Hall.
  destruct (argmax_spec (buf corr) Hne Hall) as [Hlt [Hmax Hfirst]].
  unfold map2_ok, win_ok in Hok.
  assert (Hc : (0 < ncol corr)%nat).
  { destruct (ncol corr); [|lia]. rewrite Nat.mul_0_r in Hok.
    destruct (buf corr); [congruence | discriminate]. }
  set (idx := argmax (buf corr)) in *.
  assert (Hidx : (idx / ncol corr * ncol corr + idx mod ncol corr = idx)%nat).
  { rewrite (Nat.div_mod_eq idx (ncol corr)) at 3. lia. }
  exists (idx / ncol corr)%nat, (idx mod ncol corr)%nat, (nth idx (buf corr) NaN).
  split.
  - unfold find_first_peak, lift. rewrite find_first_peak_val_eq by exact Hne.
    reflexivity.
  - split; [apply Nat.Div0.div_lt_upper_bound; lia|].
    split; [apply Nat.mod_upper_bound; lia|].
    rewrite Hidx. split; [reflexivity|]. split.
    + intros k Hk. apply Hmax. apply nth_In. exact Hk.
    + exact Hfirst.
Qed.

Lemma find_first_peak_is_maximum_witness :
  exists (i j : nat) (v : num),
    find_first_peak (mk_arr2 3 3 centre_map)
    = (Ok ((Z.of_nat i, Z.of_nat j), v), mk_arr2 3 3 centre_map)
    /\ (i < 3)%nat /\ (j < 3)%nat
    /\ nth (i * 3 + j) centre_map NaN = v
    /\ (forall k, (k < length centre_map)%nat -> leb (nth k centre_map NaN) v = true)
    /\ (forall k, (k < i * 3 + j)%nat -> ltb (nth k centre_map NaN) v = true).
Proof.
  apply (find_first_peak_is_maximum (mk_arr2 3 3 centre_map)).
  - reflexivity.
  - discriminate.
  - repeat constructor.
Defined.

Lemma argmax_from_first_nan (l : list num) (p : nat) :
  nth p l zero = NaN ->
  (forall k, (k < p)%nat -> isnan (nth k l zero) = false) ->
  forall (bi i : nat) (best : num),
  isnan best = false -> argmax_from bi best i l = (i + p)%nat.
Proof.
  revert p. induction l as [|x l IH]; intros p Hp Hbefore bi i best Hb.
  - destruct p; discriminate Hp.
  - cbn [argmax_from]. rewrite Hb. destruct p as [|p].
    + cbn [nth] in Hp. subst x. cbn [leb negb].
      destruct best; cbn [leb negb]; destruct l; cbn [argmax_from isnan]; lia.
    + assert (Hx : isnan x = false) by (apply (Hbefore 0%nat); lia).
      assert (Hb' : forall k, (k < p)%nat -> isnan (nth k l zero) = false).
      { intros k Hk. apply (Hbefore (S k)). lia. }
      cbn [nth] in Hp.
      destruct (negb (leb x best)).
      * rewrite (IH p Hp Hb' i (S i) x Hx). lia.
      * rewrite (IH p Hp Hb' bi (S i) best Hb). lia.
Qed.

(** A NaN in the map wins: [find_first_peak] reports the position of the
    first NaN (in row-major order) and the value NaN. *)
Theorem find_first_peak_nan (corr : map2) (p : nat) :
  (0 < ncol corr)%nat ->
  nth p (buf corr) zero = NaN ->
  (forall k, (k < p)%nat -> isnan (nth k (buf corr) zero) = false) ->
  find_first_peak corr
  = (Ok ((Z.of_nat (p / ncol corr), Z.of_nat (p mod ncol corr)), NaN), corr).
Proof.
  intros Hc Hp Hbefore.
  assert (Hidx : argmax (buf corr) = p).
  { destruct (buf corr) as [|x l] eqn:E; [destruct p; discriminate Hp|].
    cbn [argmax]. destruct p as [|p].
    - cbn [nth] in Hp. subst x. destruct l; reflexivity.
    - assert (Hx : isnan x = false) by (apply (Hbefore 0%nat); lia).
      cbn [nth] in Hp.
      rewrite (argmax_from_first_nan l p Hp); [lia | | exact Hx].
      intros k Hk. apply (Hbefore (S k)). lia. }
  unfold find_first_peak, lift.
  rewrite find_first_peak_val_eq by (intros E; rewrite E in Hp; destruct p; discriminate Hp).
  unfold unravel_index, amax. rewrite Hidx.
  assert (Hlen : (p < length (buf corr))%nat).
  { destruct (Nat.lt_ge_cases p (length (buf corr))) as [H|H]; [exact H|].
    rewrite nth_overflow in Hp by exact H. discriminate Hp. }
  rewrite (nth_indep _ NaN zero) by exact Hlen. rewrite Hp. reflexivity.
Qed.

Lemma find_first_peak_nan_witness :
  find_first_peak (mk_arr2 2 2 [of_Z 5; NaN; of_Z 7; NaN])
  = (Ok ((0, 1)%Z, NaN), mk_arr2 2 2 [of_Z 5; NaN; of_Z 7; NaN]).
Proof.
  apply (find_first_peak_nan (mk_arr2 2 2 [of_Z 5; NaN; of_Z 7; NaN]) 1).
  - cbn. lia.
  - reflexivity.
  - intros [|k] Hk; [reflexivity | lia].
Defined.

(** ** The batched estimator and the single-window estimator *)












(** ** The second peak *)

Lemma length_set_masked (r c : nat) (i0 i1 j0 j1 : Z) (m : mask2) :
  length (set_masked r c i0 i1 j0 j1 m) = length m.
Proof.
  unfold set_masked. rewrite length_map, length_combine, length_seq. apply Nat.min_id.
Qed.

Lemma nth_set_masked (r c : nat) (i0 i1 j0 j1 : Z) (m : mask2) (k : nat) :
  (k < length m)%nat ->
  nth k (set_masked r c i0 i1 j0 j1 m) false
  = if ((slice_bound i0 r <=? k / c) && (k / c <? slice_bound i1 r)
        && (slice_bound j0 c <=? k mod c) && (k mod c <? slice_bound j1 c))%nat
    then true else nth k m false.
Proof.
  intros Hk. unfold set_masked.
  rewrite (nth_map_lt _ _ k (0%nat, false) false)
    by (rewrite length_combine, length_seq; lia).
  rewrite nth_combine_lt by (rewrite ?length_seq; lia).
  rewrite seq_nth by exact Hk. reflexivity.
Qed.

Lemma length_filled (data : list num) (m : mask2) :
  length m = length data -> length (filled data m) = length data.
Proof.
  intros H. unfold filled. rewrite length_map, length_combine, H. apply Nat.min_id.
Qed.

Lemma nth_filled (data : list num) (m : mask2) (k : nat) :
  length m = length data -> (k < length data)%nat ->
  nth k (filled data m) NaN = if nth k m false then NInf else nth k data NaN.
Proof.
  intros H Hk. unfold filled.
  rewrite (nth_map_lt _ _ k (NaN, false) NaN) by (rewrite length_combine; lia).
  rewrite nth_combine_lt by lia. reflexivity.
Qed.

Lemma forallb_nth_false (m : list bool) (k : nat) :
  (k < length m)%nat -> nth k m false = false -> forallb (fun b => b) m = false.
Proof.
  revert k. induction m as [|b m IH]; intros k Hk H; [cbn in Hk; lia|].
  destruct k as [|k]; cbn in *.
  - subst b. reflexivity.
  - rewrite (IH k) by (lia || assumption). apply andb_false_r.
Qed.

Lemma find_first_peak_masked_eq (m : mask2) (corr : map2) :
  buf corr <> [] ->
  find_first_peak_masked m corr
  = Ok (unravel_index (argmax (filled (buf corr) m)) (ncol corr), masked_max (buf corr) m).
Proof.
  intros H. unfold find_first_peak_masked. destruct (buf corr); [congruence | reflexivity].
Qed.

(** The clamped band [[max(0, i - width), min(i + width + 1, r))] holds the
    indices within [width] of [i]. *)
Lemma in_band (a i r : nat) (width : Z) :
  (a < r)%nat -> (i < r)%nat -> (0 <= width)%Z ->
  ((Nat.min (Z.to_nat (Z.max 0 (Z.of_nat i - width))) r <= a)%nat
   /\ (a < Nat.min (Z.to_nat (Z.min (Z.of_nat i + width + 1) (Z.of_nat r))) r)%nat)
  <-> (Z.abs (Z.of_nat a - Z.of_nat i) <= width)%Z.
Proof.
  intros Ha Hi Hw.
  assert (E1 : Z.of_nat (Nat.min (Z.to_nat (Z.max 0 (Z.of_nat i - width))) r)
               = Z.max 0 (Z.of_nat i - width)) by lia.
  assert (E2 : Z.of_nat (Nat.min (Z.to_nat (Z.min (Z.of_nat i + width + 1) (Z.of_nat r))) r)
               = Z.min (Z.of_nat i + width + 1) (Z.of_nat r)) by lia.
  rewrite Nat2Z.inj_le, Nat2Z.inj_lt, E1, E2. lia.
Qed.

(** [find_second_peak] with the first peak given, on a map of finite values
    that the exclusion square does not cover: the reported position lies
    outside the square of half-width [width] around the first peak, the
    reported value is the sample there, and no sample outside the square is
    larger.  The map is left as it is. *)
Theorem find_second_peak_outside (corr : map2) (i j : nat) (width : Z) :
  map2_ok corr ->
  (forall x, In x (buf corr) -> exists q, x = Fin q) ->
  (i < nrow corr)%nat -> (j < ncol corr)%nat -> (0 <= width)%Z ->
  (width < Z.of_nat i \/ Z.of_nat i + width + 1 < Z.of_nat (nrow corr)
   \/ width < Z.of_nat j \/ Z.of_nat j + width + 1 < Z.of_nat (ncol corr))%Z ->
  exists (i2 j2 : nat) (v2 : num),
    find_second_peak (Some (Z.of_nat i)) (Some (Z.of_nat j)) width corr
    = (Ok ((Z.of_nat i2, Z.of_nat j2), v2), corr)
    /\ (i2 < nrow corr)%nat /\ (j2 < ncol corr)%nat
    /\ (width < Z.abs (Z.of_nat i2 - Z.of_nat i)
        \/ width < Z.abs (Z.of_nat j2 - Z.of_nat j))%Z
    /\ nth (i2 * ncol corr + j2) (buf corr) NaN = v2
    /\ forall a b : nat,
         (a < nrow corr)%nat -> (b < ncol corr)%nat ->
         (width < Z.abs (Z.of_nat a - Z.of_nat i)
          \/ width < Z.abs (Z.of_nat b - Z.of_nat j))%Z ->
         leb (nth (a * ncol corr + b) (buf corr) NaN) v2 = true.
Proof.
  intros Hok Hfin Hi Hj Hw Hfree.
  set (r := nrow corr) in *. set (c := ncol corr) in *.
  unfold map2_ok, win_ok in Hok. fold r c in Hok.
  set (data := buf corr) in *.
  set (m := set_masked r c (Z.max 0 (Z.of_nat i - width))
              (Z.min (Z.of_nat i + width + 1) (Z.of_nat r))
              (Z.max 0 (Z.of_nat j - width))
              (Z.min (Z.of_nat j + width + 1) (Z.of_nat c))
              (view_masked corr)).
  assert (Lm : length m = length data).
  { unfold m. rewrite length_set_masked. unfold view_masked. apply repeat_length. }
  (* the mask, cell by cell *)
  assert (Hm : forall a b : nat, (a < r)%nat -> (b < c)%nat ->
             nth (a * c + b) m false
             = negb ((width <? Z.abs (Z.of_nat a - Z.of_nat i))%Z
                     || (width <? Z.abs (Z.of_nat b - Z.of_nat j))%Z)).
  { intros a b Ha Hb. unfold m.
    assert (Hab : (a * c + b < r * c)%nat).
    { apply (Nat.lt_le_trans _ (S a * c)); [lia|]. apply Nat.mul_le_mono_r. lia. }
    rewrite nth_set_masked
      by (unfold view_masked; rewrite repeat_length; fold data; lia).
    unfold view_masked. rewrite nth_repeat_lt by (fold data; lia).
    rewrite Nat.div_add_l, Nat.div_small, Nat.add_0_r by lia.
    rewrite Nat.add_comm, Nat.Div0.mod_add, Nat.mod_small by lia.
    unfold slice_bound.
    destruct (Z.ltb_spec (Z.max 0 (Z.of_nat i - width)) 0); [lia|].
    destruct (Z.ltb_spec (Z.min (Z.of_nat i + width + 1) (Z.of_nat r)) 0); [lia|].
    destruct (Z.ltb_spec (Z.max 0 (Z.of_nat j - width)) 0); [lia|].
    destruct (Z.ltb_spec (Z.min (Z.of_nat j + width + 1) (Z.of_nat c)) 0); [lia|].
    match goal with
    | |- (if ?cond then true else false) = ?rhs =>
        assert (E : cond = rhs); [|rewrite E; destruct rhs; reflexivity]
    end.
    apply eq_true_iff_eq.
    rewrite !andb_true_iff, negb_true_iff, orb_false_iff.
    rewrite !Nat.leb_le, !Nat.ltb_lt, !Z.ltb_ge.
    pose proof (in_band a i r width Ha Hi Hw) as Ba.
    pose proof (in_band b j c width Hb Hj Hw) as Bb.
    tauto. }
  assert (Hr : (0 < r)%nat) by lia. assert (Hc : (0 < c)%nat) by lia.
  assert (Hcell : forall a b : nat, (a < r)%nat -> (b < c)%nat ->
                    (a * c + b < length data)%nat).
  { intros a b Ha Hb. rewrite Hok.
    apply (Nat.lt_le_trans _ (S a * c)); [lia|]. apply Nat.mul_le_mono_r. lia. }
  set (fl := filled data m).
  assert (Lfl : length fl = length data) by (apply length_filled; exact Lm).
  assert (Hfl : forall a b : nat, (a < r)%nat -> (b < c)%nat ->
             (width < Z.abs (Z.of_nat a - Z.of_nat i)
              \/ width < Z.abs (Z.of_nat b - Z.of_nat j))%Z ->
             nth (a * c + b) fl NaN = nth (a * c + b) data NaN).
  { intros a b Ha Hb Hout. unfold fl.
    rewrite nth_filled by (exact Lm || apply Hcell; assumption).
    rewrite Hm by assumption.
    destruct (Z.ltb_spec width (Z.abs (Z.of_nat a - Z.of_nat i))),
      (Z.ltb_spec width (Z.abs (Z.of_nat b - Z.of_nat j))); cbn; try reflexivity; lia. }
  assert (Hnn : Forall (fun x => isnan x = false) fl).
  { apply Forall_forall. intros x Hx. apply (In_nth _ _ NaN) in Hx.
    destruct Hx as [k [Hk Ex]]. rewrite Lfl in Hk. subst x. unfold fl.
    rewrite nth_filled by assumption. destruct (nth k m false); [reflexivity|].
    destruct (Hfin (nth k data NaN) (nth_In _ _ Hk)) as [q Eq]. rewrite Eq. reflexivity. }
  assert (Hfree' : exists a0 b0 : nat, (a0 < r)%nat /\ (b0 < c)%nat
             /\ (width < Z.abs (Z.of_nat a0 - Z.of_nat i)
                 \/ width < Z.abs (Z.of_nat b0 - Z.of_nat j))%Z).
  { destruct Hfree as [H|[H|[H|H]]].
    - exists 0%nat, 0%nat. lia.
    - exists (r - 1)%nat, 0%nat. lia.
    - exists 0%nat, 0%nat. lia.
    - exists 0%nat, (c - 1)%nat. lia. }
  destruct Hfree' as [a0 [b0 [Ha0 [Hb0 Hout0]]]].
  assert (Hne : fl <> []).
  { intros E. rewrite E in Lfl. cbn in Lfl. specialize (Hcell a0 b0 Ha0 Hb0). lia. }
  destruct (argmax_spec fl Hne Hnn) as [Hlt [Hmax _]].
  set (idx := argmax fl) in *.
  assert (Hidx : (idx / c * c + idx mod c = idx)%nat).
  { rewrite (Nat.div_mod_eq idx c) at 3. lia. }
  assert (Hi2 : (idx / c < r)%nat) by (apply Nat.Div0.div_lt_upper_bound; lia).
  assert (Hj2 : (idx mod c < c)%nat) by (apply Nat.mod_upper_bound; lia).
  (* the maximum is not a masked cell *)
  assert (Hfree0 : exists q, nth (a0 * c + b0) fl NaN = Fin q).
  { rewrite Hfl by assumption. apply Hfin. apply nth_In. apply Hcell; assumption. }
  destruct Hfree0 as [q0 Hq0].
  assert (Hge : leb (Fin q0) (nth idx fl NaN) = true).
  { rewrite <- Hq0. apply Hmax. apply nth_In. rewrite Lfl. apply Hcell; assumption. }
  assert (Hout : (width < Z.abs (Z.of_nat (idx / c) - Z.of_nat i)
                  \/ width < Z.abs (Z.of_nat (idx mod c) - Z.of_nat j))%Z).
  { assert (Hmask : nth idx m false = false).
    { destruct (nth idx m false) eqn:E; [|reflexivity].
      unfold fl in Hge. rewrite nth_filled in Hge by lia. rewrite E in Hge.
      discriminate Hge. }
    rewrite <- Hidx in Hmask. rewrite Hm in Hmask by assumption.
    apply negb_false_iff, orb_true_iff in Hmask.
    destruct Hmask as [H|H]; apply Z.ltb_lt in H; [left | right]; exact H. }
  exists (idx / c)%nat, (idx mod c)%nat, (nth idx data NaN).
  split.
  - unfold find_second_peak, bind, ret, reads, lift. cbn [fst snd].
    fold r c m. rewrite find_first_peak_masked_eq
      by (fold data; intros E; rewrite E in Lfl; cbn in Lfl; lia).
    fold data fl. unfold unravel_index. fold idx. fold c.
    unfold masked_max.
    assert (Hall : forallb (fun b => b) m = false).
    { apply (forallb_nth_false m (a0 * c + b0)).
      - rewrite Lm. apply Hcell; assumption.
      - rewrite Hm by assumption. apply negb_false_iff, orb_true_iff.
        destruct Hout0 as [H|H]; [left | right]; apply Z.ltb_lt; exact H. }
    rewrite Hall.
    fold fl. unfold amax. fold idx.
    rewrite <- Hidx at 3. rewrite Hfl by assumption. rewrite Hidx. reflexivity.
  - split; [exact Hi2|]. split; [exact Hj2|]. split; [exact Hout|].
    rewrite Hidx. split; [reflexivity|].
    intros a b Ha Hb Hab.
    rewrite <- (Hfl a b Ha Hb Hab).
    rewrite <- Hidx at 1. rewrite <- (Hfl _ _ Hi2 Hj2 Hout). rewrite Hidx.
    apply Hmax. apply nth_In. rewrite Lfl. apply Hcell; assumption.
Qed.

Lemma find_second_peak_outside_witness :
  exists (i2 j2 : nat) (v2 : num),
    find_second_peak (Some 1%Z) (Some 1%Z) 2 (mk_arr2 5 5 faint_peak_map)
    = (Ok ((Z.of_nat i2, Z.of_nat j2), v2), mk_arr2 5 5 faint_peak_map)
    /\ (i2 < 5)%nat /\ (j2 < 5)%nat
    /\ (2 < Z.abs (Z.of_nat i2 - Z.of_nat 1) \/ 2 < Z.abs (Z.of_nat j2 - Z.of_nat 1))%Z
    /\ nth (i2 * 5 + j2) faint_peak_map NaN = v2
    /\ forall a b : nat,
         (a < 5)%nat -> (b < 5)%nat ->
         (2 < Z.abs (Z.of_nat a - Z.of_nat 1) \/ 2 < Z.abs (Z.of_nat b - Z.of_nat 1))%Z ->
         leb (nth (a * 5 + b) faint_peak_map NaN) v2 = true.
Proof.
  apply (find_second_peak_outside (mk_arr2 5 5 faint_peak_map) 1 1 2).
  - reflexivity.
  - intros x Hx. cbn [buf] in Hx. unfold faint_peak_map in Hx.
    apply in_map_iff in Hx. destruct Hx as [k [Hk _]]. subst x.
    destruct (k =? 6)%nat; [eexists; reflexivity|].
    destruct (k =? 24)%nat; eexists; reflexivity.
  - cbn. lia.
  - cbn. lia.
  - lia.
  - cbn. lia.
Defined.

(** ** The parabolic fit *)














(** ** Options that are not implemented *)

Lemma bind_assoc {S A B C : Type} (m : M S A) (f : A -> M S B) (g : B -> M S C) (s : S) :
  bind m (fun a => bind (f a) g) s = bind (bind m f) g s.
Proof.
  unfold bind. destruct (m s) as [[a|e] s1]; [|reflexivity].
  destruct (f a s1) as [[b|e] s2]; reflexivity.
Qed.

(** A computation whose last step always fails, against the same
    computation with a last step that leaves the state alone. *)
Lemma failing_tail {S A B : Type} (m : M S A) (k1 k2 : A -> M S B) (s : S) (err : error) :
  (forall a s', k1 a s' = (Raise err, s')) ->
  (forall a s', snd (k2 a s') = s') ->
  (exists e s', bind m k1 s = (Raise e, s'))
  /\ (forall r s', bind m k2 s = (Ok r, s') -> bind m k1 s = (Raise err, s')).
Proof.
  intros H1 H2. unfold bind. destruct (m s) as [[a|e] s1].
  - split.
    + exists err, s1. apply H1.
    + intros r s' H. rewrite H1. f_equal.
      specialize (H2 a s1). rewrite H in H2. cbn in H2. congruence.
  - split; [exists e, s1; reflexivity | intros r s' H; discriminate H].
Qed.

Lemma correlate_block_with_sig2noise (log : num -> num) (cis : Z -> Z -> cplx)
    (args : piv_args) (s : option string) :
  correlate_block log cis (with_sig2noise args s) = correlate_block log cis args.
Proof. unfold correlate_block. reflexivity. Qed.

Lemma block_body_with_sig2noise (log : num -> num) (cis : Z -> Z -> cplx)
    (args : piv_args) (s : option string) :
  block_body log cis (with_sig2noise args s) = block_body log cis args.
Proof. unfold block_body. rewrite correlate_block_with_sig2noise. reflexivity. Qed.

(** The pipeline is the computation of the displacement grids followed by
    the signal-to-noise step; only the latter looks at [sig2noise_method]. *)
Lemma piv_two_steps (log : num -> num) (cis : Z -> Z -> cplx) (args : piv_args) :
  exists pre : M (list event) (arr2 num * arr2 num * nat),
  forall (s : option string) (done : list event),
    extended_search_area_piv log cis (with_sig2noise args s) done
    = bind pre
        (fun uv =>
           let '(u, v, _) := uv in
           match s with
           | Some _ => raise (NotImplementedError "sig2noise_method is not None")
           | None =>
               let field_shape :=
                 get_field_shape
                   (Z.of_nat (nrow (frame_a args)), Z.of_nat (ncol (frame_a args)))
                   match search_area_size args with
                   | None => as_pair (window_size args)
                   | Some sa => as_pair sa
                   end
                   (as_pair (overlap args)) in
               let sig2noise :=
                 map_arr2 (fun x => (x * NaN)%num) (map_arr2 (fun _ => zero) u) in
               bind (of_result (reshape2 (fst field_shape) (snd field_shape)
                                  (buf sig2noise)))
                 (fun sig2noise =>
                    ret (map_arr2 (fun x => (x / dt args)%num) u,
                         map_arr2 (fun x => (x / dt args)%num) v,
                         sig2noise))
           end) done.
Proof.
  pose (w := as_pair (window_size args)).
  pose (o := as_pair (overlap args)).
  pose (sa := match search_area_size args with
              | None => w
              | Some sa => as_pair sa
              end).
  pose (shape := (Z.of_nat (nrow (frame_a args)), Z.of_nat (ncol (frame_a args)))).
  pose (fs := get_field_shape shape sa o).
  pose (num_areas := wrap64 (fst fs * snd fs)).
  exists
    (if ((fst w <=? fst o) || (snd w <=? snd o))%Z
     then raise (ValueError "Overlap has to be smaller than the window_size")
     else if ((fst sa <? fst w) || (snd sa <? snd w))%Z
     then raise (ValueError "Search size cannot be smaller than the window_size")
     else if ((fst shape <? snd w) || (snd shape <? fst w))%Z
     then raise (ValueError "window size cannot be larger than the image")
     else if pair_gtb sa w
     then raise (NotImplementedError "search_area_size > window_size:")
     else
       bind
         match max_array_size args with
         | None => ret false
         | Some m =>
             if (fst w * snd w =? 0)%Z then raise ZeroDivisionError
             else ret (Qc_ltb (qc m 1 / qc (fst w * snd w) 1)%Qc (qc num_areas 1))
         end
         (fun blocked : bool =>
            if blocked then
              let m := match max_array_size args with Some m => m | None => 0%Z end in
              if (num_areas <? 0)%Z
              then raise (ValueError "negative dimensions are not allowed")
              else
                if (fst sa * snd sa =? 0)%Z then raise ZeroDivisionError
                else
                  bind (of_result (ceil_div num_areas (m / (fst sa * snd sa))))
                    (fun num_blocks =>
                       bind (foldM (block_body log cis args sa o (m / (fst sa * snd sa)))
                               (seq 0 (Z.to_nat num_blocks))
                               (repeat zero (Z.to_nat num_areas),
                                repeat zero (Z.to_nat num_areas), 0%nat))
                         (fun acc =>
                            let '(u, v, total_bad) := acc in
                            bind (emit (BadPeaks total_bad))
                              (fun _ =>
                                 bind (of_result (reshape2 (fst fs) (snd fs) u))
                                   (fun u =>
                                      bind (of_result (reshape2 (fst fs) (snd fs) v))
                                        (fun v => ret (u, v, total_bad))))))
            else
              bind (correlate_block log cis args sa o None (Some (fst fs)) (Some (snd fs)))
                (fun d =>
                   bind (of_result (unpack_grid d))
                     (fun r => bind (emit (BadPeaks (snd r))) (fun _ => ret r))))).
  intros s done. unfold extended_search_area_piv.
  rewrite correlate_block_with_sig2noise, block_body_with_sig2noise.
  cbn [with_sig2noise frame_a frame_b window_size overlap search_area_size dt
       max_array_size sig2noise_method].
  fold w. fold o. fold sa. fold shape. fold fs. fold num_areas. cbv zeta.
  fold w. fold o. fold sa. fold shape. fold fs. fold num_areas.
  destruct ((fst w <=? fst o) || (snd w <=? snd o))%Z; [reflexivity|].
  destruct ((fst sa <? fst w) || (snd sa <? snd w))%Z; [reflexivity|].
  destruct ((fst shape <? snd w) || (snd shape <? fst w))%Z; [reflexivity|].
  destruct (pair_gtb sa w); [reflexivity|].
  rewrite <- bind_assoc. reflexivity.
Qed.

(** A signal-to-noise method other than [None] (the default of the
    signature is ['peak2mean']) never yields a result: the check sits after
    the correlation and the conversion, so the call does all the work of
    the call without the option, prints the same summary, and then raises
    [NotImplementedError]. *)
Theorem sig2noise_request_never_returns (log : num -> num) (cis : Z -> Z -> cplx)
    (args : piv_args) (m : string) (done : list event) :
  (exists e done',
      extended_search_area_piv log cis (with_sig2noise args (Some m)) done
      = (Raise e, done'))
  /\ (forall r done',
        extended_search_area_piv log cis (with_sig2noise args None) done = (Ok r, done') ->
        extended_search_area_piv log cis (with_sig2noise args (Some m)) done
        = (Raise (NotImplementedError "sig2noise_method is not None"), done')).
Proof.
  destruct (piv_two_steps log cis args) as [pre Hpre].
  rewrite !Hpre.
  apply failing_tail.
  - intros [[u v] tb] s'. reflexivity.
  - intros [[u v] tb] s'. cbv zeta. unfold bind, of_result, ret.
    destruct (reshape2 _ _ _); reflexivity.
Qed.

Lemma sig2noise_request_never_returns_witness :
  extended_search_area_piv log_rational cis_small
    (with_sig2noise (piv_call frame4 frame4 "gaussian" None) (Some "peak2mean"%string)) []
  = (Raise (NotImplementedError "sig2noise_method is not None"),
     [Extracted 1; Extracted 1; Correlated 1; Converted 1; BadPeaks 0]).
Proof.
  assert (H : exists r,
             extended_search_area_piv log_rational cis_small
               (with_sig2noise (piv_call frame4 frame4 "gaussian" None) None) []
             = (Ok r, [Extracted 1; Extracted 1; Correlated 1; Converted 1; BadPeaks 0])).
  { eexists. vm_compute. reflexivity. }
  destruct H as [r H].
  exact (proj2 (sig2noise_request_never_returns log_rational cis_small
                  (piv_call frame4 frame4 "gaussian" None) "peak2mean" []) r _ H).
Defined.

(** ** The circular correlation on an even number of columns *)

(** On two batches of one shape [(N, r, c)] with [r >= 1] and an even
    [c >= 2], the circular path of [fft_correlate_images] returns a batch
    of the same shape: one map per pair of windows, each of [r] rows and
    [c] columns, for even and for odd [r]. *)
Theorem circular_correlation_keeps_even_shape (cis : Z -> Z -> cplx)
    (image_a image_b : batch) :
  rows3 image_a = rows3 image_b ->
  cols3 image_a = cols3 image_b ->
  nwin image_a = nwin image_b ->
  (1 <= rows3 image_a)%nat ->
  (2 <= cols3 image_a)%nat ->
  Nat.even (cols3 image_a) = true ->
  exists corr,
    fft_correlate_images cis image_a image_b "circular" false = Ok corr
    /\ nwin corr = nwin image_a
    /\ rows3 corr = rows3 image_a
    /\ cols3 corr = cols3 image_a
    /\ batch_ok corr.
Proof.
  intros Hr Hc Hn H1 H2 Heven.
  destruct (circular_correlation_shape cis image_a image_b Hr Hc Hn H1 H2)
    as [corr [Hok [Hnw [Hrows [Hcols [Hbatch _]]]]]].
  exists corr. repeat split; try assumption.
  rewrite Hcols. apply Nat.even_spec in Heven. destruct Heven as [k Hk].
  rewrite Hk, Nat.mul_comm, Nat.Div0.mod_mul. lia.
Qed.

Lemma circular_correlation_keeps_even_shape_witness :
  exists corr,
    fft_correlate_images cis_small window4_batch window4_batch "circular" false = Ok corr
    /\ nwin corr = 1%nat
    /\ rows3 corr = 4%nat
    /\ cols3 corr = 4%nat
    /\ batch_ok corr.
Proof.
  exact (circular_correlation_keeps_even_shape cis_small window4_batch window4_batch
           eq_refl eq_refl eq_refl ltac:(simpl; lia) ltac:(simpl; lia) eq_refl).
Defined.

(** ** [nextpower2] *)

Lemma nextpower2_loop_from (i : Z) (fuel : nat) (j : Z) :
  (0 <= j <= Z.log2_up i)%Z ->
  (Z.to_nat (Z.log2_up i - j) <= fuel)%nat ->
  nextpower2_loop fuel (2 ^ j) i = Some (2 ^ Z.log2_up i)%Z.
Proof.
  revert j. induction fuel as [|fuel IH]; intros j Hj Hfuel.
  - assert (j = Z.log2_up i) by lia. subst j. cbn [nextpower2_loop].
    destruct (Z.ltb_spec (2 ^ Z.log2_up i) i) as [Hlt|_]; [|reflexivity].
    exfalso. destruct (Z.le_gt_cases i 1) as [H1|H1].
    + pose proof (Z.pow_pos_nonneg 2 (Z.log2_up i) ltac:(lia) ltac:(lia)). lia.
    + pose proof (Z.log2_up_spec i H1). lia.
  - cbn [nextpower2_loop].
    destruct (Z.ltb_spec (2 ^ j) i) as [Hlt|Hge].
    + assert (Hj' : (j < Z.log2_up i)%Z).
      { destruct (Z.eq_dec j (Z.log2_up i)) as [E|E]; [|lia]. exfalso. subst j.
        destruct (Z.le_gt_cases i 1) as [H1|H1].
        - pose proof (Z.pow_pos_nonneg 2 (Z.log2_up i) ltac:(lia) ltac:(lia)). lia.
        - pose proof (Z.log2_up_spec i H1). lia. }
      replace (2 ^ j * 2)%Z with (2 ^ (j + 1))%Z
        by (rewrite Z.pow_add_r by lia; reflexivity).
      apply IH; lia.
    + destruct (Z.eq_dec j (Z.log2_up i)) as [E|E]; [subst j; reflexivity|].
      exfalso. assert (H1 : (1 < i)%Z).
      { destruct (Z.le_gt_cases i 1) as [H1|H1]; [|lia].
        rewrite (Z.log2_up_eqn0 i H1) in Hj, E. lia. }
      pose proof (Z.log2_up_spec i H1) as [Hlo _].
      assert ((2 ^ j <= 2 ^ Z.pred (Z.log2_up i))%Z) by (apply Z.pow_le_mono_r; lia).
      lia.
Qed.

(** [nextpower2 i] is the smallest power of two that is at least [i]
    ([1] for [i <= 1]): with enough passes allowed the loop returns
    [2 ^ k] with [i <= 2 ^ k], and [2 ^ k <= 2 ^ m] for every other power
    of two [2 ^ m >= i]. *)
Theorem nextpower2_smallest (i : Z) (fuel : nat) :
  (Z.to_nat (Z.log2_up i) <= fuel)%nat ->
  exists k,
    (0 <= k)%Z
    /\ nextpower2 fuel i = Some (2 ^ k)%Z
    /\ (i <= 2 ^ k)%Z
    /\ forall m, (0 <= m)%Z -> (i <= 2 ^ m)%Z -> (2 ^ k <= 2 ^ m)%Z.
Proof.
  intros Hfuel. exists (Z.log2_up i).
  pose proof (Z.log2_up_nonneg i) as Hk.
  split; [exact Hk|]. split.
  - unfold nextpower2. change 1%Z with (2 ^ 0)%Z.
    apply nextpower2_loop_from; [lia|]. rewrite Z.sub_0_r. exact Hfuel.
  - destruct (Z.le_gt_cases i 1) as [H1|H1].
    + rewrite (Z.log2_up_eqn0 i H1). split; [simpl; lia|].
      intros m Hm _. change (2 ^ 0)%Z with 1%Z.
      pose proof (Z.pow_pos_nonneg 2 m ltac:(lia) Hm). lia.
    + pose proof (Z.log2_up_spec i H1) as [Hlo Hhi]. split; [exact Hhi|].
      intros m Hm Him. apply Z.pow_le_mono_r; [lia|].
      destruct (Z.le_gt_cases (Z.log2_up i) m) as [L|L]; [exact L|exfalso].
      assert ((2 ^ m <= 2 ^ Z.pred (Z.log2_up i))%Z) by (apply Z.pow_le_mono_r; lia).
      lia.
Qed.

Lemma nextpower2_smallest_witness :
  exists k,
    (0 <= k)%Z
    /\ nextpower2 3 5 = Some (2 ^ k)%Z
    /\ (5 <= 2 ^ k)%Z
    /\ forall m, (0 <= m)%Z -> (5 <= 2 ^ m)%Z -> (2 ^ k <= 2 ^ m)%Z.
Proof.
  apply (nextpower2_smallest 5 3). vm_compute. lia.
Defined.

(** ** The batched first-peak search against the single-map one *)

Lemma amax_nanmax (l : list num) :
  Forall (fun x => isnan x = false) l -> nanmax l = amax l.
Proof.
  intros H. unfold nanmax. f_equal.
  induction H as [|x l Hx Hl IH]; [reflexivity|].
  cbn [filter]. rewrite Hx. cbn [negb]. rewrite IH. reflexivity.
Qed.

(** [find_all_first_peaks] does for every window what [find_first_peak]
    does for one map: row [k] of the index table is [(k, i, j)] with
    [(i, j)] the position [find_first_peak] reports for [corr[k]], and for
    a window without NaN the amplitude is the one [find_first_peak]
    reports. *)
Theorem find_all_first_peaks_per_window (corr : batch)
    (first : list (Z * Z * Z) * list num) (k : nat) :
  batch_ok corr ->
  fst (find_all_first_peaks corr) = Ok first ->
  (k < nwin corr)%nat ->
  length (fst first) = nwin corr
  /\ length (snd first) = nwin corr
  /\ exists (i j : Z) (v : num),
       find_first_peak (window corr k) = (Ok ((i, j), v), window corr k)
       /\ nth k (fst first) (0, 0, 0)%Z = (Z.of_nat k, i, j)
       /\ (Forall (fun x => isnan x = false) (nth k (wins corr) []) ->
           nth k (snd first) NaN = v).
Proof.
  intros Hok H Hk. unfold find_all_first_peaks, lift in H. cbn [fst] in H.
  destruct (first_peaks_inv corr first H) as [Hw [Hs [E1 E2]]].
  split; [apply first_peaks_length; exact H|].
  split; [rewrite E2, length_map; reflexivity|].
  assert (Hne : buf (window corr k) <> []).
  { apply window_nonempty; [lia | exact Hok | exact Hk]. }
  unfold find_first_peak, lift. rewrite (find_first_peak_val_eq _ Hne).
  unfold unravel_index, window. cbn [buf ncol].
  do 3 eexists. split; [reflexivity|]. split.
  - rewrite E1.
    rewrite (nth_map_lt _ _ k (0%nat, []) (0, 0, 0)%Z)
      by (rewrite length_combine, length_seq; unfold nwin in Hk |- *; lia).
    rewrite (nth_combine_lt _ _ k 0%nat [])
      by (rewrite ?length_seq; unfold nwin in Hk |- *; lia).
    rewrite seq_nth by exact Hk. cbn [Nat.add].
    unfold peak_row, unravel_index. cbn [fst snd]. reflexivity.
  - intros Hfin. rewrite E2.
    rewrite (nth_map_lt _ _ k [] NaN) by exact Hk.
    apply amax_nanmax. exact Hfin.
Qed.

Lemma find_all_first_peaks_per_window_witness :
  exists first,
    fst (find_all_first_peaks corner_centre_batch) = Ok first
    /\ length (fst first) = 2%nat
    /\ length (snd first) = 2%nat
    /\ exists (i j : Z) (v : num),
         find_first_peak (window corner_centre_batch 1)
         = (Ok ((i, j), v), window corner_centre_batch 1)
         /\ nth 1 (fst first) (0, 0, 0)%Z = (1%Z, i, j)
         /\ (Forall (fun x => isnan x = false) (nth 1 (wins corner_centre_batch) []) ->
             nth 1 (snd first) NaN = v).
Proof.
  eexists. split; [vm_compute; reflexivity|].
  apply (find_all_first_peaks_per_window corner_centre_batch _ 1).
  - repeat constructor.
  - vm_compute. reflexivity.
  - vm_compute. lia.
Defined.

(** ** What a successful call returns *)

Lemma bind_ok_inv {S A B : Type} (m : M S A) (f : A -> M S B) (s s' : S) (r : B) :
  bind m f s = (Ok r, s') -> exists a s1, m s = (Ok a, s1) /\ f a s1 = (Ok r, s').
Proof.
  unfold bind. destruct (m s) as [[a|e] s1]; intros H; [|discriminate].
  exists a, s1. split; [reflexivity | exact H].
Qed.

Lemma of_result_ok_inv {A : Type} (r : result A) (s s' : list event) (a : A) :
  of_result r s = (Ok a, s') -> r = Ok a.
Proof. unfold of_result. intros H. injection H as H _. exact H. Qed.

Lemma wrap64_range (z : Z) : (- 2 ^ 63 <= wrap64 z < 2 ^ 63)%Z.
Proof.
  unfold wrap64. pose proof (Z.mod_pos_bound (z + 2 ^ 63) (2 ^ 64) ltac:(lia)). lia.
Qed.

Lemma get_field_shape_range (image_size s o : Z * Z) :
  (- 2 ^ 63 <= fst (get_field_shape image_size s o) < 2 ^ 63)%Z
  /\ (- 2 ^ 63 <= snd (get_field_shape image_size s o) < 2 ^ 63)%Z.
Proof.
  unfold get_field_shape, int64_add. cbn [fst snd]. split; apply wrap64_range.
Qed.

(** A reshape that succeeds keeps the buffer and yields a well-formed
    array. *)
Lemma reshape2_ok {A : Type} (r c : Z) (a : list A) (g : arr2 A) :
  reshape2 r c a = Ok g -> buf g = a /\ map2_ok g.
Proof.
  unfold reshape2, map2_ok, win_ok. intros H.
  destruct ((0 <=? r)%Z && (0 <=? c)%Z) eqn:E0.
  - apply andb_true_iff in E0. destruct E0 as [Hr Hc].
    apply Z.leb_le in Hr. apply Z.leb_le in Hc.
    destruct (Z.eqb_spec (r * c) (Z.of_nat (length a))) as [E|E]; [|discriminate].
    injection H as H. subst g. cbn [buf nrow ncol]. split; [reflexivity|].
    apply Nat2Z.inj. rewrite Nat2Z.inj_mul, !Z2Nat.id by lia. lia.
  - destruct ((r =? -1)%Z && (0 <? c)%Z && (Z.of_nat (length a) mod c =? 0)%Z) eqn:E1.
    + apply andb_true_iff in E1. destruct E1 as [E1 Hm].
      apply andb_true_iff in E1. destruct E1 as [_ Hc].
      apply Z.ltb_lt in Hc. apply Z.eqb_eq in Hm.
      injection H as H. subst g. cbn [buf nrow ncol]. split; [reflexivity|].
      apply Nat2Z.inj. rewrite Nat2Z.inj_mul, !Z2Nat.id
        by (try apply Z.div_pos; lia).
      pose proof (Z.div_mod (Z.of_nat (length a)) c ltac:(lia)). lia.
    + destruct ((c =? -1)%Z && (0 <? r)%Z && (Z.of_nat (length a) mod r =? 0)%Z) eqn:E2;
        [|discriminate].
      apply andb_true_iff in E2. destruct E2 as [E2 Hm].
      apply andb_true_iff in E2. destruct E2 as [_ Hr].
      apply Z.ltb_lt in Hr. apply Z.eqb_eq in Hm.
      injection H as H. subst g. cbn [buf nrow ncol]. split; [reflexivity|].
      apply Nat2Z.inj. rewrite Nat2Z.inj_mul, !Z2Nat.id
        by (try apply Z.div_pos; lia).
      pose proof (Z.div_mod (Z.of_nat (length a)) r ltac:(lia)). lia.
Qed.

(** With int64 dimensions whose wrapped product is the length of the
    buffer, only the plain case of [reshape] can succeed. *)
Lemma reshape2_field {A : Type} (r c : Z) (a : list A) (g : arr2 A) :
  (- 2 ^ 63 <= r < 2 ^ 63)%Z -> (- 2 ^ 63 <= c < 2 ^ 63)%Z ->
  (0 <= r /\ 0 <= c \/ (0 <= wrap64 (r * c) /\ length a = Z.to_nat (wrap64 (r * c))))%Z ->
  reshape2 r c a = Ok g ->
  nrow g = Z.to_nat r /\ ncol g = Z.to_nat c.
Proof.
  intros Hr Hc Hcase. unfold reshape2. intros H.
  destruct ((0 <=? r)%Z && (0 <=? c)%Z) eqn:E0.
  - destruct (r * c =? Z.of_nat (length a))%Z; [|discriminate].
    injection H as H. subst g. split; reflexivity.
  - exfalso. destruct Hcase as [[H0 H1]|[Hw Hl]].
    + apply andb_false_iff in E0. destruct E0 as [E0|E0]; apply Z.leb_gt in E0; lia.
    + destruct ((r =? -1)%Z && (0 <? c)%Z && (Z.of_nat (length a) mod c =? 0)%Z) eqn:E1.
      * apply andb_true_iff in E1. destruct E1 as [E1 _].
        apply andb_true_iff in E1. destruct E1 as [Er Hc0].
        apply Z.eqb_eq in Er. apply Z.ltb_lt in Hc0. subst r.
        rewrite wrap64_small in Hw by lia. lia.
      * destruct ((c =? -1)%Z && (0 <? r)%Z && (Z.of_nat (length a) mod r =? 0)%Z) eqn:E2;
          [|discriminate].
        apply andb_true_iff in E2. destruct E2 as [E2 _].
        apply andb_true_iff in E2. destruct E2 as [Ec Hr0].
        apply Z.eqb_eq in Ec. apply Z.ltb_lt in Hr0. subst c.
        rewrite wrap64_small in Hw by lia. lia.
Qed.

Lemma length_assign_slice {A : Type} (b0 b1 : Z) (src a a' : list A) :
  assign_slice b0 b1 src a = Ok a' -> length a' = length a.
Proof.
  unfold assign_slice. intros H.
  destruct (Nat.eqb_spec (length src) (slice_bound b1 (length a) - slice_bound b0 (length a)))
    as [E|E]; [|discriminate].
  injection H as H. subst a'.
  rewrite !length_app, length_firstn, length_skipn, E.
  assert (B0 : (slice_bound b0 (length a) <= length a)%nat).
  { unfold slice_bound. destruct (Z.ltb_spec b0 0); lia. }
  assert (B1 : (slice_bound b1 (length a) <= length a)%nat).
  { unfold slice_bound. destruct (Z.ltb_spec b1 0); lia. }
  lia.
Qed.

Lemma block_body_lengths (log : num -> num) (cis : Z -> Z -> cplx) (args : piv_args)
    (s o : Z * Z) (apb : Z) (acc acc' : list num * list num * nat) (idx : nat)
    (done done' : list event) :
  block_body log cis args s o apb acc idx done = (Ok acc', done') ->
  length (fst (fst acc')) = length (fst (fst acc))
  /\ length (snd (fst acc')) = length (snd (fst acc)).
Proof.
  destruct acc as [[u v] tb]. unfold block_body. intros H.
  apply bind_ok_inv in H. destruct H as [d [s1 [_ H]]].
  apply bind_ok_inv in H. destruct H as [[[bu bv] invalid] [s2 [_ H]]].
  apply bind_ok_inv in H. destruct H as [u' [s3 [Hu H]]].
  apply bind_ok_inv in H. destruct H as [v' [s4 [Hv H]]].
  unfold ret in H. injection H as H _. subst acc'. cbn [fst snd].
  apply of_result_ok_inv in Hu. apply of_result_ok_inv in Hv.
  split; eapply length_assign_slice; eassumption.
Qed.

Lemma foldM_block_body_lengths (log : num -> num) (cis : Z -> Z -> cplx) (args : piv_args)
    (s o : Z * Z) (apb : Z) (l : list nat) :
  forall (acc acc' : list num * list num * nat) (done done' : list event),
  foldM (block_body log cis args s o apb) l acc done = (Ok acc', done') ->
  length (fst (fst acc')) = length (fst (fst acc))
  /\ length (snd (fst acc')) = length (snd (fst acc)).
Proof.
  induction l as [|i l IH]; intros acc acc' done done' H.
  - cbn [foldM] in H. unfold ret in H. injection H as H _. subst acc'. split; reflexivity.
  - cbn [foldM] in H. apply bind_ok_inv in H. destruct H as [acc1 [s1 [H1 H]]].
    apply block_body_lengths in H1. apply IH in H. destruct H1, H. split; congruence.
Qed.

(** The whole-batch branch receives two grids of one length from the
    assembler. *)
Lemma assembler_grid_inv (log : num -> num) (r c : Z) (method : string) (e : num)
    (corr : batch) (d : displacements) (gx gy : arr2 num) (k : nat) :
  fst (vectorized_correlation_to_displacements log (Some r) (Some c) method e corr) = Ok d ->
  unpack_grid d = Ok (gx, gy, k) ->
  exists lu lv,
    length lu = nwin corr /\ length lv = nwin corr
    /\ reshape2 r c lu = Ok gx /\ reshape2 r c lv = Ok gy.
Proof.
  unfold vectorized_correlation_to_displacements. intros H Hu.
  destruct (supported_subpixel method); [|discriminate].
  cbn [negb] in H. unfold bind, modify, find_all_first_peaks, lift in H.
  destruct (find_all_first_peaks_val (iadd3 e corr)) as [first|] eqn:Ef; [|discriminate].
  cbn [fst] in H.
  pose proof (first_peaks_length _ _ Ef) as Hl.
  destruct (displacements_from_peaks_lengths log method first (iadd3 e corr) Hl)
    as [_ [Ly Lx]].
  unfold displacements_from_peaks in H.
  destruct (length _ =? nwin (iadd3 e corr))%nat.
  - injection H as H. subst d. cbn [unpack_grid] in Hu.
    destruct (length _ =? 3)%nat; discriminate.
  - unfold rbind in H.
    destruct (reshape2 r c (set_all _ NaN (displacement method (Z.of_nat (cols3 (iadd3 e corr))) _ _)))
      as [gx'|] eqn:Ex; [|discriminate].
    destruct (reshape2 r c (set_all _ NaN (displacement method (Z.of_nat (rows3 (iadd3 e corr))) _ _)))
      as [gy'|] eqn:Ey; [|discriminate].
    injection H as H. subst d. cbn [unpack_grid] in Hu. injection Hu as E1 E2 _.
    subst gx' gy'.
    assert (Hn : nwin (iadd3 e corr) = nwin corr).
    { unfold nwin, iadd3. cbn [wins]. apply length_map. }
    eexists. eexists. split; [|split; [|split; [exact Ex | exact Ey]]].
    + rewrite length_set_all, Lx. exact Hn.
    + rewrite length_set_all, Ly. exact Hn.
Qed.

Lemma raise_not_ok {S A : Type} (e : error) (s s' : S) (r : A) :
  raise e s = (Ok r, s') -> False.
Proof. unfold raise. discriminate. Qed.

Lemma whole_batch_grids (log : num -> num) (cis : Z -> Z -> cplx) (args : piv_args)
    (S O : Z * Z) (r c : Z) (gu gv : arr2 num) (tb : nat) (s1 s2 : list event) :
  bind (correlate_block log cis args S O None (Some r) (Some c))
    (fun d => bind (of_result (unpack_grid d))
                (fun r => bind (emit (BadPeaks (snd r))) (fun _ => ret r))) s1
  = (Ok (gu, gv, tb), s2) ->
  exists (A : batch) (lu lv : list num),
    sliding_window_array (frame_a args) S O None = Ok A
    /\ length lu = nwin A /\ length lv = nwin A /\ nwin A <> 0%nat
    /\ reshape2 r c lu = Ok gu /\ reshape2 r c lv = Ok gv.
Proof.
  intros Huv.
  apply bind_ok_inv in Huv. destruct Huv as [d [s3 [Hd Huv]]].
  apply bind_ok_inv in Huv. destruct Huv as [r0 [s4 [Hr Huv]]].
  apply bind_ok_inv in Huv. destruct Huv as [[] [s5 [_ Huv]]].
  unfold ret in Huv. injection Huv as E _. subst r0.
  apply of_result_ok_inv in Hr.
  apply correlate_block_inv in Hd.
  destruct Hd as [A [B [Cr [HA [_ [HC [Hd _]]]]]]].
  destruct (assembler_ok_inv _ _ _ _ _ _ _ Hd) as [_ [Hwins _]].
  destruct (assembler_grid_inv _ _ _ _ _ _ _ _ _ _ Hd Hr) as [lu [lv [Lu [Lv [Hu Hv]]]]].
  pose proof (fft_correlate_images_count _ _ _ _ _ _ HC) as HN.
  exists A, lu, lv. split; [exact HA|].
  split; [congruence|]. split; [congruence|].
  split; [|split; [exact Hu | exact Hv]].
  rewrite <- HN. unfold nwin. destruct (wins Cr); [congruence | discriminate].
Qed.

Lemma blocked_grids (log : num -> num) (cis : Z -> Z -> cplx) (args : piv_args)
    (S O : Z * Z) (r c apb num_areas : Z) (gu gv : arr2 num) (tb : nat)
    (s1 s2 : list event) :
  bind (of_result (ceil_div num_areas apb))
    (fun num_blocks =>
       bind (foldM (block_body log cis args S O apb) (seq 0 (Z.to_nat num_blocks))
               (repeat zero (Z.to_nat num_areas), repeat zero (Z.to_nat num_areas), 0%nat))
         (fun acc =>
            let '(u, v, total_bad) := acc in
            bind (emit (BadPeaks total_bad))
              (fun _ => bind (of_result (reshape2 r c u))
                          (fun u => bind (of_result (reshape2 r c v))
                                      (fun v => ret (u, v, total_bad)))))) s1
  = (Ok (gu, gv, tb), s2) ->
  exists lu lv : list num,
    length lu = Z.to_nat num_areas /\ length lv = Z.to_nat num_areas
    /\ reshape2 r c lu = Ok gu /\ reshape2 r c lv = Ok gv.
Proof.
  intros Huv.
  apply bind_ok_inv in Huv. destruct Huv as [num_blocks [s3 [_ Huv]]].
  apply bind_ok_inv in Huv. destruct Huv as [[[lu lv] tb'] [s4 [Hloop Huv]]].
  apply foldM_block_body_lengths in Hloop. cbn [fst snd] in Hloop.
  rewrite !repeat_length in Hloop. destruct Hloop as [Lu Lv].
  apply bind_ok_inv in Huv. destruct Huv as [[] [s5 [_ Huv]]].
  apply bind_ok_inv in Huv. destruct Huv as [gu' [s6 [Hu Huv]]].
  apply bind_ok_inv in Huv. destruct Huv as [gv' [s7 [Hv Huv]]].
  unfold ret in Huv. injection Huv as E1 E2 _ _. subst gu' gv'.
  apply of_result_ok_inv in Hu. apply of_result_ok_inv in Hv.
  exists lu, lv. split; [exact Lu|]. split; [exact Lv|]. split; [exact Hu | exact Hv].
Qed.

(** Whenever [extended_search_area_piv] returns [(u, v, sig2noise)], no
    signal-to-noise method was asked for, the three grids are well formed
    and have the field shape [get_field_shape(frame_a.shape,
    search_area_size, overlap)], and every entry of [sig2noise] is NaN. *)
Theorem piv_result_grids (log : num -> num) (cis : Z -> Z -> cplx) (args : piv_args)
    (u v s : arr2 num) (done done' : list event) :
  extended_search_area_piv log cis args done = (Ok (u, v, s), done') ->
  let search_area :=
    match search_area_size args with
    | None => as_pair (window_size args)
    | Some sa => as_pair sa
    end in
  let field_shape :=
    get_field_shape (Z.of_nat (nrow (frame_a args)), Z.of_nat (ncol (frame_a args)))
      search_area (as_pair (overlap args)) in
  let n_rows := Z.to_nat (fst field_shape) in
  let n_cols := Z.to_nat (snd field_shape) in
  sig2noise_method args = None
  /\ (nrow u = n_rows /\ ncol u = n_cols /\ map2_ok u)
  /\ (nrow v = n_rows /\ ncol v = n_cols /\ map2_ok v)
  /\ (nrow s = n_rows /\ ncol s = n_cols /\ map2_ok s)
  /\ Forall (fun x => x = NaN) (buf s).
Proof.
  intros H S FS n_rows n_cols.
  unfold extended_search_area_piv in H. cbv zeta in H.
  fold S in H. fold FS in H.
  destruct (_ || _)%Z in H; [exfalso; eapply raise_not_ok; exact H|].
  destruct (_ || _)%Z in H; [exfalso; eapply raise_not_ok; exact H|].
  destruct (_ || _)%Z in H; [exfalso; eapply raise_not_ok; exact H|].
  destruct (pair_gtb S (as_pair (window_size args))); [exfalso; eapply raise_not_ok; exact H|].
  apply bind_ok_inv in H. destruct H as [blocked [s1 [Hb H]]].
  apply bind_ok_inv in H. destruct H as [[[gu gv] tb] [s2 [Huv H]]].
  assert (Hg : exists lu lv : list num,
             length lv = length lu
             /\ reshape2 (fst FS) (snd FS) lu = Ok gu
             /\ reshape2 (fst FS) (snd FS) lv = Ok gv
             /\ ((0 <= fst FS /\ 0 <= snd FS)%Z
                 \/ ((0 <= wrap64 (fst FS * snd FS))%Z
                     /\ length lu = Z.to_nat (wrap64 (fst FS * snd FS))))).
  { clear H Hb. destruct blocked.
    - destruct (Z.ltb_spec (wrap64 (fst FS * snd FS)) 0) as [|Hpos];
        [exfalso; eapply raise_not_ok; exact Huv|].
      destruct (fst S * snd S =? 0)%Z; [exfalso; eapply raise_not_ok; exact Huv|].
      apply blocked_grids in Huv. destruct Huv as [lu [lv [Lu [Lv [Hu Hv]]]]].
      exists lu, lv. split; [congruence|]. split; [exact Hu|]. split; [exact Hv|].
      right. split; [exact Hpos | exact Lu].
    - apply whole_batch_grids in Huv.
      destruct Huv as [A [lu [lv [HA [Lu [Lv [HN [Hu Hv]]]]]]]].
      exists lu, lv. split; [congruence|]. split; [exact Hu|]. split; [exact Hv|].
      left. apply sliding_window_count in HA. cbv zeta in HA. fold FS in HA.
      split; lia. }
  destruct Hg as [lu [lv [Lv [Hu [Hv Hcase]]]]].
  destruct (get_field_shape_range
              (Z.of_nat (nrow (frame_a args)), Z.of_nat (ncol (frame_a args)))
              S (as_pair (overlap args))) as [R0 R1].
  fold FS in R0, R1.
  destruct (reshape2_ok _ _ _ _ Hu) as [Bu Mu].
  destruct (reshape2_ok _ _ _ _ Hv) as [Bv Mv].
  destruct (reshape2_field _ _ _ _ R0 R1 Hcase Hu) as [Ru Cu].
  assert (Hcase' : (0 <= fst FS /\ 0 <= snd FS)%Z
                   \/ ((0 <= wrap64 (fst FS * snd FS))%Z
                       /\ length lv = Z.to_nat (wrap64 (fst FS * snd FS)))).
  { destruct Hcase as [Hc|[Hc1 Hc2]]; [left; exact Hc | right; split; [exact Hc1 | congruence]]. }
  destruct (reshape2_field _ _ _ _ R0 R1 Hcase' Hv) as [Rv Cv].
  destruct (sig2noise_method args) as [m|]; [exfalso; eapply raise_not_ok; exact H|].
  apply bind_ok_inv in H. destruct H as [sg [s3 [Hs H]]].
  unfold ret in H. injection H as E1 E2 E3 _. subst u v sg.
  apply of_result_ok_inv in Hs.
  destruct (reshape2_ok _ _ _ _ Hs) as [Bs Ms].
  assert (Hcase'' : (0 <= fst FS /\ 0 <= snd FS)%Z
                    \/ ((0 <= wrap64 (fst FS * snd FS))%Z
                        /\ length (buf (map_arr2 (fun x : num => (x * NaN)%num)
                                           (map_arr2 (fun _ : num => zero) gu)))
                           = Z.to_nat (wrap64 (fst FS * snd FS)))).
  { destruct Hcase as [Hc|[Hc1 Hc2]]; [left; exact Hc | right; split; [exact Hc1|]].
    unfold map_arr2. cbn [buf]. rewrite !length_map, Bu. exact Hc2. }
  destruct (reshape2_field _ _ _ _ R0 R1 Hcase'' Hs) as [Rs Cs].
  unfold map2_ok, win_ok in *. unfold map_arr2. cbn [nrow ncol buf].
  rewrite !length_map.
  split; [reflexivity|].
  split; [split; [exact Ru | split; [exact Cu | exact Mu]]|].
  split; [split; [exact Rv | split; [exact Cv | exact Mv]]|].
  split; [split; [exact Rs | split; [exact Cs | exact Ms]]|].
  rewrite Bs. unfold map_arr2. cbn [buf]. rewrite map_map.
  apply Forall_forall. intros x Hx. apply in_map_iff in Hx.
  destruct Hx as [y [E _]]. subst x. reflexivity.
Qed.

Lemma piv_result_grids_witness :
  exists u v s,
    extended_search_area_piv log_rational cis_small
      (piv_call frame8_a frame8_b "parabolic" None) []
    = (Ok (u, v, s), [Extracted 2; Extracted 2; Correlated 2; Converted 2; BadPeaks 1])
    /\ (nrow u = 1 /\ ncol u = 2 /\ map2_ok u)%nat
    /\ (nrow v = 1 /\ ncol v = 2 /\ map2_ok v)%nat
    /\ (nrow s = 1 /\ ncol s = 2 /\ map2_ok s)%nat
    /\ Forall (fun x => x = NaN) (buf s).
Proof.
  assert (Hw : exists u v s,
             extended_search_area_piv log_rational cis_small
               (piv_call frame8_a frame8_b "parabolic" None) []
             = (Ok (u, v, s),
                [Extracted 2; Extracted 2; Correlated 2; Converted 2; BadPeaks 1])).
  { do 3 eexists. vm_compute. reflexivity. }
  destruct Hw as [u [v [s Hw]]].
  exists u, v, s. split; [exact Hw|].
  exact (proj2 (piv_result_grids log_rational cis_small _ u v s _ _ Hw)).
Defined.

(** ** [get_coordinates] with [center_on_field] *)

Lemma centred_shift (im s o : Z) :
  (0 <= o < s)%Z -> (s <= im < 2 ^ 62)%Z ->
  let step := (s - o)%Z in
  let n := ((im - s) / step + 1)%Z in
  let free := (im - ((n - 1) * step + s))%Z in
  int64_floordiv
    (wrap64 (im - 1 - wrap64 (wrap64 (wrap64 (n - 1) * step) + (s - 1)))) 2
  = (free / 2)%Z
  /\ (0 <= free < step)%Z.
Proof.
  intros Ho Him step n free.
  assert (Hstep : (0 < step)%Z) by (unfold step; lia).
  pose proof (Z.div_mod (im - s) step ltac:(lia)) as D.
  pose proof (Z.mod_pos_bound (im - s) step Hstep) as M.
  assert (Hq : (0 <= (im - s) / step)%Z) by (apply Z.div_pos; lia).
  set (q := ((im - s) / step)%Z) in *.
  assert (Hn : (n - 1 = q)%Z) by (unfold n; lia).
  assert (Hp : (0 <= q * step <= im - s)%Z).
  { replace (q * step)%Z with (step * q)%Z by ring. split; [|lia].
    apply Z.mul_nonneg_nonneg; lia. }
  assert (Hfree : (free = (im - s) mod step)%Z).
  { unfold free. rewrite Hn. replace (q * step)%Z with (step * q)%Z by ring. lia. }
  split; [|lia].
  unfold int64_floordiv. rewrite Hn.
  rewrite (wrap64_small q).
  2:{ assert (q <= q * step)%Z by nia. lia. }
  rewrite (wrap64_small (q * step)) by lia.
  rewrite (wrap64_small (q * step + (s - 1))) by lia.
  replace (im - 1 - (q * step + (s - 1)))%Z with free by (unfold free; rewrite Hn; ring).
  rewrite (wrap64_small free) by lia.
  apply wrap64_small.
  assert (0 <= free / 2 <= free)%Z.
  { split; [apply Z.div_pos; lia|]. apply Z.div_le_upper_bound; lia. }
  lia.
Qed.

(** [get_coordinates] with [center_on_field=True] on a valid configuration:
    the two grids have the field shape; the centre of window [(a, b)] is
    [(a * step + s/2 + my, b * step + s/2 + mx)] with [step = s - overlap];
    the shifts [my], [mx] are half the pixels the windows leave free on the
    axis, rounded down, so the windows stay inside the image and the free
    margin after the last window exceeds the margin before the first by at
    most one pixel. *)
Theorem get_coordinates_centred (image_size : Z * Z) (s o : Z) :
  (0 <= o < s)%Z ->
  (s <= fst image_size < 2 ^ 62)%Z ->
  (s <= snd image_size < 2 ^ 62)%Z ->
  let step := (s - o)%Z in
  let n_rows := ((fst image_size - s) / step + 1)%Z in
  let n_cols := ((snd image_size - s) / step + 1)%Z in
  let my := ((fst image_size - ((n_rows - 1) * step + s)) / 2)%Z in
  let mx := ((snd image_size - ((n_cols - 1) * step + s)) / 2)%Z in
  let xy := get_coordinates image_size s o true in
  (nrow (fst xy) = Z.to_nat n_rows /\ ncol (fst xy) = Z.to_nat n_cols)
  /\ (nrow (snd xy) = Z.to_nat n_rows /\ ncol (snd xy) = Z.to_nat n_cols)
  /\ (0 <= my
      /\ my <= fst image_size - (my + (n_rows - 1) * step + s) <= my + 1)%Z
  /\ (0 <= mx
      /\ mx <= snd image_size - (mx + (n_cols - 1) * step + s) <= mx + 1)%Z
  /\ forall a b : nat,
       (a < Z.to_nat n_rows)%nat -> (b < Z.to_nat n_cols)%nat ->
       nth (a * Z.to_nat n_cols + b) (buf (fst xy)) NaN
       = (of_Z (Z.of_nat b * step) + Fin (qc s 2) + of_Z mx)%num
       /\ nth (a * Z.to_nat n_cols + b) (buf (snd xy)) NaN
          = (of_Z (Z.of_nat a * step) + Fin (qc s 2) + of_Z my)%num.
Proof.
  intros Ho H0 H1 step n_rows n_cols my mx xy.
  destruct (centred_shift (fst image_size) s o Ho H0) as [Sy Fy].
  destruct (centred_shift (snd image_size) s o Ho H1) as [Sx Fx].
  cbv zeta in Sy, Sx, Fy, Fx.
  fold step in Sy, Sx, Fy, Fx. fold n_rows in Sy, Fy. fold n_cols in Sx, Fx.
  fold my in Sy. fold mx in Sx.
  assert (Hshape : get_field_shape image_size (s, s) (o, o) = (n_rows, n_cols)).
  { apply get_field_shape_formula; cbn [fst snd]; lia. }
  assert (Hstep : (0 < step)%Z) by (unfold step; lia).
  assert (Hnr : (1 <= n_rows)%Z).
  { unfold n_rows. pose proof (Z.div_pos (fst image_size - s) step ltac:(lia) Hstep). lia. }
  assert (Hnc : (1 <= n_cols)%Z).
  { unfold n_cols. pose proof (Z.div_pos (snd image_size - s) step ltac:(lia) Hstep). lia. }
  assert (Hxy : xy
                = meshgrid
                    (map (fun v => (v + of_Z mx)%num)
                       (map (fun i => (of_Z (wrap64 (i * step)) + Fin (qc s 2))%num)
                          (arange n_cols)))
                    (map (fun v => (v + of_Z my)%num)
                       (map (fun i => (of_Z (wrap64 (i * step)) + Fin (qc s 2))%num)
                          (arange n_rows)))).
  { unfold xy, get_coordinates. cbv zeta. rewrite Hshape. cbn [fst snd].
    fold step. rewrite Sx, Sy. reflexivity. }
  assert (my_half : (2 * my <= fst image_size - ((n_rows - 1) * step + s) <= 2 * my + 1)%Z).
  { unfold my. pose proof (Z.div_mod (fst image_size - ((n_rows - 1) * step + s)) 2 ltac:(lia)).
    pose proof (Z.mod_pos_bound (fst image_size - ((n_rows - 1) * step + s)) 2 ltac:(lia)).
    lia. }
  assert (mx_half : (2 * mx <= snd image_size - ((n_cols - 1) * step + s) <= 2 * mx + 1)%Z).
  { unfold mx. pose proof (Z.div_mod (snd image_size - ((n_cols - 1) * step + s)) 2 ltac:(lia)).
    pose proof (Z.mod_pos_bound (snd image_size - ((n_cols - 1) * step + s)) 2 ltac:(lia)).
    lia. }
  rewrite Hxy.
  split; [unfold meshgrid; cbn [fst nrow ncol]; rewrite !length_map, !length_arange;
          split; reflexivity|].
  split; [unfold meshgrid; cbn [snd nrow ncol]; rewrite !length_map, !length_arange;
          split; reflexivity|].
  split; [lia|]. split; [lia|].
  intros a b Ha Hb.
  assert (La : (a < length (map (fun v => (v + of_Z my)%num)
                              (map (fun i => (of_Z (wrap64 (i * step)) + Fin (qc s 2))%num)
                                 (arange n_rows))))%nat)
    by (rewrite !length_map, length_arange; exact Ha).
  assert (Lb : (b < length (map (fun v => (v + of_Z mx)%num)
                              (map (fun i => (of_Z (wrap64 (i * step)) + Fin (qc s 2))%num)
                                 (arange n_cols))))%nat)
    by (rewrite !length_map, length_arange; exact Hb).
  assert (E : Z.to_nat n_cols
              = length (map (fun v => (v + of_Z mx)%num)
                          (map (fun i => (of_Z (wrap64 (i * step)) + Fin (qc s 2))%num)
                             (arange n_cols))))
    by (rewrite !length_map, length_arange; reflexivity).
  rewrite E at 1 2. rewrite (nth_meshgrid_x _ _ a b NaN La Lb).
  rewrite (nth_meshgrid_y _ _ a b NaN La Lb).
  rewrite (nth_map_lt _ _ b NaN NaN) by (rewrite length_map, length_arange; exact Hb).
  rewrite (nth_map_lt _ _ b 0%Z NaN) by (rewrite length_arange; exact Hb).
  rewrite (nth_map_lt _ _ a NaN NaN) by (rewrite length_map, length_arange; exact Ha).
  rewrite (nth_map_lt _ _ a 0%Z NaN) by (rewrite length_arange; exact Ha).
  rewrite !nth_arange by assumption.
  rewrite (wrap64_small (Z.of_nat b * step)).
  2:{ assert (0 <= Z.of_nat b * step)%Z by (apply Z.mul_nonneg_nonneg; lia).
      assert (Z.of_nat b * step <= (n_cols - 1) * step)%Z
        by (apply Z.mul_le_mono_nonneg_r; lia).
      lia. }
  rewrite (wrap64_small (Z.of_nat a * step)).
  2:{ assert (0 <= Z.of_nat a * step)%Z by (apply Z.mul_nonneg_nonneg; lia).
      assert (Z.of_nat a * step <= (n_rows - 1) * step)%Z
        by (apply Z.mul_le_mono_nonneg_r; lia).
      lia. }
  split; reflexivity.
Qed.

Lemma get_coordinates_centred_witness :
  (nrow (fst (get_coordinates (11, 23)%Z 4 0 true)) = 2%nat
   /\ ncol (fst (get_coordinates (11, 23)%Z 4 0 true)) = 5%nat)
  /\ (nrow (snd (get_coordinates (11, 23)%Z 4 0 true)) = 2%nat
      /\ ncol (snd (get_coordinates (11, 23)%Z 4 0 true)) = 5%nat)
  /\ (0 <= 1 /\ 1 <= 11 - (1 + (2 - 1) * 4 + 4) <= 1 + 1)%Z
  /\ (0 <= 1 /\ 1 <= 23 - (1 + (5 - 1) * 4 + 4) <= 1 + 1)%Z
  /\ forall a b : nat,
       (a < 2)%nat -> (b < 5)%nat ->
       nth (a * 5 + b) (buf (fst (get_coordinates (11, 23)%Z 4 0 true))) NaN
       = (of_Z (Z.of_nat b * 4) + Fin (qc 4 2) + of_Z 1)%num
       /\ nth (a * 5 + b) (buf (snd (get_coordinates (11, 23)%Z 4 0 true))) NaN
          = (of_Z (Z.of_nat a * 4) + Fin (qc 4 2) + of_Z 1)%num.
Proof.
  exact (get_coordinates_centred (11, 23)%Z 4 0
           ltac:(lia) ltac:(simpl; lia) ltac:(simpl; lia)).
Defined.

(** ** The two signal-to-noise evaluators on windows that are not flagged *)









